(** * consul-kv-monitor: a shallow embedding and its verified properties

    The development follows the JavaScript sources:
    - [src/ConsulResponseValidator.js]  ([filterValidKvRecords]),
    - [src/Factory.js]                  ([buildConsulKvData]),
    - [src/ConsulKvData.js]             (the keyed snapshot),
    - [src/ConsulKvMonitor.js]          (the watch orchestrator).

    Pure functions are Rocq functions.  The orchestrator is written in a
    small state-and-exception monad over a [World] that holds the fields of
    the monitor object together with the parts of the Node.js runtime the
    code talks to: the watch objects handed out by [consul.watch] with their
    listener lists, the pending timers, the [setImmediate] queue, the promise
    reactions, and the log of [emit] calls. *)

From Stdlib Require Import String Ascii List ZArith Bool Arith Lia.
Import ListNotations.
Local Open Scope string_scope.
Local Open Scope list_scope.
#[local] Set Warnings "-register-all".

(** ** JavaScript values *)

(** The values that can appear in a decoded Consul response.  Numbers are
    the integer-valued ones (indices, flags).  Arrays are dense. *)
Inductive JsValue : Type :=
| JUndefined
| JNull
| JBool (b : bool)
| JNum (n : Z)
| JStr (s : string)
| JArr (items : list JsValue)
| JObj (props : list (string * JsValue)).

(** [record.Name]: own property read, [undefined] when the property is
    missing or the receiver is not an object with named properties. *)
Fixpoint lookup_prop (name : string) (props : list (string * JsValue)) : option JsValue :=
  match props with
  | [] => None
  | (n, v) :: rest => if String.eqb n name then Some v else lookup_prop name rest
  end.

Definition get_prop (v : JsValue) (name : string) : JsValue :=
  match v with
  | JObj props => match lookup_prop name props with Some x => x | None => JUndefined end
  | _ => JUndefined
  end.

(** [obj[name] = v] on a plain object: overwrite in place, or append. *)
Fixpoint set_prop (name : string) (v : JsValue) (props : list (string * JsValue))
  : list (string * JsValue) :=
  match props with
  | [] => [(name, v)]
  | (n, x) :: rest =>
      if String.eqb n name then (n, v) :: rest else (n, x) :: set_prop name v rest
  end.

(** *** The lodash predicates used by the sources *)

Definition _isArray (v : JsValue) : bool :=
  match v with JArr _ => true | _ => false end.

Definition _isObject (v : JsValue) : bool :=
  match v with JArr _ | JObj _ => true | _ => false end.

(** [_.isEmpty] on a list-like value. *)
Definition _isEmpty {A : Type} (l : list A) : bool :=
  match l with [] => true | _ => false end.

(** [_.has(v, name)] for the property names the validator asks for: an own
    property of a plain object.  An array owns only its indices and
    [length]. *)
Definition _has (v : JsValue) (name : string) : bool :=
  match v with
  | JObj props => match lookup_prop name props with Some _ => true | None => false end
  | _ => false
  end.

Definition array_items (v : JsValue) : list JsValue :=
  match v with JArr items => items | _ => [] end.

(** The values that are no objects: [undefined], [null], booleans, numbers
    and strings.  The keys Consul sends are strings. *)
Definition is_primitive (v : JsValue) : bool :=
  match v with
  | JArr _ | JObj _ => false
  | _ => true
  end.

(** SameValueZero, the key comparison of a JavaScript [Map].  Primitives
    compare by value.  Arrays and objects compare by identity, which these
    values do not carry: on them the comparison answers [false], as it
    does on two different nodes of a decoded payload.  What a [Map] answers
    when it is asked with the very object it stores as a key is therefore
    outside this model, and the statements about looking a key up are about
    primitive keys. *)
Definition same_value_zero (a b : JsValue) : bool :=
  match a, b with
  | JUndefined, JUndefined => true
  | JNull, JNull => true
  | JBool x, JBool y => Bool.eqb x y
  | JNum x, JNum y => Z.eqb x y
  | JStr x, JStr y => String.eqb x y
  | _, _ => false
  end.

(** ** Errors ([src/Error/index.js]) *)

(** The error a watch object reports; the sources read its [message]. *)
Record ConsulError : Type := { err_message : string }.

Inductive MonitorError : Type :=
| WatchError (message : string) (err : ConsulError)
| WatchTimeoutError (message : string)
| AlreadyInitializedError (message : string)
| InvalidDataError (message : string) (extra : list (string * JsValue))
| TypeError.
(** [TypeError] is the runtime's: a method call on [null]. *)

(** ** ConsulKvData ([src/ConsulKvData.js]) *)

Record Body : Type := { metaData : JsValue; value : JsValue }.

(** A JavaScript [Map]: entries in insertion order, keys pairwise different
    under SameValueZero. *)
Definition JsMap : Type := list (JsValue * Body).

Fixpoint Map_set (k : JsValue) (b : Body) (m : JsMap) : JsMap :=
  match m with
  | [] => [(k, b)]
  | (k', b') :: rest =>
      if same_value_zero k' k then (k', b) :: rest else (k', b') :: Map_set k b rest
  end.

Fixpoint Map_get (k : JsValue) (m : JsMap) : option Body :=
  match m with
  | [] => None
  | (k', b') :: rest => if same_value_zero k' k then Some b' else Map_get k rest
  end.

Definition Map_has (k : JsValue) (m : JsMap) : bool :=
  match Map_get k m with Some _ => true | None => false end.

Definition Map_set_entry (m : JsMap) (kv : JsValue * Body) : JsMap :=
  Map_set (fst kv) (snd kv) m.

(** [new Map(records)]: the entries are set one after the other. *)
Definition Map_new (records : list (JsValue * Body)) : JsMap :=
  fold_left Map_set_entry records [].

Record ConsulKvData : Type := { _kvMap : JsMap }.

Definition new_ConsulKvData (records : list (JsValue * Body)) : ConsulKvData :=
  {| _kvMap := Map_new records |}.

Definition hasKey (d : ConsulKvData) (key : JsValue) : bool :=
  Map_has key (_kvMap d).

Definition getKeys (d : ConsulKvData) : list JsValue :=
  map fst (_kvMap d).

Definition getValue (d : ConsulKvData) (key : JsValue) : JsValue :=
  if negb (Map_has key (_kvMap d)) then JUndefined
  else match Map_get key (_kvMap d) with Some b => value b | None => JUndefined end.

Definition getMetadata (d : ConsulKvData) (key : JsValue) : JsValue :=
  if negb (Map_has key (_kvMap d)) then JUndefined
  else match Map_get key (_kvMap d) with Some b => metaData b | None => JUndefined end.

(** ** ConsulResponseValidator ([src/ConsulResponseValidator.js]) *)

Record ValidatorResult : Type :=
  { validRecords : list JsValue; errors : list MonitorError }.

(** The condition under which [forEach] reports a record. *)
Definition record_is_invalid (record : JsValue) : bool :=
  negb (_isObject record) || negb (_has record "Key") || negb (_has record "Value") ||
  negb (_has record "CreateIndex") || negb (_has record "Flags") ||
  negb (_has record "LockIndex") || negb (_has record "ModifyIndex").

Definition invalid_payload_error (records : JsValue) : MonitorError :=
  InvalidDataError "Invalid format of data received from consul KV" [("records", records)].

Definition invalid_record_error (record : JsValue) : MonitorError :=
  InvalidDataError "Invalid format of record data received from consul KV" [("record", record)].

(** One turn of [records.forEach]. *)
Definition validate_record (data : ValidatorResult) (record : JsValue) : ValidatorResult :=
  if record_is_invalid record
  then {| validRecords := validRecords data;
          errors := errors data ++ [invalid_record_error record] |}
  else {| validRecords := validRecords data ++ [record]; errors := errors data |}.

Definition filterValidKvRecords (records : JsValue) : ValidatorResult :=
  let data := {| validRecords := []; errors := [] |} in
  if negb (_isArray records) then
    {| validRecords := validRecords data;
       errors := errors data ++ [invalid_payload_error records] |}
  else if _isEmpty (array_items records) then data
  else fold_left validate_record (array_items records) data.

(** ** The monitor object and the runtime around it *)

Definition WatchId : Type := nat.
Definition CallId : Type := nat.
Definition TimerId : Type := nat.

(** The functions the monitor registers on a watch object.  [FirstChange c]
    and [FirstError c] are the closures [firstChange] and [firstError] of the
    [c]-th run of [_registerWatcherAndWaitForInitialKvData]; both are
    registered with [once]. *)
Inductive ChangeListener : Type := FirstChange (c : CallId) | OnWatcherChange.
Inductive ErrorListener : Type := FirstError (c : CallId) | OnWatcherError.
Inductive EndListener : Type := OnWatcherEnd.

Definition ChangeListener_eqb (a b : ChangeListener) : bool :=
  match a, b with
  | FirstChange c, FirstChange d => Nat.eqb c d
  | OnWatcherChange, OnWatcherChange => true
  | _, _ => false
  end.

Definition ErrorListener_eqb (a b : ErrorListener) : bool :=
  match a, b with
  | FirstError c, FirstError d => Nat.eqb c d
  | OnWatcherError, OnWatcherError => true
  | _, _ => false
  end.

Definition EndListener_eqb (a b : EndListener) : bool := true.

(** The object returned by [consul.watch]: an event emitter with the
    [end()] method and the [updateTime()] accessor. *)
Record Watch : Type :=
  { change_l : list ChangeListener;
    error_l : list ErrorListener;
    end_l : list EndListener;
    ended : bool;
    updateTime : option Z }.

Definition new_Watch : Watch :=
  {| change_l := []; error_l := []; end_l := []; ended := false; updateTime := None |}.

Definition set_change_l (x : list ChangeListener) (w : Watch) : Watch :=
  {| change_l := x; error_l := error_l w; end_l := end_l w; ended := ended w;
     updateTime := updateTime w |}.

Definition set_error_l (x : list ErrorListener) (w : Watch) : Watch :=
  {| change_l := change_l w; error_l := x; end_l := end_l w; ended := ended w;
     updateTime := updateTime w |}.

Definition set_end_l (x : list EndListener) (w : Watch) : Watch :=
  {| change_l := change_l w; error_l := error_l w; end_l := x; ended := ended w;
     updateTime := updateTime w |}.

Definition set_ended (x : bool) (w : Watch) : Watch :=
  {| change_l := change_l w; error_l := error_l w; end_l := end_l w; ended := x;
     updateTime := updateTime w |}.

Definition set_updateTime (x : option Z) (w : Watch) : Watch :=
  {| change_l := change_l w; error_l := error_l w; end_l := end_l w; ended := ended w;
     updateTime := x |}.

(** The [response] argument of a [change] event. *)
Record Response : Type := { headers : list (string * JsValue) }.

(** Who consumes the promise returned by [start()]: code outside the
    monitor, or the [await] in [_retryStartService]. *)
Inductive Caller : Type := External | RetryStartService.

Inductive Outcome : Type :=
| Resolved (kvData : ConsulKvData)
| RejectedWith (err : MonitorError).

(** A promise job: the promise of the [c]-th [start()] was settled and its
    reactions are queued. *)
Inductive Reaction : Type :=
| Fulfilled (c : CallId) (consumer : Caller) (kvData : ConsulKvData)
| Rejected (c : CallId) (consumer : Caller) (err : MonitorError).

(** The callbacks handed to [setImmediate]. *)
Inductive Immediate : Type :=
| EmitFactoryErrors (errs : list MonitorError)
| EmitStartFailure (err : MonitorError).

(** The events of the monitor, as passed to [this.emit]. *)
Inductive Notification : Type :=
| Changed (kvData : ConsulKvData)
| Healthy
| Unhealthy
| Error (err : MonitorError).

(** The fields of a [ConsulKvMonitor] instance. *)
Record ConsulKvMonitor : Type :=
  { _timeoutMsec : Z;
    _json : bool;
    _initialized : bool;
    _isWatchHealthy : bool;
    _consulKvData : ConsulKvData;
    _consulHeaders : list (string * JsValue);
    _watchKvChange : option WatchId;
    _fallbackToWatchHealthyInterval : option TimerId;
    _retryTimer : option TimerId }.

(** The monitor together with what the runtime holds for it:
    - [watches]: the watch objects, by identity; those below [next_watch]
      have been created;
    - [calls]: the pending promises of [start()], with their consumer;
    - [deadlines]: the pending initial-fetch timers, named by the run of
      [_registerWatcherAndWaitForInitialKvData] that set them, with their
      delay;
    - [intervals]: the active [setInterval] timers with their period and the
      [initialUpdateTime] their callback closes over;
    - [retries]: the pending retry timers with their delay;
    - [immediates], [microtasks]: the [setImmediate] and promise-job queues;
    - [emitted]: the calls of [this.emit] that returned, oldest first;
    - [settled]: what external callers of [start()] got back;
    - [error_listeners]: how many listeners the user of the monitor has
      attached to it for ['error']. *)
Record World : Type :=
  { this : ConsulKvMonitor;
    watches : WatchId -> Watch;
    next_watch : WatchId;
    calls : list (CallId * Caller);
    next_call : CallId;
    deadlines : list (CallId * Z);
    intervals : list (TimerId * (Z * option Z));
    retries : list (TimerId * Z);
    next_timer : TimerId;
    immediates : list Immediate;
    microtasks : list Reaction;
    emitted : list Notification;
    settled : list (CallId * Outcome);
    error_listeners : nat }.

Definition set_initialized (x : bool) (m : ConsulKvMonitor) : ConsulKvMonitor :=
  {| _timeoutMsec := _timeoutMsec m; _json := _json m; _initialized := x; _isWatchHealthy := _isWatchHealthy m; _consulKvData := _consulKvData m; _consulHeaders := _consulHeaders m; _watchKvChange := _watchKvChange m; _fallbackToWatchHealthyInterval := _fallbackToWatchHealthyInterval m; _retryTimer := _retryTimer m |}.

Definition set_isWatchHealthy (x : bool) (m : ConsulKvMonitor) : ConsulKvMonitor :=
  {| _timeoutMsec := _timeoutMsec m; _json := _json m; _initialized := _initialized m; _isWatchHealthy := x; _consulKvData := _consulKvData m; _consulHeaders := _consulHeaders m; _watchKvChange := _watchKvChange m; _fallbackToWatchHealthyInterval := _fallbackToWatchHealthyInterval m; _retryTimer := _retryTimer m |}.

Definition set_consulKvData (x : ConsulKvData) (m : ConsulKvMonitor) : ConsulKvMonitor :=
  {| _timeoutMsec := _timeoutMsec m; _json := _json m; _initialized := _initialized m; _isWatchHealthy := _isWatchHealthy m; _consulKvData := x; _consulHeaders := _consulHeaders m; _watchKvChange := _watchKvChange m; _fallbackToWatchHealthyInterval := _fallbackToWatchHealthyInterval m; _retryTimer := _retryTimer m |}.

Definition set_consulHeaders (x : list (string * JsValue)) (m : ConsulKvMonitor) : ConsulKvMonitor :=
  {| _timeoutMsec := _timeoutMsec m; _json := _json m; _initialized := _initialized m; _isWatchHealthy := _isWatchHealthy m; _consulKvData := _consulKvData m; _consulHeaders := x; _watchKvChange := _watchKvChange m; _fallbackToWatchHealthyInterval := _fallbackToWatchHealthyInterval m; _retryTimer := _retryTimer m |}.

Definition set_watchKvChange (x : option WatchId) (m : ConsulKvMonitor) : ConsulKvMonitor :=
  {| _timeoutMsec := _timeoutMsec m; _json := _json m; _initialized := _initialized m; _isWatchHealthy := _isWatchHealthy m; _consulKvData := _consulKvData m; _consulHeaders := _consulHeaders m; _watchKvChange := x; _fallbackToWatchHealthyInterval := _fallbackToWatchHealthyInterval m; _retryTimer := _retryTimer m |}.

Definition set_fallbackToWatchHealthyInterval (x : option TimerId) (m : ConsulKvMonitor) : ConsulKvMonitor :=
  {| _timeoutMsec := _timeoutMsec m; _json := _json m; _initialized := _initialized m; _isWatchHealthy := _isWatchHealthy m; _consulKvData := _consulKvData m; _consulHeaders := _consulHeaders m; _watchKvChange := _watchKvChange m; _fallbackToWatchHealthyInterval := x; _retryTimer := _retryTimer m |}.

Definition set_retryTimer (x : option TimerId) (m : ConsulKvMonitor) : ConsulKvMonitor :=
  {| _timeoutMsec := _timeoutMsec m; _json := _json m; _initialized := _initialized m; _isWatchHealthy := _isWatchHealthy m; _consulKvData := _consulKvData m; _consulHeaders := _consulHeaders m; _watchKvChange := _watchKvChange m; _fallbackToWatchHealthyInterval := _fallbackToWatchHealthyInterval m; _retryTimer := x |}.

Definition set_this (x : ConsulKvMonitor) (W : World) : World :=
  {| this := x; watches := watches W; next_watch := next_watch W; calls := calls W; next_call := next_call W; deadlines := deadlines W; intervals := intervals W; retries := retries W; next_timer := next_timer W; immediates := immediates W; microtasks := microtasks W; emitted := emitted W; settled := settled W; error_listeners := error_listeners W |}.

Definition set_watches (x : WatchId -> Watch) (W : World) : World :=
  {| this := this W; watches := x; next_watch := next_watch W; calls := calls W; next_call := next_call W; deadlines := deadlines W; intervals := intervals W; retries := retries W; next_timer := next_timer W; immediates := immediates W; microtasks := microtasks W; emitted := emitted W; settled := settled W; error_listeners := error_listeners W |}.

Definition set_next_watch (x : WatchId) (W : World) : World :=
  {| this := this W; watches := watches W; next_watch := x; calls := calls W; next_call := next_call W; deadlines := deadlines W; intervals := intervals W; retries := retries W; next_timer := next_timer W; immediates := immediates W; microtasks := microtasks W; emitted := emitted W; settled := settled W; error_listeners := error_listeners W |}.

Definition set_calls (x : list (CallId * Caller)) (W : World) : World :=
  {| this := this W; watches := watches W; next_watch := next_watch W; calls := x; next_call := next_call W; deadlines := deadlines W; intervals := intervals W; retries := retries W; next_timer := next_timer W; immediates := immediates W; microtasks := microtasks W; emitted := emitted W; settled := settled W; error_listeners := error_listeners W |}.

Definition set_next_call (x : CallId) (W : World) : World :=
  {| this := this W; watches := watches W; next_watch := next_watch W; calls := calls W; next_call := x; deadlines := deadlines W; intervals := intervals W; retries := retries W; next_timer := next_timer W; immediates := immediates W; microtasks := microtasks W; emitted := emitted W; settled := settled W; error_listeners := error_listeners W |}.

Definition set_deadlines (x : list (CallId * Z)) (W : World) : World :=
  {| this := this W; watches := watches W; next_watch := next_watch W; calls := calls W; next_call := next_call W; deadlines := x; intervals := intervals W; retries := retries W; next_timer := next_timer W; immediates := immediates W; microtasks := microtasks W; emitted := emitted W; settled := settled W; error_listeners := error_listeners W |}.

Definition set_intervals (x : list (TimerId * (Z * option Z))) (W : World) : World :=
  {| this := this W; watches := watches W; next_watch := next_watch W; calls := calls W; next_call := next_call W; deadlines := deadlines W; intervals := x; retries := retries W; next_timer := next_timer W; immediates := immediates W; microtasks := microtasks W; emitted := emitted W; settled := settled W; error_listeners := error_listeners W |}.

Definition set_retries (x : list (TimerId * Z)) (W : World) : World :=
  {| this := this W; watches := watches W; next_watch := next_watch W; calls := calls W; next_call := next_call W; deadlines := deadlines W; intervals := intervals W; retries := x; next_timer := next_timer W; immediates := immediates W; microtasks := microtasks W; emitted := emitted W; settled := settled W; error_listeners := error_listeners W |}.

Definition set_next_timer (x : TimerId) (W : World) : World :=
  {| this := this W; watches := watches W; next_watch := next_watch W; calls := calls W; next_call := next_call W; deadlines := deadlines W; intervals := intervals W; retries := retries W; next_timer := x; immediates := immediates W; microtasks := microtasks W; emitted := emitted W; settled := settled W; error_listeners := error_listeners W |}.

Definition set_immediates (x : list Immediate) (W : World) : World :=
  {| this := this W; watches := watches W; next_watch := next_watch W; calls := calls W; next_call := next_call W; deadlines := deadlines W; intervals := intervals W; retries := retries W; next_timer := next_timer W; immediates := x; microtasks := microtasks W; emitted := emitted W; settled := settled W; error_listeners := error_listeners W |}.

Definition set_microtasks (x : list Reaction) (W : World) : World :=
  {| this := this W; watches := watches W; next_watch := next_watch W; calls := calls W; next_call := next_call W; deadlines := deadlines W; intervals := intervals W; retries := retries W; next_timer := next_timer W; immediates := immediates W; microtasks := x; emitted := emitted W; settled := settled W; error_listeners := error_listeners W |}.

Definition set_emitted (x : list Notification) (W : World) : World :=
  {| this := this W; watches := watches W; next_watch := next_watch W; calls := calls W; next_call := next_call W; deadlines := deadlines W; intervals := intervals W; retries := retries W; next_timer := next_timer W; immediates := immediates W; microtasks := microtasks W; emitted := x; settled := settled W; error_listeners := error_listeners W |}.

Definition set_settled (x : list (CallId * Outcome)) (W : World) : World :=
  {| this := this W; watches := watches W; next_watch := next_watch W; calls := calls W; next_call := next_call W; deadlines := deadlines W; intervals := intervals W; retries := retries W; next_timer := next_timer W; immediates := immediates W; microtasks := microtasks W; emitted := emitted W; settled := x; error_listeners := error_listeners W |}.

Definition set_error_listeners (x : nat) (W : World) : World :=
  {| this := this W; watches := watches W; next_watch := next_watch W; calls := calls W; next_call := next_call W; deadlines := deadlines W; intervals := intervals W; retries := retries W; next_timer := next_timer W; immediates := immediates W; microtasks := microtasks W; emitted := emitted W; settled := settled W; error_listeners := x |}.

Definition DEFAULT_TIMEOUT_MSEC : Z := 5000.
Definition HEALTH_FALLBACK_INTERVAL_MSEC : Z := 1000.
Definition DEFAULT_RETRY_START_SERVICE_TIMEOUT_MSEC : Z := 1000.
Definition X_CONSUL_HEADERS : list string :=
  ["x-consul-index"; "x-consul-knownleader"; "x-consul-lastcontact"].

(** *** The effect monad: state, and exceptions that keep the state *)

Inductive Result (A : Type) : Type :=
| Returned (a : A) (W : World)
| Thrown (e : MonitorError) (W : World).
Arguments Returned {A} a W.
Arguments Thrown {A} e W.

Definition Eff (A : Type) : Type := World -> Result A.

Definition ret {A : Type} (a : A) : Eff A := fun W => Returned a W.

Definition bind {A B : Type} (m : Eff A) (k : A -> Eff B) : Eff B :=
  fun W => match m W with
           | Returned a W' => k a W'
           | Thrown e W' => Thrown e W'
           end.

Notation "x <- m ;; k" := (bind m (fun x => k))
  (at level 61, m at next level, right associativity).
Notation "m ;; k" := (bind m (fun _ => k))
  (at level 61, right associativity).

Definition throw {A : Type} (e : MonitorError) : Eff A := fun W => Thrown e W.
Definition get : Eff World := fun W => Returned W W.
Definition modify (f : World -> World) : Eff unit := fun W => Returned tt (f W).
Definition modify_this (f : ConsulKvMonitor -> ConsulKvMonitor) : Eff unit :=
  modify (fun W => set_this (f (this W)) W).
Definition when (b : bool) (m : Eff unit) : Eff unit := if b then m else ret tt.

(** Run [m] as the body of a promise callback: a throw becomes a value. *)
Definition attempt {A : Type} (m : Eff A) : Eff (MonitorError + A) :=
  fun W => match m W with
           | Returned a W' => Returned (inr a) W'
           | Thrown e W' => Returned (inl e) W'
           end.

(** *** Runtime services *)

(** [this.emit(...)] on the monitor, a plain [EventEmitter].  The listeners
    belong to the user of the monitor and are taken to return without
    calling the monitor; the log records the calls of [emit] that returned.
    [emit('error', e)] with no listener for ['error'] throws [e]. *)
Definition emit (n : Notification) : Eff unit :=
  W <- get ;;
  match n with
  | Error e =>
      match error_listeners W with
      | 0 => throw e
      | S _ => modify (fun W => set_emitted (emitted W ++ [n]) W)
      end
  | _ => modify (fun W => set_emitted (emitted W ++ [n]) W)
  end.

Definition setImmediate (i : Immediate) : Eff unit :=
  modify (fun W => set_immediates (immediates W ++ [i]) W).

Definition remove_key {A : Type} (k : nat) (l : list (nat * A)) : list (nat * A) :=
  filter (fun e => negb (Nat.eqb (fst e) k)) l.

Definition setTimeout_deadline (c : CallId) (delay : Z) : Eff unit :=
  modify (fun W => set_deadlines (deadlines W ++ [(c, delay)]) W).

Definition clearTimeout_deadline (c : CallId) : Eff unit :=
  modify (fun W => set_deadlines (remove_key c (deadlines W)) W).

Definition setInterval_fallback (period : Z) (initialUpdateTime : option Z) : Eff TimerId :=
  W <- get ;;
  modify (fun W => set_next_timer (S (next_timer W))
                     (set_intervals (intervals W ++ [(next_timer W, (period, initialUpdateTime))]) W)) ;;
  ret (next_timer W).

(** [clearInterval(h)]; nothing happens for [null]. *)
Definition clearInterval (h : option TimerId) : Eff unit :=
  match h with
  | Some id => modify (fun W => set_intervals (remove_key id (intervals W)) W)
  | None => ret tt
  end.

Definition setTimeout_retry (delay : Z) : Eff TimerId :=
  W <- get ;;
  modify (fun W => set_next_timer (S (next_timer W))
                     (set_retries (retries W ++ [(next_timer W, delay)]) W)) ;;
  ret (next_timer W).

Definition clearTimeout_retry (id : TimerId) : Eff unit :=
  modify (fun W => set_retries (remove_key id (retries W)) W).

(** [new Promise(...)] for a run of [start()]. *)
Definition new_promise (consumer : Caller) : Eff CallId :=
  W <- get ;;
  modify (fun W => set_next_call (S (next_call W))
                     (set_calls (calls W ++ [(next_call W, consumer)]) W)) ;;
  ret (next_call W).

Fixpoint find_call (c : CallId) (l : list (CallId * Caller)) : option Caller :=
  match l with
  | [] => None
  | (c', who) :: rest => if Nat.eqb c' c then Some who else find_call c rest
  end.

(** [resolve(v)] and [reject(e)]: a pending promise is settled and its
    reaction is queued as a promise job; a settled promise stays as it is. *)
Definition settle (c : CallId) (job : Caller -> Reaction) : Eff unit :=
  W <- get ;;
  match find_call c (calls W) with
  | Some who =>
      modify (fun W => set_microtasks (microtasks W ++ [job who])
                         (set_calls (remove_key c (calls W)) W))
  | None => ret tt
  end.

Definition resolve (c : CallId) (kvData : ConsulKvData) : Eff unit :=
  settle c (fun who => Fulfilled c who kvData).

Definition reject (c : CallId) (err : MonitorError) : Eff unit :=
  settle c (fun who => Rejected c who err).

(** *** The watch object as an event emitter *)

Definition upd_watch (w : WatchId) (f : Watch -> Watch) : Eff unit :=
  modify (fun W => set_watches
                     (fun i => if Nat.eqb i w then f (watches W i) else watches W i) W).

(** [this._consul.watch({...})]: a fresh watch object. *)
Definition consul_watch : Eff WatchId :=
  W <- get ;;
  modify (fun W => set_next_watch (S (next_watch W))
                     (set_watches (fun i => if Nat.eqb i (next_watch W) then new_Watch
                                            else watches W i) W)) ;;
  ret (next_watch W).

(** [removeListener] drops the most recently added matching listener. *)
Fixpoint remove_first {A : Type} (eqb : A -> A -> bool) (x : A) (l : list A) : list A :=
  match l with
  | [] => []
  | y :: rest => if eqb y x then rest else y :: remove_first eqb x rest
  end.

Definition remove_last {A : Type} (eqb : A -> A -> bool) (x : A) (l : list A) : list A :=
  rev (remove_first eqb x (rev l)).

Definition watch_on_change (w : WatchId) (l : ChangeListener) : Eff unit :=
  upd_watch w (fun o => set_change_l (change_l o ++ [l]) o).
Definition watch_on_error (w : WatchId) (l : ErrorListener) : Eff unit :=
  upd_watch w (fun o => set_error_l (error_l o ++ [l]) o).
Definition watch_on_end (w : WatchId) (l : EndListener) : Eff unit :=
  upd_watch w (fun o => set_end_l (end_l o ++ [l]) o).

Definition watch_removeListener_change (w : WatchId) (l : ChangeListener) : Eff unit :=
  upd_watch w (fun o => set_change_l (remove_last ChangeListener_eqb l (change_l o)) o).
Definition watch_removeListener_error (w : WatchId) (l : ErrorListener) : Eff unit :=
  upd_watch w (fun o => set_error_l (remove_last ErrorListener_eqb l (error_l o)) o).
Definition watch_removeListener_end (w : WatchId) (l : EndListener) : Eff unit :=
  upd_watch w (fun o => set_end_l (remove_last EndListener_eqb l (end_l o)) o).

Definition watch_updateTime (w : WatchId) : Eff (option Z) :=
  W <- get ;; ret (updateTime (watches W w)).

(** The receiver of [this._watchKvChange.f(...)]: a [TypeError] on [null]. *)
Definition this_watchKvChange : Eff WatchId :=
  W <- get ;;
  match _watchKvChange (this W) with
  | Some w => ret w
  | None => throw TypeError
  end.

(** ** Vocabulary of the statements *)


Definition record_is_valid (record : JsValue) : bool := negb (record_is_invalid record).

(** How often [k] occurs among the keys [ks], under SameValueZero. *)
Definition count_key (k : JsValue) (ks : list JsValue) : nat :=
  List.length (filter (fun k' => same_value_zero k' k) ks).

(** No two keys of [ks] are the same under SameValueZero. *)
Fixpoint keys_distinct (ks : list JsValue) : Prop :=
  match ks with
  | [] => True
  | k :: rest => Forall (fun k' => same_value_zero k k' = false) rest /\ keys_distinct rest
  end.

(** A stand-in for [JSON.parse] on the few literals the closed examples
    below use; on those inputs it returns what [JSON.parse] returns. *)
Definition sample_JSON_parse (v : JsValue) : option JsValue :=
  match v with
  | JStr "1" => Some (JNum 1)
  | JStr "2" => Some (JNum 2)
  | JStr "null" => Some JNull
  | JStr "true" => Some (JBool true)
  | JStr "{}" => Some (JObj [])
  | JNull => Some JNull
  | _ => None
  end.

Section Monitor.

(** [JSON.parse], applied to the [Value] of a record: [Some] of the decoded
    value, or [None] when it throws. *)
Variable JSON_parse : JsValue -> option JsValue.

(** ** Factory ([src/Factory.js]) *)

Record FactoryResult : Type :=
  { consulKvData : ConsulKvData; factory_errors : list MonitorError }.

Definition invalid_json_error (record : JsValue) : MonitorError :=
  InvalidDataError
    "Invalid JSON of Value field of KV is received from consul, record will be skipped"
    [("key", get_prop record "Key"); ("value", get_prop record "Value")].

(** One turn of [validRecords.forEach]; the accumulator is the pair of the
    local [records] array and the [errors] array of the validator. *)
Definition build_record (json : bool)
    (acc : list (JsValue * Body) * list MonitorError) (record : JsValue)
  : list (JsValue * Body) * list MonitorError :=
  let (records, errs) := acc in
  if json then
    match JSON_parse (get_prop record "Value") with
    | Some v =>
        (records ++ [(get_prop record "Key", {| metaData := record; value := v |})], errs)
    | None => (records, errs ++ [invalid_json_error record])
    end
  else
    (records ++ [(get_prop record "Key",
                  {| metaData := record; value := get_prop record "Value" |})], errs).

(** Whether [validRecords.forEach] keeps [record], and with which value. *)
Definition decodes (json : bool) (record : JsValue) : bool :=
  if json then
    match JSON_parse (get_prop record "Value") with Some _ => true | None => false end
  else true.

Definition decoded_value (json : bool) (record : JsValue) : JsValue :=
  if json then
    match JSON_parse (get_prop record "Value") with Some v => v | None => JUndefined end
  else get_prop record "Value".

Definition entry_of (json : bool) (record : JsValue) : JsValue * Body :=
  (get_prop record "Key", {| metaData := record; value := decoded_value json record |}).

Definition buildConsulKvData (data : JsValue) (json : bool) : FactoryResult :=
  match data with
  | JUndefined => {| consulKvData := new_ConsulKvData []; factory_errors := [] |}
  | _ =>
      let r := filterValidKvRecords data in
      let (records, errs) :=
        fold_left (build_record json) (validRecords r) ([], errors r) in
      {| consulKvData := new_ConsulKvData records; factory_errors := errs |}
  end.

(** ** ConsulKvMonitor ([src/ConsulKvMonitor.js]) *)

(** *** The methods of [ConsulKvMonitor] *)

(** The constructor, for options that pass its checks. *)
Definition new_ConsulKvMonitor (timeoutMsec : Z) (json : bool) : ConsulKvMonitor :=
  {| _timeoutMsec := timeoutMsec;
     _json := json;
     _initialized := false;
     _isWatchHealthy := false;
     _consulKvData := new_ConsulKvData [];
     _consulHeaders := [];
     _watchKvChange := None;
     _fallbackToWatchHealthyInterval := None;
     _retryTimer := None |}.

Definition isWatchHealthy : Eff bool := W <- get ;; ret (_isWatchHealthy (this W)).
Definition _setWatchHealthy : Eff unit := modify_this (set_isWatchHealthy true).
Definition _setWatchUnhealthy : Eff unit := modify_this (set_isWatchHealthy false).
Definition isInitialized : Eff bool := W <- get ;; ret (_initialized (this W)).
Definition _setInitialized : Eff unit := modify_this (set_initialized true).
Definition _setUninitialized : Eff unit := modify_this (set_initialized false).

Definition _isWatcherRegistered : Eff bool :=
  W <- get ;;
  ret (match _watchKvChange (this W) with Some _ => true | None => false end).

Definition getData : Eff ConsulKvData := W <- get ;; ret (_consulKvData (this W)).
Definition getConsulHeaders : Eff (list (string * JsValue)) :=
  W <- get ;; ret (_consulHeaders (this W)).

Definition _emitFactoryErrors (errs : list MonitorError) : Eff unit :=
  setImmediate (EmitFactoryErrors errs).

Definition _unsetFallbackToWatchHealthy : Eff unit :=
  W <- get ;;
  clearInterval (_fallbackToWatchHealthyInterval (this W)) ;;
  modify_this (set_fallbackToWatchHealthyInterval None).

Definition _setFallbackToWatchHealthy : Eff unit :=
  W <- get ;;
  when (match _fallbackToWatchHealthyInterval (this W) with Some _ => true | None => false end)
       _unsetFallbackToWatchHealthy ;;
  w <- this_watchKvChange ;;
  initialUpdateTime <- watch_updateTime w ;;
  id <- setInterval_fallback HEALTH_FALLBACK_INTERVAL_MSEC initialUpdateTime ;;
  modify_this (set_fallbackToWatchHealthyInterval (Some id)).

Definition option_Z_eqb (a b : option Z) : bool :=
  match a, b with
  | Some x, Some y => Z.eqb x y
  | None, None => true
  | _, _ => false
  end.

(** The callback of the interval set by [_setFallbackToWatchHealthy]. *)
Definition fallback_tick (initialUpdateTime : option Z) : Eff unit :=
  h <- isWatchHealthy ;;
  if h then _unsetFallbackToWatchHealthy
  else
    w <- this_watchKvChange ;;
    lastUpdateTime <- watch_updateTime w ;;
    when (negb (option_Z_eqb initialUpdateTime lastUpdateTime))
         (_unsetFallbackToWatchHealthy ;;
          _setWatchHealthy ;;
          emit Healthy).

(** [this._consulHeaders[headerName] = response.headers[headerName]] for
    the names in [X_CONSUL_HEADERS]. *)
Definition response_header (response : Response) (name : string) : JsValue :=
  match lookup_prop name (headers response) with Some v => v | None => JUndefined end.

Definition copy_consul_headers (response : Response) : Eff unit :=
  modify_this (fun m =>
    set_consulHeaders
      (fold_left (fun hs headerName => set_prop headerName (response_header response headerName) hs)
                 X_CONSUL_HEADERS (_consulHeaders m)) m).

Definition _registerWatcherAndWaitForInitialKvData (consumer : Caller) : Eff CallId :=
  c <- new_promise consumer ;;
  w <- consul_watch ;;
  modify_this (set_watchKvChange (Some w)) ;;
  W <- get ;;
  setTimeout_deadline c (_timeoutMsec (this W)) ;;
  w1 <- this_watchKvChange ;;
  watch_on_change w1 (FirstChange c) ;;
  w2 <- this_watchKvChange ;;
  watch_on_error w2 (FirstError c) ;;
  ret c.

Definition firstChange (c : CallId) (data : JsValue) (response : Response) : Eff unit :=
  w <- this_watchKvChange ;;
  watch_removeListener_error w (FirstError c) ;;
  clearTimeout_deadline c ;;
  W <- get ;;
  let r := buildConsulKvData data (_json (this W)) in
  copy_consul_headers response ;;
  when (negb (_isEmpty (factory_errors r))) (_emitFactoryErrors (factory_errors r)) ;;
  resolve c (consulKvData r).

(** [start()]: the returned promise is named by its [CallId]. *)
Definition start (consumer : Caller) : Eff CallId :=
  registered <- _isWatcherRegistered ;;
  if registered then
    c <- new_promise consumer ;;
    reject c (AlreadyInitializedError "Service is already started") ;;
    ret c
  else _registerWatcherAndWaitForInitialKvData consumer.

(** The callback [start()] passes to [then]. *)
Definition start_then (kvData : ConsulKvData) : Eff ConsulKvData :=
  w1 <- this_watchKvChange ;;
  watch_on_change w1 OnWatcherChange ;;
  w2 <- this_watchKvChange ;;
  watch_on_error w2 OnWatcherError ;;
  w3 <- this_watchKvChange ;;
  watch_on_end w3 OnWatcherEnd ;;
  _setInitialized ;;
  _setWatchHealthy ;;
  modify_this (set_consulKvData kvData) ;;
  ret kvData.

(** [_retryStartService], up to its [await]. *)
Definition _retryStartService : Eff unit :=
  _ <- start RetryStartService ;;
  ret tt.

(** [_retryStartService], after its [await]: the rest of the [try] block,
    or the [catch] block. *)
Definition _retryStartService_resume (r : Outcome) : Eff unit :=
  match r with
  | Resolved consulKvData =>
      modify_this (set_consulKvData consulKvData) ;;
      emit Healthy ;;
      emit (Changed consulKvData)
  | RejectedWith err =>
      setImmediate (EmitStartFailure err) ;;
      id <- setTimeout_retry DEFAULT_RETRY_START_SERVICE_TIMEOUT_MSEC ;;
      modify_this (set_retryTimer (Some id))
  end.

Definition _onWatcherChange (data : JsValue) (response : Response) : Eff unit :=
  h <- isWatchHealthy ;;
  let isHealthyStateChanged := negb h in
  when (negb h) _setWatchHealthy ;;
  W <- get ;;
  let r := buildConsulKvData data (_json (this W)) in
  modify_this (set_consulKvData (consulKvData r)) ;;
  copy_consul_headers response ;;
  when isHealthyStateChanged (emit Healthy) ;;
  emit (Changed (consulKvData r)) ;;
  when (negb (_isEmpty (factory_errors r))) (_emitFactoryErrors (factory_errors r)).

Definition _onWatcherError (err : ConsulError) : Eff unit :=
  _unsetFallbackToWatchHealthy ;;
  h <- isWatchHealthy ;;
  when h (_setWatchUnhealthy ;; emit Unhealthy) ;;
  _setFallbackToWatchHealthy ;;
  emit (Error (WatchError (err_message err) err)).

Definition _onWatcherEnd : Eff unit :=
  _unsetFallbackToWatchHealthy ;;
  _setUninitialized ;;
  h <- isWatchHealthy ;;
  when h (_setWatchUnhealthy ;; emit Unhealthy) ;;
  modify_this (set_watchKvChange None) ;;
  _retryStartService.

(** The [end()] method of a watch object: once only, it marks the watch as
    ended and emits [end] to the listeners registered at that moment. *)
Fixpoint call_end_listeners (ls : list EndListener) : Eff unit :=
  match ls with
  | [] => ret tt
  | OnWatcherEnd :: rest => _onWatcherEnd ;; call_end_listeners rest
  end.

Definition watch_end (w : WatchId) : Eff unit :=
  W <- get ;;
  if ended (watches W w) then ret tt
  else
    upd_watch w (set_ended true) ;;
    call_end_listeners (end_l (watches W w)).

Definition firstError (c : CallId) (err : ConsulError) : Eff unit :=
  w1 <- this_watchKvChange ;;
  watch_removeListener_change w1 (FirstChange c) ;;
  w2 <- this_watchKvChange ;;
  watch_end w2 ;;
  modify_this (set_watchKvChange None) ;;
  clearTimeout_deadline c ;;
  reject c (WatchError (err_message err) err).

(** The callback of the initial-fetch timer of run [c]. *)
Definition deadline_elapsed (c : CallId) : Eff unit :=
  w1 <- this_watchKvChange ;;
  watch_removeListener_error w1 (FirstError c) ;;
  w2 <- this_watchKvChange ;;
  watch_removeListener_change w2 (FirstChange c) ;;
  w3 <- this_watchKvChange ;;
  watch_end w3 ;;
  modify_this (set_watchKvChange None) ;;
  reject c (WatchTimeoutError "Initial consul watch request was timed out").

Definition stop : Eff unit :=
  W <- get ;;
  match _retryTimer (this W) with
  | Some id => clearTimeout_retry id ;; modify_this (set_retryTimer None)
  | None => ret tt
  end ;;
  registered <- _isWatcherRegistered ;;
  if negb registered then ret tt
  else
    w1 <- this_watchKvChange ;;
    watch_removeListener_end w1 OnWatcherEnd ;;
    w2 <- this_watchKvChange ;;
    watch_end w2 ;;
    modify_this (set_watchKvChange None) ;;
    _unsetFallbackToWatchHealthy ;;
    _setUninitialized ;;
    _setWatchUnhealthy.

(** *** The event loop *)

(** A promise job of [start()]: the [then] callback, then the consumer. *)
Definition hand_over (c : CallId) (consumer : Caller) (r : Outcome) : Eff unit :=
  match consumer with
  | External => modify (fun W => set_settled (settled W ++ [(c, r)]) W)
  | RetryStartService => _retryStartService_resume r
  end.

Definition run_reaction (r : Reaction) : Eff unit :=
  match r with
  | Fulfilled c consumer kvData =>
      v <- attempt (start_then kvData) ;;
      match v with
      | inr kvData' => hand_over c consumer (Resolved kvData')
      | inl err => hand_over c consumer (RejectedWith err)
      end
  | Rejected c consumer err => hand_over c consumer (RejectedWith err)
  end.

Fixpoint run_reactions (rs : list Reaction) : Eff unit :=
  match rs with
  | [] => ret tt
  | r :: rest => run_reaction r ;; run_reactions rest
  end.

(** The promise jobs queued during a callback run when it returns. *)
Definition run_microtasks : Eff unit :=
  W <- get ;;
  modify (set_microtasks []) ;;
  run_reactions (microtasks W).

(** [emit('change', data, response)] on a watch object: the listeners
    registered when the emit starts are called in order; a [once] listener
    is removed just before its call. *)
Fixpoint call_change_listeners (w : WatchId) (ls : list ChangeListener)
    (data : JsValue) (response : Response) : Eff unit :=
  match ls with
  | [] => ret tt
  | l :: rest =>
      match l with
      | FirstChange c =>
          watch_removeListener_change w l ;; firstChange c data response
      | OnWatcherChange => _onWatcherChange data response
      end ;;
      call_change_listeners w rest data response
  end.

Fixpoint call_error_listeners (w : WatchId) (ls : list ErrorListener)
    (err : ConsulError) : Eff unit :=
  match ls with
  | [] => ret tt
  | l :: rest =>
      match l with
      | FirstError c => watch_removeListener_error w l ;; firstError c err
      | OnWatcherError => _onWatcherError err
      end ;;
      call_error_listeners w rest err
  end.

(** [errors.forEach(error => this.emit('error', error))]. *)
Fixpoint forEach_emit_error (errs : list MonitorError) : Eff unit :=
  match errs with
  | [] => ret tt
  | error :: rest => emit (Error error) ;; forEach_emit_error rest
  end.

Definition run_immediate (i : Immediate) : Eff unit :=
  match i with
  | EmitFactoryErrors errs => forEach_emit_error errs
  | EmitStartFailure err => emit (Error err)
  end.

(** What can happen next: a call from outside, an event of a watch object
    that has not ended, a timer, or the next [setImmediate] callback.
    - [WatchChange]: a poll brought a new index: the watch object stamps
      its update time and emits [change];
    - [WatchUpdated]: a poll succeeded without a new index: only the
      update time moves;
    - [WatchError]: the watch object emits [error]; when the error is
      [fatal] (a validation error, a 400) it then calls its own [end()];
    - [CallOnError], [CallRemoveErrorListener]: the user of the monitor
      attaches a listener for ['error'] to it, or removes one. *)
Inductive Event : Type :=
| CallStart
| CallStop
| WatchChange (w : WatchId) (now : Z) (data : JsValue) (response : Response)
| WatchUpdated (w : WatchId) (now : Z)
| WatchErrorEv (w : WatchId) (err : ConsulError) (fatal : bool)
| DeadlineElapsed (c : CallId)
| FallbackTick (id : TimerId)
| RetryElapsed (id : TimerId)
| NextImmediate
| CallOnError
| CallRemoveErrorListener.

Definition watch_is_live (W : World) (w : WatchId) : bool :=
  Nat.ltb w (next_watch W) && negb (ended (watches W w)).

Fixpoint lookup_key {A : Type} (k : nat) (l : list (nat * A)) : option A :=
  match l with
  | [] => None
  | (k', a) :: rest => if Nat.eqb k' k then Some a else lookup_key k rest
  end.

(** The callback of an event, when the event is possible in [W]. *)
Definition callback (ev : Event) (W : World) : option (Eff unit) :=
  match ev with
  | CallStart => Some (_ <- start External ;; ret tt)
  | CallStop => Some stop
  | WatchChange w now data response =>
      if watch_is_live W w then
        Some (upd_watch w (set_updateTime (Some now)) ;;
              W1 <- get ;;
              call_change_listeners w (change_l (watches W1 w)) data response)
      else None
  | WatchUpdated w now =>
      if watch_is_live W w then Some (upd_watch w (set_updateTime (Some now))) else None
  | WatchErrorEv w err fatal =>
      if watch_is_live W w then
        Some (W1 <- get ;;
              call_error_listeners w (error_l (watches W1 w)) err ;;
              when fatal (watch_end w))
      else None
  | DeadlineElapsed c =>
      match lookup_key c (deadlines W) with
      | Some _ => Some (clearTimeout_deadline c ;; deadline_elapsed c)
      | None => None
      end
  | FallbackTick id =>
      match lookup_key id (intervals W) with
      | Some (_, initialUpdateTime) => Some (fallback_tick initialUpdateTime)
      | None => None
      end
  | RetryElapsed id =>
      match lookup_key id (retries W) with
      | Some _ => Some (clearTimeout_retry id ;; _retryStartService)
      | None => None
      end
  | NextImmediate =>
      match immediates W with
      | i :: rest => Some (modify (set_immediates rest) ;; run_immediate i)
      | [] => None
      end
  | CallOnError =>
      Some (modify (fun W => set_error_listeners (S (error_listeners W)) W))
  | CallRemoveErrorListener =>
      Some (modify (fun W => set_error_listeners (Nat.pred (error_listeners W)) W))
  end.

(** One turn of the event loop: the callback, then the promise jobs.  A
    [Thrown] result is an uncaught exception. *)
Definition turn (ev : Event) (W : World) : option (Result unit) :=
  match callback ev W with
  | Some m => Some ((m ;; run_microtasks) W)
  | None => None
  end.

Definition new_World (timeoutMsec : Z) (json : bool) : World :=
  {| this := new_ConsulKvMonitor timeoutMsec json;
     watches := fun _ => new_Watch;
     next_watch := 0;
     calls := [];
     next_call := 0;
     deadlines := [];
     intervals := [];
     retries := [];
     next_timer := 0;
     immediates := [];
     microtasks := [];
     emitted := [];
     settled := [];
     error_listeners := 0 |}.

(** The worlds the event loop can be in between two turns. *)
Inductive reachable : World -> Prop :=
| reachable_new : forall timeoutMsec json,
    reachable (new_World timeoutMsec json)
| reachable_turn : forall W ev W',
    reachable W -> turn ev W = Some (Returned tt W') -> reachable W'.

(** A run of events from a world; [None] when an event is not possible or
    a callback throws. *)
Fixpoint run (evs : list Event) (W : World) : option World :=
  match evs with
  | [] => Some W
  | ev :: rest =>
      match turn ev W with
      | Some (Returned _ W') => run rest W'
      | _ => None
      end
  end.

End Monitor.

(** ** The constructor of [ConsulKvMonitor] *)

(** JavaScript truthiness. *)
Definition truthy (v : JsValue) : bool :=
  match v with
  | JUndefined | JNull => false
  | JBool b => b
  | JNum n => negb (Z.eqb n 0)
  | JStr s => negb (String.eqb s EmptyString)
  | JArr _ | JObj _ => true
  end.

Definition _isPlainObject (v : JsValue) : bool :=
  match v with JObj _ => true | _ => false end.

Definition _isString (v : JsValue) : bool :=
  match v with JStr _ => true | _ => false end.

(** [_.isEmpty] on a string. *)
Definition _isEmpty_string (v : JsValue) : bool :=
  match v with JStr s => String.eqb s EmptyString | _ => true end.

Definition MAX_SAFE_INTEGER : Z := 9007199254740991.

Definition _isSafeInteger (v : JsValue) : bool :=
  match v with
  | JNum n => Z.leb (- MAX_SAFE_INTEGER) n && Z.leb n MAX_SAFE_INTEGER
  | _ => false
  end.

(** [options.timeoutMsec <= 0], once the value is known to be a number. *)
Definition number_le_0 (v : JsValue) : bool :=
  match v with JNum n => Z.leb n 0 | _ => false end.

(** What the duck-typing check of the constructor sees of its [consul]
    argument. *)
Record ConsulClient : Type :=
  { consul_isObject : bool;
    consul_watch_isFunction : bool;
    consul_kv_isObject : bool;
    consul_kv_get_isFunction : bool }.

(** [new ConsulKvMonitor(options, consul)]: the message of the [TypeError]
    it throws, or the fields of the new monitor.  [this._json] is kept as
    the truth value [buildConsulKvData] tests; the key prefix and the client
    are only handed on to [consul.watch]. *)
Definition constructor (options : JsValue) (consul : ConsulClient)
  : string + ConsulKvMonitor :=
  if negb (_isPlainObject options) then inl "options must be an object"
  else if negb (_has options "keysPrefix")
          || negb (_isString (get_prop options "keysPrefix"))
          || _isEmpty_string (get_prop options "keysPrefix")
  then inl "options.keysPrefix must be set and be a non-empty string"
  else
    let timeout :=
      if negb (_has options "timeoutMsec") then inr DEFAULT_TIMEOUT_MSEC
      else if negb (_isSafeInteger (get_prop options "timeoutMsec"))
              || number_le_0 (get_prop options "timeoutMsec")
      then inl "options.timeoutMsec must be a positive integer if set"
      else inr (match get_prop options "timeoutMsec" with JNum n => n | _ => 0%Z end) in
    match timeout with
    | inl message => inl message
    | inr timeoutMsec =>
        if negb (consul_isObject consul) || negb (consul_watch_isFunction consul)
           || negb (consul_kv_isObject consul) || negb (consul_kv_get_isFunction consul)
        then inl "consul argument does not look like Consul object"
        else inr (new_ConsulKvMonitor timeoutMsec (truthy (get_prop options "json")))
    end.

(** ** Vocabulary of the statements about the monitor *)

(** [m] keeps [I], also when it throws. *)
Definition preserves (I : World -> Prop) {A : Type} (m : Eff A) : Prop :=
  forall W, I W -> match m W with Returned _ W' => I W' | Thrown _ W' => I W' end.

(** From a world in [P], [m] returns in [Q], or throws. *)
Definition hoare {A : Type} (P : World -> Prop) (m : Eff A) (Q : A -> World -> Prop) : Prop :=
  forall W, P W -> match m W with Returned a W' => Q a W' | Thrown _ _ => True end.

(** The only active interval is the one [_fallbackToWatchHealthyInterval]
    holds. *)
Definition fallback_timer_tracked (W : World) : Prop :=
  match _fallbackToWatchHealthyInterval (this W) with
  | None => intervals W = []
  | Some id => exists b, intervals W = [(id, (HEALTH_FALLBACK_INTERVAL_MSEC, b))]
  end.

(** The pending promises were all created before [next_call]. *)
Definition calls_fresh (W : World) : Prop :=
  forall c, find_call c (calls W) <> None -> c < next_call W.

Definition watch_alive (W : World) (w : WatchId) : Prop :=
  ended (watches W w) = false.

(** [_onWatcherEnd] listens on [w]. *)
Definition end_attached (W : World) (w : WatchId) : Prop :=
  end_l (watches W w) <> [].

(** [w] is waiting for its first response: its first [error] listener is
    the [firstError] of a promise that is still pending. *)
Definition first_error_waiting (W : World) (w : WatchId) : Prop :=
  exists c, hd_error (error_l (watches W w)) = Some (FirstError c) /\
            find_call c (calls W) <> None.

Definition has_fulfilled (rs : list Reaction) : Prop :=
  exists c who kv, In (Fulfilled c who kv) rs.

(** The state of the session, with [rs] the promise jobs still to run:
    an initialized monitor holds a watch on which [_onWatcherEnd] listens;
    and the watch the monitor holds has not ended and either has
    [_onWatcherEnd] listening, or is waiting for its first response, or a
    fulfilled [start()] is about to attach the listeners. *)
Definition session_ok (rs : list Reaction) (W : World) : Prop :=
  calls_fresh W /\
  (_initialized (this W) = true ->
   exists w, _watchKvChange (this W) = Some w /\ end_attached W w) /\
  (forall w, _watchKvChange (this W) = Some w ->
     watch_alive W w /\
     (end_attached W w \/ first_error_waiting W w \/ has_fulfilled rs)).

(** Inside a callback. *)
Definition handler_ok (W : World) : Prop := session_ok (microtasks W) W.

(** While the promise jobs [rs] run. *)
Definition drain_ok (rs : list Reaction) (W : World) : Prop :=
  session_ok rs W /\ microtasks W = [].

(** Between two turns of the event loop. *)
Definition session_invariant (W : World) : Prop := drain_ok [] W.

Definition uninit_ok (W : World) : Prop :=
  _initialized (this W) = false /\ handler_ok W.

Definition session_closed (W : World) : Prop :=
  _watchKvChange (this W) = None /\ _initialized (this W) = false /\ calls_fresh W.

(** What [firstError] and the initial-fetch timer rely on. *)
Definition pre_core (W : World) : Prop :=
  calls_fresh W /\
  (_initialized (this W) = true ->
   exists w, _watchKvChange (this W) = Some w /\ end_attached W w /\ watch_alive W w).

(** While [error] is emitted on watch [w] to the listeners [ls]: if [w] is
    still the session and has no [end] listener yet, the next listener is a
    [firstError]. *)
Definition error_emit_ok (w : WatchId) (ls : list ErrorListener) (W : World) : Prop :=
  handler_ok W /\
  (_watchKvChange (this W) = Some w ->
   end_attached W w \/ exists c, hd_error ls = Some (FirstError c)).

(** What [end()] on a watch leaves alone, whatever its listeners do: the
    retry timer, the snapshot, the headers, the queues of the callers; and
    the pending initial-fetch timers stay. *)
Definition end_keeps (W0 W : World) : Prop :=
  retries W = retries W0 /\
  _retryTimer (this W) = _retryTimer (this W0) /\
  _consulKvData (this W) = _consulKvData (this W0) /\
  _consulHeaders (this W) = _consulHeaders (this W0) /\
  settled W = settled W0 /\
  immediates W = immediates W0 /\
  incl (deadlines W0) (deadlines W) /\
  microtasks W = microtasks W0.

(** *** Where the ongoing handlers listen *)

(** One of the three ongoing handlers listens on the watch object. *)
Definition handlers_attached (x : Watch) : Prop :=
  In OnWatcherChange (change_l x) \/ In OnWatcherError (error_l x) \/ end_l x <> [].

(** The ongoing handlers listen on no watch object that can still emit,
    except the one the monitor holds, and then the monitor is initialized. *)
Definition handlers_on_session (W : World) : Prop :=
  forall w, ended (watches W w) = false -> handlers_attached (watches W w) ->
    _watchKvChange (this W) = Some w /\ _initialized (this W) = true.

(** No watch object that can still emit has an ongoing handler. *)
Definition no_handlers (W : World) : Prop :=
  forall w, ended (watches W w) = false -> ~ handlers_attached (watches W w).

(** Only an initialized monitor is healthy or holds a fallback interval. *)
Definition flags_ok (W : World) : Prop :=
  (_fallbackToWatchHealthyInterval (this W) <> None -> _initialized (this W) = true) /\
  (_isWatchHealthy (this W) = true -> _initialized (this W) = true).

Definition monitor_ok (W : World) : Prop := handlers_on_session W /\ flags_ok W.

(** Changing the watch objects without adding an ongoing handler and
    without reviving a watch. *)
Definition fewer_handlers (ws' ws : WatchId -> Watch) : Prop :=
  forall i, (ended (ws' i) = false -> ended (ws i) = false) /\
            (ended (ws' i) = false -> handlers_attached (ws' i) -> handlers_attached (ws i)).

(** The monitor holds no watch: a first response failed or timed out. *)
Definition given_up (W : World) : Prop :=
  monitor_ok W /\ _watchKvChange (this W) = None.

(** ** Sample data for the closed examples *)

Definition rec_a1 : JsValue :=
  JObj [("Key", JStr "a"); ("Value", JStr "1"); ("CreateIndex", JNum 1);
        ("Flags", JNum 0); ("LockIndex", JNum 0); ("ModifyIndex", JNum 1)].

Definition rec_a2 : JsValue :=
  JObj [("Key", JStr "a"); ("Value", JStr "2"); ("CreateIndex", JNum 1);
        ("Flags", JNum 0); ("LockIndex", JNum 0); ("ModifyIndex", JNum 2)].


Definition sample_response : Response :=
  {| headers := [("x-consul-index", JStr "313984"); ("x-consul-knownleader", JStr "true");
                 ("x-consul-lastcontact", JStr "0")] |}.

Definition sample_error : ConsulError := {| err_message := "connect ECONNREFUSED" |}.

(** The world after the events [evs], decoding with [sample_JSON_parse]. *)
Definition world_after (evs : list Event) : World :=
  match run sample_JSON_parse evs (new_World 5000 false) with
  | Some W => W
  | None => new_World 5000 false
  end.

(** [start()] was called, nothing came back yet. *)
Definition world_starting : World := world_after [CallOnError; CallStart].

(** The first response arrived. *)
Definition world_running : World :=
  world_after [CallOnError; CallStart; WatchChange 0 10 (JArr [rec_a1]) sample_response].

(** The same, on a monitor to which no listener for ['error'] was
    attached. *)
Definition world_running_unheard : World :=
  world_after [CallStart; WatchChange 0 10 (JArr [rec_a1]) sample_response].


(** [stop()] came before the first response of the first session and left
    its initial-fetch timer pending; the second session was running when
    that timer fired and dropped it; of the two sessions started next, the
    first response of the older one attached the ongoing handlers to the
    watch of the younger one, which still carries its own [firstError]. *)
Definition world_first_error_left : World :=
  world_after [CallOnError; CallStart; CallStop; CallStart;
               WatchChange 1 10 (JArr [rec_a1]) sample_response; DeadlineElapsed 0;
               CallStart; WatchChange 2 20 (JArr [rec_a1]) sample_response].

(** Then the watch reported an error. *)
Definition world_unhealthy : World :=
  world_after [CallOnError; CallStart; WatchChange 0 10 (JArr [rec_a1]) sample_response;
               WatchErrorEv 0 sample_error false].

(** The watch ended, and the retry failed: a retry timer is pending. *)
Definition world_retrying : World :=
  world_after [CallOnError; CallStart; WatchChange 0 10 (JArr [rec_a1]) sample_response;
               WatchErrorEv 0 sample_error true; WatchErrorEv 1 sample_error false].

(** An error, then a silent poll moved the update time of the watch. *)
Definition world_recovering : World :=
  world_after [CallOnError; CallStart; WatchChange 0 10 (JArr [rec_a1]) sample_response;
               WatchErrorEv 0 sample_error false; WatchUpdated 0 20].

(** A retry timer is pending, and [start()] was called from outside. *)
Definition world_retrying_started : World :=
  world_after [CallOnError; CallStart; WatchChange 0 10 (JArr [rec_a1]) sample_response;
               WatchErrorEv 0 sample_error true; WatchErrorEv 1 sample_error false;
               CallStart].

(** The watch failed for good and ended; [_retryStartService] registered
    the next watch, which has not answered yet. *)
Definition world_restarted : World :=
  world_after [CallOnError; CallStart; WatchChange 0 10 (JArr [rec_a1]) sample_response;
               WatchErrorEv 0 sample_error true].

(** Two retry timers are pending: the first retry window was still open
    when [start()] was called from outside, and that second session ended
    and could not be started again either. *)
Definition world_two_retries : World :=
  world_after [CallOnError; CallStart; WatchChange 0 10 (JArr [rec_a1]) sample_response;
               WatchErrorEv 0 sample_error true; WatchErrorEv 1 sample_error false;
               CallStart; WatchChange 2 20 (JArr [rec_a1]) sample_response;
               WatchErrorEv 2 sample_error true; WatchErrorEv 3 sample_error false].

Definition sample_options : JsValue :=
  JObj [("keysPrefix", JStr "crabscoder/"); ("json", JBool false); ("timeoutMsec", JNum 1000)].

Definition sample_consul : ConsulClient :=
  {| consul_isObject := true; consul_watch_isFunction := true;
     consul_kv_isObject := true; consul_kv_get_isFunction := true |}.

(** * Proofs *)

(** Symbolic execution.  [open_world W] splits a world into its fields;
    [exec] unfolds the monadic layer, the straight-line methods and the
    record updates, and computes. *)
Ltac open_world W :=
  let m := fresh "m" in
  destruct W as [m ?ws ?nw ?cs ?nc ?ds ?ivs ?rts ?nt ?ims ?mts ?ems ?sts ?els];
  destruct m as [?tm ?js ?ini ?hl ?kd ?hd ?wk ?fb ?rt];
  cbn [this watches next_watch calls next_call deadlines intervals retries
       next_timer immediates microtasks emitted settled error_listeners
       _timeoutMsec _json _initialized _isWatchHealthy _consulKvData _consulHeaders
       _watchKvChange _fallbackToWatchHealthyInterval _retryTimer] in *.

Ltac exec :=
  cbv [bind ret get modify modify_this when throw attempt
       emit setImmediate setTimeout_deadline clearTimeout_deadline
       setInterval_fallback clearInterval setTimeout_retry clearTimeout_retry
       new_promise settle resolve reject upd_watch consul_watch
       watch_on_change watch_on_error watch_on_end
       watch_removeListener_change watch_removeListener_error watch_removeListener_end
       watch_updateTime this_watchKvChange
       isWatchHealthy _setWatchHealthy _setWatchUnhealthy isInitialized
       _setInitialized _setUninitialized _isWatcherRegistered
       _emitFactoryErrors _unsetFallbackToWatchHealthy _setFallbackToWatchHealthy
       fallback_tick copy_consul_headers _registerWatcherAndWaitForInitialKvData
       firstChange start start_then _retryStartService _retryStartService_resume
       _onWatcherChange _onWatcherError _onWatcherEnd hand_over run_reaction
       set_this set_watches set_next_watch set_calls set_next_call set_deadlines
       set_intervals set_retries set_next_timer set_immediates set_microtasks
       set_emitted set_settled set_error_listeners
       set_initialized set_isWatchHealthy set_consulKvData set_consulHeaders
       set_watchKvChange set_fallbackToWatchHealthyInterval set_retryTimer
       this watches next_watch calls next_call deadlines intervals retries
       next_timer immediates microtasks emitted settled error_listeners
       _timeoutMsec _json _initialized _isWatchHealthy _consulKvData _consulHeaders
       _watchKvChange _fallbackToWatchHealthyInterval _retryTimer
       negb _isEmpty];
  cbn [set_change_l set_error_l set_end_l set_ended set_updateTime
       change_l error_l end_l ended updateTime].

Section Properties.
Variable JSON_parse : JsValue -> option JsValue.

(** ** The validator *)
Lemma fold_validate_record : forall rs acc,
  fold_left validate_record rs acc =
  {| validRecords := validRecords acc ++ filter record_is_valid rs;
     errors := errors acc ++ map invalid_record_error (filter record_is_invalid rs) |}.
Proof.
  induction rs as [|r rs IH]; intros acc; simpl.
  - rewrite !app_nil_r. destruct acc; reflexivity.
  - rewrite IH. unfold validate_record, record_is_valid.
    destruct (record_is_invalid r); simpl; rewrite <- !app_assoc; reflexivity.
Qed.

Lemma filterValidKvRecords_array : forall rs,
  filterValidKvRecords (JArr rs) =
  {| validRecords := filter record_is_valid rs;
     errors := map invalid_record_error (filter record_is_invalid rs) |}.
Proof.
  intros rs. unfold filterValidKvRecords. simpl.
  destruct rs as [|r rs]; [reflexivity|].
  cbv [_isEmpty]. rewrite fold_validate_record. reflexivity.
Qed.

Lemma filter_split_length {A} (p : A -> bool) (l : list A) :
  length (filter p l) + length (filter (fun x => negb (p x)) l) = length l.
Proof.
  induction l as [|x l IH]; simpl; [reflexivity|].
  destruct (p x); simpl; lia.
Qed.



(** ** The map of a snapshot *)
Lemma same_value_zero_eq : forall a b, same_value_zero a b = true -> a = b.
Proof.
  intros a b H. destruct a, b; simpl in H; try discriminate; try reflexivity.
  - apply Bool.eqb_prop in H. now subst.
  - apply Z.eqb_eq in H. now subst.
  - apply String.eqb_eq in H. now subst.
Qed.


Lemma Map_get_set : forall m k b k2,
  Map_get k2 (Map_set k b m) =
  if same_value_zero k k2 then Some b else Map_get k2 m.
Proof.
  induction m as [|[k' b'] m IH]; intros k b k2; simpl.
  - reflexivity.
  - destruct (same_value_zero k' k) eqn:E1; simpl.
    + apply same_value_zero_eq in E1. subst k'.
      destruct (same_value_zero k k2); reflexivity.
    + rewrite IH. destruct (same_value_zero k' k2) eqn:E2; [|reflexivity].
      destruct (same_value_zero k k2) eqn:E3; [|reflexivity].
      apply same_value_zero_eq in E2. subst k'.
      pose proof (same_value_zero_eq _ _ E3). subst k. congruence.
Qed.


Lemma Map_keys_set : forall m k b,
  map fst (Map_set k b m) = map fst m \/ map fst (Map_set k b m) = map fst m ++ [k].
Proof.
  induction m as [|[k' b'] m IH]; intros k b; simpl.
  - now right.
  - destruct (same_value_zero k' k); simpl; [now left|].
    destruct (IH k b) as [E|E]; rewrite E; [now left | now right].
Qed.

Lemma Map_length_set : forall m k b,
  List.length (Map_set k b m) = if Map_has k m then List.length m else S (List.length m).
Proof.
  unfold Map_has. induction m as [|[k' b'] m IH]; intros k b; simpl.
  - reflexivity.
  - destruct (same_value_zero k' k); simpl; [reflexivity|].
    rewrite IH. destruct (Map_get k m); reflexivity.
Qed.

Lemma Map_length_fold : forall l m,
  List.length (fold_left Map_set_entry l m) <= List.length m + List.length l.
Proof.
  induction l as [|e l IH]; intros m; simpl; [lia|].
  specialize (IH (Map_set_entry m e)). unfold Map_set_entry in *.
  rewrite Map_length_set in IH. destruct (Map_has (fst e) m); lia.
Qed.


Lemma keys_distinct_snoc : forall ks k,
  keys_distinct ks -> Forall (fun k' => same_value_zero k' k = false) ks ->
  keys_distinct (ks ++ [k]).
Proof.
  induction ks as [|x ks IH]; intros k Hd Hf; simpl.
  - split; [constructor | exact I].
  - destruct Hd as [Hx Hd]. inversion Hf; subst. split.
    + apply Forall_app. split; [exact Hx | constructor; [assumption | constructor]].
    + now apply IH.
Qed.

Lemma Map_set_keys_distinct : forall m k b,
  keys_distinct (map fst m) -> keys_distinct (map fst (Map_set k b m)).
Proof.
  induction m as [|[k' b'] m IH]; intros k b Hd; simpl.
  - split; [constructor | exact I].
  - destruct Hd as [Hx Hd]. destruct (same_value_zero k' k) eqn:E; simpl.
    + split; assumption.
    + split; [|now apply IH].
      destruct (Map_keys_set m k b) as [Ek|Ek]; rewrite Ek; [assumption|].
      apply Forall_app. split; [assumption | constructor; [assumption | constructor]].
Qed.

Lemma Map_fold_keys_distinct : forall l m,
  keys_distinct (map fst m) -> keys_distinct (map fst (fold_left Map_set_entry l m)).
Proof.
  induction l as [|e l IH]; intros m Hd; simpl; [assumption|].
  apply IH. now apply Map_set_keys_distinct.
Qed.

Lemma count_key_distinct_le : forall ks k,
  keys_distinct ks -> count_key k ks <= 1.
Proof.
  unfold count_key. induction ks as [|x ks IH]; intros k Hk; simpl; [lia|].
  destruct Hk as [Hx Hd].
  destruct (same_value_zero x k) eqn:E; simpl; [|now apply IH].
  apply same_value_zero_eq in E. subst x.
  assert (filter (fun k' => same_value_zero k' k) ks = []) as ->; [|simpl; lia].
  clear IH Hd. induction ks as [|y ks IH]; [reflexivity|]. simpl.
  inversion Hx; subst. destruct (same_value_zero y k) eqn:E.
  - pose proof (same_value_zero_eq _ _ E). subst y. congruence.
  - now apply IH.
Qed.


Lemma Map_set_distinct_snoc : forall m k b,
  Forall (fun k' => same_value_zero k' k = false) (map fst m) ->
  Map_set k b m = m ++ [(k, b)].
Proof.
  induction m as [|[k' b'] m IH]; intros k b H; simpl; [reflexivity|].
  inversion H; subst. simpl in *.
  match goal with E : same_value_zero k' k = false |- _ => rewrite E end.
  now rewrite IH.
Qed.

Lemma keys_distinct_app_inv : forall ks1 ks2,
  keys_distinct (ks1 ++ ks2) ->
  keys_distinct ks1 /\ keys_distinct ks2 /\
  forall a b, In a ks1 -> In b ks2 -> same_value_zero a b = false.
Proof.
  induction ks1 as [|x ks1 IH]; intros ks2 H; simpl in *.
  - repeat split; [assumption | intros a b []].
  - destruct H as [Hx H]. apply Forall_app in Hx. destruct Hx as [Hx1 Hx2].
    destruct (IH _ H) as (H1 & H2 & H3). repeat split; try assumption.
    intros a b [<-|Ha] Hb.
    + rewrite Forall_forall in Hx2. now apply Hx2.
    + now apply H3.
Qed.

Lemma Map_fold_distinct : forall l m,
  keys_distinct (map fst (m ++ l)) -> fold_left Map_set_entry l m = m ++ l.
Proof.
  induction l as [|e l IH]; intros m H; simpl.
  - now rewrite app_nil_r.
  - assert (Hm : m ++ e :: l = (m ++ [e]) ++ l) by (rewrite <- app_assoc; reflexivity).
    rewrite Hm in H |- *.
    unfold Map_set_entry at 2. rewrite Map_set_distinct_snoc.
    + destruct e. now apply IH.
    + rewrite !map_app in H. apply keys_distinct_app_inv in H. destruct H as (H & _ & _).
      apply keys_distinct_app_inv in H. destruct H as (_ & _ & H).
      apply Forall_forall. intros a Ha. apply H; [assumption | now left].
Qed.

Lemma Map_new_fold : forall l, Map_new l = fold_left Map_set_entry l [].
Proof. reflexivity. Qed.

Lemma Map_set_In : forall m k0 b0 k b,
  In (k, b) (Map_set k0 b0 m) -> In (k, b) m \/ (k, b) = (k0, b0).
Proof.
  induction m as [|[k' b'] m IH]; intros k0 b0 k b H; simpl in *.
  - destruct H as [H|[]]. now right.
  - destruct (same_value_zero k' k0) eqn:E.
    + destruct H as [H|H].
      * apply same_value_zero_eq in E. subst k'. now right.
      * left. now right.
    + destruct H as [H|H]; [left; now left|].
      destruct (IH _ _ _ _ H) as [H'|H']; [left; now right | now right].
Qed.

Lemma Map_fold_In : forall l m k b,
  In (k, b) (fold_left Map_set_entry l m) -> In (k, b) m \/ In (k, b) l.
Proof.
  induction l as [|e l IH]; intros m k b H; simpl in *; [now left|].
  destruct (IH _ _ _ H) as [H'|H']; [|right; now right].
  unfold Map_set_entry in H'. destruct (Map_set_In _ _ _ _ _ H') as [H''|H''].
  - now left.
  - right. left. destruct e. simpl in H''. congruence.
Qed.

(** ** The factory *)

Lemma fold_build_record : forall json rs records errs,
  fold_left (build_record JSON_parse json) rs (records, errs) =
  (records ++ map (entry_of JSON_parse json) (filter (decodes JSON_parse json) rs),
   errs ++ map invalid_json_error (filter (fun r => negb (decodes JSON_parse json r)) rs)).
Proof.
  induction rs as [|r rs IH]; intros records errs.
  - simpl. now rewrite !app_nil_r.
  - cbn [fold_left filter]. unfold build_record at 2.
    unfold decodes at 1 3. unfold entry_of at 1, decoded_value at 1.
    destruct json.
    + destruct (JSON_parse (get_prop r "Value")) eqn:E; rewrite IH; simpl;
        unfold entry_of, decoded_value; rewrite ?E, <- ?app_assoc; reflexivity.
    + rewrite IH. simpl. rewrite <- app_assoc. reflexivity.
Qed.

Lemma buildConsulKvData_eq : forall data json,
  data <> JUndefined ->
  buildConsulKvData JSON_parse data json =
  let r := filterValidKvRecords data in
  {| consulKvData :=
       new_ConsulKvData (map (entry_of JSON_parse json) (filter (decodes JSON_parse json) (validRecords r)));
     factory_errors :=
       errors r ++ map invalid_json_error
                       (filter (fun rec => negb (decodes JSON_parse json rec)) (validRecords r)) |}.
Proof.
  intros data json Hd. cbv zeta.
  assert (E : buildConsulKvData JSON_parse data json =
              let r := filterValidKvRecords data in
              let (records, errs) :=
                fold_left (build_record JSON_parse json) (validRecords r) ([], errors r) in
              {| consulKvData := new_ConsulKvData records; factory_errors := errs |}).
  { destruct data; try reflexivity. congruence. }
  rewrite E. cbv zeta. rewrite fold_build_record. reflexivity.
Qed.






(** C6, as amended.  [_onWatcherError] on a monitor that holds a watch: the
    interval the monitor held is cleared, the monitor is unhealthy
    afterwards, [unhealthy] is emitted exactly when it was healthy, and a
    new interval is set with the update time of the watch as baseline.
    Last, on a monitor with a listener for ['error'] the [error] wrapping
    the cause is emitted and the handler returns; on a monitor with none
    the handler throws that error and no [error] is emitted. *)
Theorem onWatcherError_spec : forall W w err,
  _watchKvChange (this W) = Some w ->
  let heard := negb (Nat.eqb (error_listeners W) 0) in
  let wrapped := WatchError (err_message err) err in
  exists W',
    _onWatcherError err W = (if heard then Returned tt W' else Thrown wrapped W') /\
    _isWatchHealthy (this W') = false /\
    emitted W' =
      emitted W ++ (if _isWatchHealthy (this W) then [Unhealthy] else [])
                ++ (if heard then [Error wrapped] else []) /\
    intervals W' =
      match _fallbackToWatchHealthyInterval (this W) with
      | Some old => remove_key old (intervals W)
      | None => intervals W
      end ++ [(next_timer W, (HEALTH_FALLBACK_INTERVAL_MSEC, updateTime (watches W w)))] /\
    _fallbackToWatchHealthyInterval (this W') = Some (next_timer W) /\
    _watchKvChange (this W') = Some w /\
    _initialized (this W') = _initialized (this W).
Proof.
  intros W w err Hw heard wrapped. subst heard wrapped.
  open_world W. subst wk. destruct els, fb, hl; exec; cbn [Nat.eqb];
    eexists; (split; [reflexivity|]); rewrite <- ?app_assoc, ?app_nil_r;
    repeat split; reflexivity.
Qed.

(** * Invariants of the monitor *)
Lemma preserves_ret : forall I A (a : A), preserves I (ret a).
Proof. intros I A a W H. exact H. Qed.

Lemma preserves_bind : forall I A B (m : Eff A) (k : A -> Eff B),
  preserves I m -> (forall a, preserves I (k a)) -> preserves I (bind m k).
Proof.
  intros I A B m k Hm Hk W H. unfold bind. specialize (Hm W H).
  destruct (m W) as [a W'|e W']; [apply Hk; exact Hm | exact Hm].
Qed.

Lemma preserves_get : forall I, preserves I get.
Proof. intros I W H. exact H. Qed.

Lemma preserves_throw : forall I A e, preserves I (@throw A e).
Proof. intros I A e W H. exact H. Qed.

Lemma preserves_modify : forall (I : World -> Prop) f,
  (forall W, I W -> I (f W)) -> preserves I (modify f).
Proof. intros I f Hf W H. apply Hf, H. Qed.

Lemma preserves_when : forall I b m, preserves I m -> preserves I (when b m).
Proof. intros I b m Hm. destruct b; [exact Hm | apply preserves_ret]. Qed.

Lemma preserves_attempt : forall I A (m : Eff A), preserves I m -> preserves I (attempt m).
Proof.
  intros I A m Hm W H. unfold attempt. specialize (Hm W H). destruct (m W); exact Hm.
Qed.

Lemma preserves_emit : forall (I : World -> Prop) n,
  (forall W, I W -> I (set_emitted (emitted W ++ [n]) W)) -> preserves I (emit n).
Proof.
  intros I n Hf W H. cbv [emit bind get modify throw].
  destruct n; try (apply Hf, H). destruct (error_listeners W); [exact H | apply Hf, H].
Qed.

Lemma preserves_forEach_emit_error : forall (I : World -> Prop) errs,
  (forall n W, I W -> I (set_emitted (emitted W ++ [n]) W)) ->
  preserves I (forEach_emit_error errs).
Proof.
  intros I errs Hf. induction errs as [|e errs IH]; simpl.
  - apply preserves_ret.
  - apply preserves_bind; [apply preserves_emit, Hf | intros _; exact IH].
Qed.

(** Unfold the methods down to the monadic primitives, keeping the two
    fallback-timer methods, [watch_end] and the loops folded. *)
Ltac unfold_methods :=
  cbv [modify_this
       setImmediate setTimeout_deadline clearTimeout_deadline
       setTimeout_retry clearTimeout_retry
       new_promise settle resolve reject upd_watch consul_watch
       watch_on_change watch_on_error watch_on_end
       watch_removeListener_change watch_removeListener_error watch_removeListener_end
       watch_updateTime this_watchKvChange
       isWatchHealthy _setWatchHealthy _setWatchUnhealthy isInitialized
       _setInitialized _setUninitialized _isWatcherRegistered
       _emitFactoryErrors
       fallback_tick copy_consul_headers _registerWatcherAndWaitForInitialKvData
       firstChange start start_then _retryStartService _retryStartService_resume
       _onWatcherChange _onWatcherError _onWatcherEnd hand_over run_reaction
       firstError deadline_elapsed stop run_microtasks run_immediate].

(** Walk through a monadic term; [frame] closes the goals left by the
    state updates, [known] the calls that stay folded. *)
Ltac pres_step frame known :=
  lazymatch goal with
  | |- preserves _ (ret _) => apply preserves_ret
  | |- preserves _ get => apply preserves_get
  | |- preserves _ (throw _) => apply preserves_throw
  | |- preserves _ (bind _ _) => apply preserves_bind; [|intros ?]
  | |- preserves _ (when _ _) => apply preserves_when
  | |- preserves _ (attempt _) => apply preserves_attempt
  | |- preserves _ (modify _) => apply preserves_modify; frame
  | |- preserves _ (emit _) => apply preserves_emit; frame
  | |- preserves _ (match ?x with _ => _ end) => destruct x
  | |- preserves _ (let _ := _ in _) => cbv zeta
  | |- preserves _ _ => known
  end.

Ltac pres_walk frame known := repeat (pres_step frame known).

Ltac frame_fb := intros ? ?; assumption.

Lemma fb_unset : preserves fallback_timer_tracked _unsetFallbackToWatchHealthy.
Proof.
  intros W H. open_world W. unfold fallback_timer_tracked in *. exec.
  destruct fb as [id|]; exec.
  - cbn in H. destruct H as [b ->]. cbn. now rewrite Nat.eqb_refl.
  - exact H.
Qed.

Lemma fb_set : preserves fallback_timer_tracked _setFallbackToWatchHealthy.
Proof.
  intros W H. open_world W. unfold fallback_timer_tracked in *. exec.
  destruct fb as [id|]; exec; destruct wk; exec; cbn in H.
  - destruct H as [b ->]. cbn. rewrite Nat.eqb_refl. cbn. eauto.
  - destruct H as [b ->]. cbn. now rewrite Nat.eqb_refl.
  - rewrite H. cbn. eauto.
  - exact H.
Qed.

Ltac known_fb0 := first [apply fb_unset | apply fb_set].
Ltac fb_straight := unfold_methods; pres_walk frame_fb known_fb0.

Lemma fb_onWatcherEnd : preserves fallback_timer_tracked _onWatcherEnd.
Proof. fb_straight. Qed.

Lemma fb_call_end_listeners : forall ls,
  preserves fallback_timer_tracked (call_end_listeners ls).
Proof.
  induction ls as [|[] ls IH]; simpl.
  - apply preserves_ret.
  - apply preserves_bind; [apply fb_onWatcherEnd | intros _; exact IH].
Qed.

Lemma fb_watch_end : forall w, preserves fallback_timer_tracked (watch_end w).
Proof.
  intros w. unfold watch_end.
  pres_walk frame_fb ltac:(first [known_fb0 | apply fb_call_end_listeners]).
  unfold_methods. pres_walk frame_fb known_fb0.
Qed.

Ltac known_fb := first [known_fb0 | apply fb_watch_end].
Ltac fb_auto := unfold_methods; pres_walk frame_fb known_fb.

Lemma fb_run_reactions : forall rs,
  preserves fallback_timer_tracked (run_reactions rs).
Proof.
  induction rs as [|r rs IH]; simpl.
  - apply preserves_ret.
  - apply preserves_bind; [fb_auto | intros _; exact IH].
Qed.

Lemma fb_call_change_listeners : forall w ls data response,
  preserves fallback_timer_tracked (call_change_listeners JSON_parse w ls data response).
Proof.
  intros w ls data response. induction ls as [|l ls IH]; simpl.
  - apply preserves_ret.
  - apply preserves_bind; [destruct l; fb_auto | intros _; exact IH].
Qed.

Lemma fb_call_error_listeners : forall w ls err,
  preserves fallback_timer_tracked (call_error_listeners w ls err).
Proof.
  intros w ls err. induction ls as [|l ls IH]; simpl.
  - apply preserves_ret.
  - apply preserves_bind; [destruct l; fb_auto | intros _; exact IH].
Qed.

Lemma fb_forEach_emit_error : forall errs,
  preserves fallback_timer_tracked (forEach_emit_error errs).
Proof. intros errs. apply preserves_forEach_emit_error. intros n. frame_fb. Qed.

Lemma fb_turn : forall ev W W',
  fallback_timer_tracked W -> turn JSON_parse ev W = Some (Returned tt W') ->
  fallback_timer_tracked W'.
Proof.
  intros ev W W' H Ht. unfold turn in Ht.
  destruct (callback JSON_parse ev W) as [m|] eqn:Hc; [|discriminate].
  assert (Hm : preserves fallback_timer_tracked (m ;; run_microtasks)).
  { apply preserves_bind.
    - destruct ev; simpl in Hc;
        repeat match type of Hc with
               | (if ?b then _ else _) = _ => destruct b
               | match ?x with _ => _ end = _ => destruct x
               end;
        try discriminate; injection Hc as <-;
        pres_walk frame_fb ltac:(first [known_fb | apply fb_call_change_listeners
                                        | apply fb_call_error_listeners
                                        | apply fb_forEach_emit_error]);
        fb_auto;
        pres_walk frame_fb ltac:(first [known_fb | apply fb_forEach_emit_error]).
    - intros _. unfold run_microtasks.
      pres_walk frame_fb ltac:(apply fb_run_reactions). }
  specialize (Hm W H). injection Ht as Ht. rewrite Ht in Hm. exact Hm.
Qed.

Lemma reachable_fallback_timer_tracked : forall W,
  reachable JSON_parse W -> fallback_timer_tracked W.
Proof.
  induction 1 as [timeoutMsec json | W ev W' _ IH Ht].
  - reflexivity.
  - eapply fb_turn; eauto.
Qed.

(** * The session *)
Lemma find_call_app : forall c l1 l2,
  find_call c (l1 ++ l2) =
  match find_call c l1 with Some who => Some who | None => find_call c l2 end.
Proof.
  induction l1 as [|[c' who] l1 IH]; intros l2; simpl; [reflexivity|].
  destruct (Nat.eqb c' c); [reflexivity | apply IH].
Qed.

Lemma find_call_remove_key : forall c d l,
  find_call c (remove_key d l) = if Nat.eqb c d then None else find_call c l.
Proof.
  induction l as [|[c' who] l IH]; simpl.
  - now destruct (Nat.eqb c d).
  - destruct (Nat.eqb c' d) eqn:E1; simpl.
    + rewrite IH. apply Nat.eqb_eq in E1. subst c'.
      destruct (Nat.eqb c d) eqn:E2; [reflexivity|].
      rewrite Nat.eqb_sym, E2. reflexivity.
    + rewrite IH. destruct (Nat.eqb c' c) eqn:E2; [|reflexivity].
      apply Nat.eqb_eq in E2. subst c'. now rewrite E1.
Qed.

Lemma session_closed_handler_ok : forall W, session_closed W -> handler_ok W.
Proof.
  intros W (Hf & Hi & Hc). repeat split.
  - exact Hc.
  - intros H. congruence.
  - rewrite Hf in H. discriminate.
  - rewrite Hf in H. discriminate.
Qed.

Lemma session_closed_uninit_ok : forall W, session_closed W -> uninit_ok W.
Proof.
  intros W H. split; [apply H | now apply session_closed_handler_ok].
Qed.

Lemma calls_fresh_push : forall cs nc (who : Caller),
  (forall c, find_call c cs <> None -> c < nc) ->
  forall c, find_call c (cs ++ [(nc, who)]) <> None -> c < S nc.
Proof.
  intros cs nc who Hc c Hf. rewrite find_call_app in Hf.
  destruct (find_call c cs) eqn:E.
  - assert (c < nc) by (apply Hc; congruence). lia.
  - cbn in Hf. destruct (Nat.eqb nc c) eqn:E2; [apply Nat.eqb_eq in E2; lia | congruence].
Qed.

Lemma find_call_pushed : forall cs nc (who : Caller),
  find_call nc (cs ++ [(nc, who)]) <> None.
Proof.
  intros cs nc who. rewrite find_call_app.
  destruct (find_call nc cs); [discriminate|]. cbn. rewrite Nat.eqb_refl. discriminate.
Qed.

Ltac unfold_session :=
  unfold uninit_ok, session_invariant, handler_ok, drain_ok, session_closed in *;
  unfold session_ok in *;
  unfold calls_fresh, watch_alive, end_attached, first_error_waiting in *;
  cbn [this watches next_watch calls next_call deadlines intervals retries
       next_timer immediates microtasks emitted settled error_listeners
       _timeoutMsec _json _initialized _isWatchHealthy _consulKvData _consulHeaders
       _watchKvChange _fallbackToWatchHealthyInterval _retryTimer] in *.

Lemma onWatcherEnd_uninit_ok : hoare calls_fresh _onWatcherEnd (fun _ => uninit_ok).
Proof.
  intros W Hc. open_world W. unfold_session. exec.
  destruct fb, hl; exec; unfold_session;
    (split; [reflexivity|]); (split; [|split]);
    try (now apply calls_fresh_push); try discriminate;
    intros w Hw; injection Hw as Hw; subst w; rewrite !Nat.eqb_refl; cbn;
    (split; [reflexivity|]); right; left; exists nc; (split; [reflexivity|]);
    apply find_call_pushed.
Qed.

Lemma handler_ok_pre_core : forall W, handler_ok W -> pre_core W.
Proof.
  intros W (Hc & Hi & Hw). split; [exact Hc|].
  intros H. destruct (Hi H) as (w & Hf & He). exists w. repeat split; try assumption.
  apply (Hw w Hf).
Qed.

Lemma uninit_ok_calls_fresh : forall W, uninit_ok W -> calls_fresh W.
Proof. intros W [_ H]. apply H. Qed.

Lemma call_end_listeners_spec : forall ls W,
  calls_fresh W ->
  match call_end_listeners ls W with
  | Returned _ W' => (ls = [] /\ W' = W) \/ (ls <> [] /\ uninit_ok W')
  | Thrown _ _ => True
  end.
Proof.
  induction ls as [|[] ls IH]; intros W Hc; simpl.
  - now left.
  - unfold bind. pose proof (onWatcherEnd_uninit_ok W Hc) as H1.
    destruct (_onWatcherEnd W) as [u W1|]; [|exact I].
    specialize (IH W1 (uninit_ok_calls_fresh _ H1)).
    destruct (call_end_listeners ls W1) as [u2 W2|]; [|exact I].
    right. split; [discriminate|]. destruct IH as [[_ ->]|[_ H2]]; assumption.
Qed.

Lemma watch_end_spec : forall w W,
  calls_fresh W ->
  match watch_end w W with
  | Returned _ W' =>
      (ended (watches W w) = true /\ W' = W) \/
      (ended (watches W w) = false /\ end_l (watches W w) = [] /\
       W' = set_watches (fun i => if Nat.eqb i w then set_ended true (watches W i)
                                  else watches W i) W) \/
      (ended (watches W w) = false /\ end_l (watches W w) <> [] /\ uninit_ok W')
  | Thrown _ _ => True
  end.
Proof.
  intros w W Hc. cbv [watch_end bind get ret upd_watch modify].
  destruct (ended (watches W w)) eqn:He; [now left|].
  match goal with |- context [call_end_listeners ?ls ?W1] =>
    pose proof (call_end_listeners_spec ls W1 Hc) as H;
    destruct (call_end_listeners ls W1) as [u W2|]; [|exact I]
  end.
  destruct H as [[E ->]|[E H]]; right; [left | right]; auto.
Qed.

(** ** Rules for [hoare] *)
Lemma hoare_ret : forall A (a : A) (P : World -> Prop) (Q : A -> World -> Prop),
  (forall W, P W -> Q a W) -> hoare P (ret a) Q.
Proof. intros A a P Q H W HP. apply H, HP. Qed.

Lemma hoare_bind : forall A B (m : Eff A) (k : A -> Eff B) P R Q,
  hoare P m R -> (forall a, hoare (R a) (k a) Q) -> hoare P (bind m k) Q.
Proof.
  intros A B m k P R Q Hm Hk W HP. unfold bind. specialize (Hm W HP).
  destruct (m W) as [a W'|]; [apply Hk, Hm | exact I].
Qed.

Lemma hoare_conseq : forall A (m : Eff A) (P P' : World -> Prop) (Q Q' : A -> World -> Prop),
  hoare P' m Q' -> (forall W, P W -> P' W) -> (forall a W, Q' a W -> Q a W) ->
  hoare P m Q.
Proof.
  intros A m P P' Q Q' Hm HP HQ W H. specialize (Hm W (HP W H)).
  destruct (m W); [apply HQ, Hm | exact I].
Qed.

Lemma hoare_get : forall P, hoare P get (fun W0 W => P W /\ W0 = W).
Proof. intros P W H. split; [exact H | reflexivity]. Qed.

Lemma hoare_modify : forall (P Q : World -> Prop) f,
  (forall W, P W -> Q (f W)) -> hoare P (modify f) (fun _ => Q).
Proof. intros P Q f H W HP. apply H, HP. Qed.

Lemma hoare_throw : forall A e P Q, hoare P (@throw A e) Q.
Proof. intros A e P Q W H. exact I. Qed.

Lemma hoare_of_preserves : forall A (m : Eff A) I,
  preserves I m -> hoare I m (fun _ => I).
Proof. intros A m Inv H W HI. specialize (H W HI). destruct (m W); [exact H | exact I]. Qed.

Lemma hoare_this_watchKvChange : forall P,
  hoare P this_watchKvChange (fun w W => P W /\ _watchKvChange (this W) = Some w).
Proof.
  intros P W H. cbv [this_watchKvChange bind get ret throw].
  destruct (_watchKvChange (this W)) eqn:E; [split; [exact H | exact E] | exact I].
Qed.

Lemma hoare_pre : forall A (m : Eff A) (P : World -> Prop) Q,
  (forall W, P W -> hoare (fun W' => W' = W) m Q) -> hoare P m Q.
Proof. intros A m P Q H W HP. apply (H W HP W eq_refl). Qed.

(** ** Giving up a session *)
Lemma watch_end_uninitialized : forall w,
  hoare (fun W => pre_core W /\ _watchKvChange (this W) = Some w)
        (watch_end w)
        (fun _ W => _initialized (this W) = false /\ calls_fresh W).
Proof.
  intros w W [[Hc Hi] Hf].
  pose proof (watch_end_spec w W Hc) as H.
  destruct (watch_end w W) as [u W1|]; [|exact I].
  assert (Hcase : ended (watches W w) = true \/ end_l (watches W w) = [] ->
                  _initialized (this W) = false).
  { intros Hcase. destruct (_initialized (this W)); [|reflexivity].
    destruct (Hi eq_refl) as (w' & E & He & Ha).
    assert (w' = w) by congruence. subst w'.
    unfold end_attached, watch_alive in *. destruct Hcase; congruence. }
  destruct H as [[He ->]|[(He & Hl & ->)|(He & Hl & Hu & Hh)]].
  - split; [apply Hcase; now left | exact Hc].
  - split; [apply Hcase; now right | exact Hc].
  - split; [exact Hu | apply Hh].
Qed.

Lemma hoare_forget_session :
  hoare (fun W => _initialized (this W) = false /\ calls_fresh W)
        (modify_this (set_watchKvChange None))
        (fun _ => session_closed).
Proof.
  apply hoare_modify. intros W [Hi Hc]. repeat split; assumption.
Qed.

Lemma settle_closed : forall c job, preserves session_closed (settle c job).
Proof.
  intros c job W (Hf & Hi & Hc). open_world W. exec.
  destruct (find_call c cs) eqn:E; exec; repeat split; try assumption.
  intros c' H. cbn in *. rewrite find_call_remove_key in H.
  destruct (Nat.eqb c' c); [congruence | now apply Hc].
Qed.

Lemma pre_core_set_watches : forall ws' W,
  (forall i, end_l (ws' i) = end_l (watches W i) /\ ended (ws' i) = ended (watches W i)) ->
  pre_core W -> pre_core (set_watches ws' W).
Proof.
  intros ws' W Hf [Hc Hi]. split; [exact Hc|].
  intros H. destruct (Hi H) as (w' & E & He & Ha). exists w'.
  unfold end_attached, watch_alive in *. cbn.
  destruct (Hf w') as [-> ->]. auto.
Qed.

Ltac same_watch_fields :=
  let i := fresh "i" in
  intros i; cbn;
  match goal with |- context [Nat.eqb i ?w] => destruct (Nat.eqb i w) end;
  repeat split; reflexivity.

Ltac frame_conv := intros ? ?; assumption.

Lemma firstError_closed : forall c err,
  hoare pre_core (firstError c err) (fun _ => session_closed).
Proof.
  intros c err. unfold firstError.
  eapply hoare_bind; [apply hoare_this_watchKvChange|]. intros w1. cbv beta.
  eapply hoare_bind.
  { apply hoare_modify with (Q := pre_core). intros W [H _].
    apply pre_core_set_watches; [same_watch_fields | exact H]. }
  intros ?; cbv beta.
  eapply hoare_bind; [apply hoare_this_watchKvChange|]. intros w2. cbv beta.
  eapply hoare_bind; [apply watch_end_uninitialized|]. intros ?; cbv beta.
  eapply hoare_bind; [apply hoare_forget_session|]. intros ?; cbv beta.
  eapply hoare_bind.
  { apply hoare_modify with (Q := session_closed). frame_conv. }
  intros ?; cbv beta. apply hoare_of_preserves, settle_closed.
Qed.

Lemma deadline_elapsed_closed : forall c,
  hoare pre_core (deadline_elapsed c) (fun _ => session_closed).
Proof.
  intros c. unfold deadline_elapsed.
  eapply hoare_bind; [apply hoare_this_watchKvChange|]. intros w1. cbv beta.
  eapply hoare_bind.
  { apply hoare_modify with (Q := pre_core). intros W [H _].
    apply pre_core_set_watches; [same_watch_fields | exact H]. }
  intros ?; cbv beta.
  eapply hoare_bind; [apply hoare_this_watchKvChange|]. intros w2. cbv beta.
  eapply hoare_bind.
  { apply hoare_modify with (Q := pre_core). intros W [H _].
    apply pre_core_set_watches; [same_watch_fields | exact H]. }
  intros ?; cbv beta.
  eapply hoare_bind; [apply hoare_this_watchKvChange|]. intros w3. cbv beta.
  eapply hoare_bind; [apply watch_end_uninitialized|]. intros ?; cbv beta.
  eapply hoare_bind; [apply hoare_forget_session|]. intros ?; cbv beta.
  apply hoare_of_preserves, settle_closed.
Qed.

(** ** What the session invariant does not read *)
Lemma session_ok_set_watches : forall rs ws' W,
  (forall i, end_l (ws' i) = end_l (watches W i) /\ ended (ws' i) = ended (watches W i) /\
             error_l (ws' i) = error_l (watches W i)) ->
  session_ok rs W -> session_ok rs (set_watches ws' W).
Proof.
  intros rs ws' W E (Hc & Hi & Hw).
  split; [exact Hc|]. split.
  - intros H. destruct (Hi H) as (w' & E1 & He). exists w'. split; [exact E1|].
    unfold end_attached in *. cbn. now rewrite (proj1 (E w')).
  - intros w' H. destruct (Hw w' H) as [Ha Hd].
    unfold watch_alive, end_attached, first_error_waiting in *. cbn.
    destruct (E w') as (E1 & E2 & E3). rewrite E1, E2, E3. split; assumption.
Qed.

Lemma handler_ok_unset_fb : preserves handler_ok _unsetFallbackToWatchHealthy.
Proof.
  cbv [_unsetFallbackToWatchHealthy modify_this clearInterval].
  pres_walk frame_conv idtac.
Qed.

Lemma handler_ok_set_fb : preserves handler_ok _setFallbackToWatchHealthy.
Proof.
  cbv [_setFallbackToWatchHealthy setInterval_fallback].
  unfold_methods. pres_walk frame_conv ltac:(apply handler_ok_unset_fb).
Qed.

Ltac known_session := first [apply handler_ok_unset_fb | apply handler_ok_set_fb].

Lemma handler_ok_onWatcherChange : forall data response,
  preserves handler_ok (_onWatcherChange JSON_parse data response).
Proof. intros. unfold_methods. pres_walk frame_conv known_session. Qed.

Lemma handler_ok_onWatcherError : forall err, preserves handler_ok (_onWatcherError err).
Proof. intros. unfold_methods. pres_walk frame_conv known_session. Qed.

Lemma handler_ok_fallback_tick : forall b, preserves handler_ok (fallback_tick b).
Proof. intros. unfold_methods. pres_walk frame_conv known_session. Qed.

Lemma handler_ok_run_immediate : forall i, preserves handler_ok (run_immediate i).
Proof.
  intros [errs|err]; simpl.
  - apply preserves_forEach_emit_error. intros n. frame_conv.
  - unfold_methods. pres_walk frame_conv idtac.
Qed.

(** ** [start()] *)
Lemma find_call_fresh : forall W, calls_fresh W -> find_call (next_call W) (calls W) = None.
Proof.
  intros W Hc. destruct (find_call (next_call W) (calls W)) eqn:E; [|reflexivity].
  assert (next_call W < next_call W) by (apply Hc; congruence). lia.
Qed.

Lemma has_fulfilled_app : forall rs r, has_fulfilled rs -> has_fulfilled (rs ++ [r]).
Proof.
  intros rs r (c & who & kv & H). exists c, who, kv. apply in_or_app. now left.
Qed.

Lemma has_fulfilled_app_any : forall rs c who kv,
  has_fulfilled (rs ++ [Fulfilled c who kv]).
Proof.
  intros rs c who kv. exists c, who, kv. apply in_or_app. right. now left.
Qed.

Lemma start_handler_ok : forall who, hoare handler_ok (start who) (fun _ => handler_ok).
Proof.
  intros who W H. destruct H as (Hc & Hi & Hw). open_world W.
  unfold calls_fresh, end_attached, watch_alive, first_error_waiting in *. cbn in *.
  exec. destruct wk as [w|]; exec.
  - rewrite find_call_app.
    assert (Hnc : find_call nc cs = None).
    { destruct (find_call nc cs) eqn:E; [|reflexivity].
      assert (nc < nc) by (apply Hc; congruence). lia. }
    rewrite Hnc. cbn. rewrite Nat.eqb_refl. exec.
    unfold handler_ok, session_ok, calls_fresh, end_attached, watch_alive,
      first_error_waiting. cbn.
    assert (Hkeep : forall c, find_call c cs <> None ->
                    find_call c (remove_key nc (cs ++ [(nc, who)])) <> None).
    { intros c Hf. rewrite find_call_remove_key, find_call_app.
      assert (c < nc) by now apply Hc.
      destruct (Nat.eqb c nc) eqn:E; [apply Nat.eqb_eq in E; lia|].
      destruct (find_call c cs); [discriminate | congruence]. }
    split; [|split].
    + intros c Hf. rewrite find_call_remove_key in Hf.
      destruct (Nat.eqb c nc) eqn:E; [congruence|].
      eapply calls_fresh_push; eauto.
    + exact Hi.
    + intros w' E. destruct (Hw w' E) as [Ha Hd]. split; [exact Ha|].
      destruct Hd as [Hd|[(c & Hh & Hp)|Hd]]; [now left | right; left | right; right].
      * exists c. split; [exact Hh | now apply Hkeep].
      * now apply has_fulfilled_app.
  - unfold handler_ok, session_ok, calls_fresh, end_attached, watch_alive,
      first_error_waiting. cbn.
    split; [|split].
    + now apply calls_fresh_push.
    + intros E. destruct (Hi E) as (w & ? & _). discriminate.
    + intros w E. injection E as <-. rewrite !Nat.eqb_refl. cbn.
      split; [reflexivity|]. right. left. exists nc. split; [reflexivity|].
      rewrite find_call_app.
      destruct (find_call nc cs); [discriminate|]. cbn. rewrite Nat.eqb_refl. discriminate.
Qed.

(** ** [stop()] *)
Lemma watch_end_calls_fresh : forall w,
  hoare calls_fresh (watch_end w) (fun _ => calls_fresh).
Proof.
  intros w W Hc. pose proof (watch_end_spec w W Hc) as H.
  destruct (watch_end w W) as [u W1|]; [|exact I].
  destruct H as [[He ->]|[(He & Hl & ->)|(He & Hl & Hu & Hh)]];
    [exact Hc | exact Hc | apply Hh].
Qed.

Lemma stop_handler_ok : hoare handler_ok stop (fun _ => handler_ok).
Proof.
  unfold stop.
  eapply hoare_bind; [apply hoare_get|]. intros W0. cbv beta.
  eapply hoare_bind with (R := fun _ => handler_ok).
  { eapply hoare_conseq with (P' := handler_ok) (Q' := fun _ => handler_ok);
      [| intros W [H _]; exact H | auto].
    apply hoare_of_preserves. unfold_methods. pres_walk frame_conv idtac. }
  intros ?; cbv beta.
  eapply hoare_bind with (R := fun reg W => handler_ok W).
  { apply hoare_of_preserves. unfold_methods. pres_walk frame_conv idtac. }
  intros registered. destruct registered; cbn [negb].
  2: { apply hoare_ret. auto. }
  eapply hoare_bind; [apply hoare_this_watchKvChange|]. intros w1. cbv beta.
  eapply hoare_bind with (R := fun _ => calls_fresh).
  { apply hoare_modify. intros W [H _]. apply H. }
  intros ?; cbv beta.
  eapply hoare_bind; [apply hoare_this_watchKvChange|]. intros w2. cbv beta.
  eapply hoare_bind with (R := fun _ => calls_fresh).
  { eapply hoare_conseq; [apply watch_end_calls_fresh | intros W [H _]; exact H | auto]. }
  intros ?; cbv beta.
  eapply hoare_conseq with (P' := calls_fresh) (Q' := fun _ => session_closed);
    [| auto | intros _ W; apply session_closed_handler_ok].
  intros W Hc. open_world W. exec. destruct fb; exec; repeat split; exact Hc.
Qed.

(** ** The first change *)
Lemma remove_first_snoc_other : forall A (eqb : A -> A -> bool) y l x,
  eqb x y = false -> remove_first eqb y (l ++ [x]) = remove_first eqb y l ++ [x].
Proof.
  induction l as [|z l IH]; intros x Hx; simpl.
  - now rewrite Hx.
  - destruct (eqb z y); [reflexivity|]. now rewrite IH.
Qed.

Lemma hd_error_remove_last : forall A (eqb : A -> A -> bool) y l x,
  hd_error l = Some x -> eqb x y = false ->
  hd_error (remove_last eqb y l) = Some x.
Proof.
  intros A eqb y l x Hl Hx. destruct l as [|z l]; simpl in Hl; [discriminate|].
  injection Hl as ->. unfold remove_last. simpl.
  rewrite remove_first_snoc_other by assumption.
  rewrite rev_app_distr. reflexivity.
Qed.

Lemma firstChange_handler_ok : forall c data response,
  hoare handler_ok (firstChange JSON_parse c data response) (fun _ => handler_ok).
Proof.
  intros c data response W H. open_world W. unfold_session.
  destruct H as (Hc & Hi & Hw). exec.
  destruct wk as [w|]; exec; [|exact I].
  destruct (factory_errors (buildConsulKvData JSON_parse data js)); exec;
    destruct (find_call c cs) eqn:Ec; exec; unfold_session.
  all: split; [|split].
  all: try (intros c' Hf; rewrite find_call_remove_key in Hf;
            destruct (Nat.eqb c' c); [congruence | now apply Hc]).
  all: try exact Hc.
  all: try (intros E; destruct (Hi E) as (w' & E1 & He); exists w'; split; [exact E1|];
            destruct (Nat.eqb w' w); exact He).
  all: intros w' E; destruct (Hw w' E) as [Ha Hd]; injection E as E; subst w';
       rewrite Nat.eqb_refl; cbn; split; [exact Ha|].
  all: try (right; right; apply has_fulfilled_app_any; fail).
  all: destruct Hd as [Hd|[(c0 & Hh & Hp)|Hd]]; [now left | right; left | now (right; right)].
  all: exists c0; split; [|exact Hp].
  all: apply hd_error_remove_last; [exact Hh|].
  all: cbn; destruct (Nat.eqb c0 c) eqn:E0; [|reflexivity].
  all: apply Nat.eqb_eq in E0; subst c0; congruence.
Qed.

(** ** The promise jobs *)
Lemma run_reaction_drain_ok : forall r rs,
  hoare (drain_ok (r :: rs)) (run_reaction r) (fun _ => drain_ok rs).
Proof.
  intros r rs W H. open_world W. unfold_session.
  destruct H as ((Hc & Hi & Hw) & Hm). subst mts.
  destruct r as [c who kv | c who e]; exec.
  - destruct wk as [w|]; exec; destruct who; exec; unfold_session.
    all: split; [|reflexivity]; split; [exact Hc|]; split.
    all: try (intros E; destruct (Hi E) as (w' & E1 & _); discriminate).
    all: try (intros w' E; discriminate).
    all: try (intros _; exists w; split; [reflexivity|]; rewrite !Nat.eqb_refl; cbn;
              destruct (end_l (ws w)); discriminate).
    all: intros w' E; injection E as E; subst w'; rewrite !Nat.eqb_refl; cbn;
         destruct (Hw w eq_refl) as [Ha _]; split; [exact Ha|]; left;
         destruct (end_l (ws w)); discriminate.
  - destruct who; exec; unfold_session.
    all: split; [|reflexivity]; split; [exact Hc|]; split; [exact Hi|].
    all: intros w E; destruct (Hw w E) as [Ha Hd]; split; [exact Ha|].
    all: destruct Hd as [Hd|[Hd|(c0 & who0 & kv0 & [Hd|Hd])]];
         [now left | now (right; left) | discriminate | right; right; now exists c0, who0, kv0].
Qed.

Lemma run_reactions_drain_ok : forall rs,
  hoare (drain_ok rs) (run_reactions rs) (fun _ => drain_ok []).
Proof.
  induction rs as [|r rs IH]; simpl.
  - apply hoare_ret. auto.
  - eapply hoare_bind; [apply run_reaction_drain_ok | intros ?; exact IH].
Qed.

Lemma run_microtasks_invariant :
  hoare handler_ok run_microtasks (fun _ => session_invariant).
Proof.
  intros W H. unfold run_microtasks. cbv [bind get modify].
  apply (run_reactions_drain_ok (microtasks W)). split; [exact H | reflexivity].
Qed.

(** ** The listeners of a watch *)
Lemma handler_ok_set_watches : forall ws' W,
  (forall i, end_l (ws' i) = end_l (watches W i) /\ ended (ws' i) = ended (watches W i) /\
             error_l (ws' i) = error_l (watches W i)) ->
  handler_ok W -> handler_ok (set_watches ws' W).
Proof. intros ws' W E H. now apply session_ok_set_watches. Qed.

Lemma call_change_listeners_handler_ok : forall w ls data response,
  hoare handler_ok (call_change_listeners JSON_parse w ls data response)
        (fun _ => handler_ok).
Proof.
  intros w ls data response. induction ls as [|l ls IH]; simpl.
  - apply hoare_ret. auto.
  - eapply hoare_bind; [|intros ?; exact IH].
    destruct l as [c|].
    + eapply hoare_bind; [|intros ?; apply firstChange_handler_ok].
      apply hoare_modify. intros W H.
      apply handler_ok_set_watches; [same_watch_fields | exact H].
    + apply hoare_of_preserves, handler_ok_onWatcherChange.
Qed.

Lemma end_attached_onWatcherError : forall w err,
  preserves (fun W => handler_ok W /\ (_watchKvChange (this W) = Some w -> end_attached W w))
            (_onWatcherError err).
Proof.
  intros w err.
  cbv [_onWatcherError _unsetFallbackToWatchHealthy _setFallbackToWatchHealthy
       setInterval_fallback clearInterval].
  unfold_methods. pres_walk frame_conv idtac.
Qed.

Lemma call_error_listeners_ok : forall w err ls,
  hoare (error_emit_ok w ls) (call_error_listeners w ls err)
        (fun _ W => handler_ok W /\ (_watchKvChange (this W) = Some w -> end_attached W w)).
Proof.
  intros w err. induction ls as [|l ls IH]; simpl.
  - apply hoare_ret. intros W [H1 H2]. split; [exact H1|].
    intros E. destruct (H2 E) as [H|[c H]]; [exact H | discriminate].
  - eapply hoare_bind; [|intros ?; exact IH].
    destruct l as [c|].
    + eapply hoare_conseq with (Q' := fun _ => session_closed).
      * eapply hoare_bind; [|intros ?; apply firstError_closed].
        apply hoare_modify with (Q := pre_core). intros W H. exact H.
      * intros W [H _]. apply handler_ok_pre_core in H.
        apply pre_core_set_watches; [same_watch_fields | exact H].
      * intros _ W H. split; [now apply session_closed_handler_ok|].
        intros E. destruct H as [H _]. congruence.
    + eapply hoare_conseq.
      * apply hoare_of_preserves, (end_attached_onWatcherError w err).
      * intros W [H1 H2]. split; [exact H1|]. intros E.
        destruct (H2 E) as [H|[c H]]; [exact H | discriminate].
      * intros _ W [H1 H2]. split; [exact H1|]. intros E. left. now apply H2.
Qed.

Lemma watch_end_when_attached : forall w,
  hoare (fun W => handler_ok W /\ (_watchKvChange (this W) = Some w -> end_attached W w))
        (watch_end w) (fun _ => handler_ok).
Proof.
  intros w W [H Hw]. pose proof (watch_end_spec w W (proj1 H)) as Hs.
  destruct (watch_end w W) as [u W1|]; [|exact I].
  destruct Hs as [[He ->]|[(He & Hl & ->)|(He & Hl & Hu & Hh)]]; [exact H| |exact Hh].
  destruct H as (Hc & Hi & Hf). split; [exact Hc|]. split.
  - intros E. destruct (Hi E) as (w' & E1 & Ha). exists w'. split; [exact E1|].
    unfold end_attached in *. cbn. destruct (Nat.eqb w' w); exact Ha.
  - intros w' E. destruct (Hf w' E) as [Ha Hd].
    destruct (Nat.eqb w' w) eqn:Ew.
    + apply Nat.eqb_eq in Ew. subst w'. specialize (Hw E).
      unfold end_attached in Hw. congruence.
    + unfold watch_alive, end_attached, first_error_waiting in *. cbn.
      rewrite Ew. split; assumption.
Qed.

(** ** One turn of the event loop *)
Lemma session_invariant_handler_ok : forall W, session_invariant W -> handler_ok W.
Proof. intros W [H Hm]. unfold handler_ok. rewrite Hm. exact H. Qed.

Lemma callback_handler_ok : forall ev W m,
  session_invariant W -> callback JSON_parse ev W = Some m ->
  hoare (fun W' => W' = W) m (fun _ => handler_ok).
Proof.
  intros ev W m Hinv Hcb. pose proof (session_invariant_handler_ok W Hinv) as Hok.
  assert (Hfrom : forall (m' : Eff unit),
            hoare handler_ok m' (fun _ => handler_ok) ->
            hoare (fun W' => W' = W) m' (fun _ => handler_ok)).
  { intros m' Hm'. eapply hoare_conseq; [exact Hm' | intros ? ->; exact Hok | auto]. }
  destruct ev as [ | | w now data response | w now | w err fatal | c | id | id | | | ];
    simpl in Hcb.
  - injection Hcb as <-. apply Hfrom.
    eapply hoare_bind; [apply start_handler_ok | intros ?; apply hoare_ret; auto].
  - injection Hcb as <-. apply Hfrom, stop_handler_ok.
  - destruct (watch_is_live W w); [|discriminate]. injection Hcb as <-. apply Hfrom.
    eapply hoare_bind.
    { apply hoare_modify with (Q := handler_ok). intros W0 H.
      apply handler_ok_set_watches; [same_watch_fields | exact H]. }
    intros ?. eapply hoare_bind; [apply hoare_get|]. intros W1.
    eapply hoare_conseq; [apply call_change_listeners_handler_ok | intros ? [H _]; exact H | auto].
  - destruct (watch_is_live W w); [|discriminate]. injection Hcb as <-. apply Hfrom.
    apply hoare_modify. intros W0 H.
    apply handler_ok_set_watches; [same_watch_fields | exact H].
  - destruct (watch_is_live W w); [|discriminate]. injection Hcb as <-.
    eapply hoare_bind; [apply hoare_get|]. intros W1. cbv beta.
    eapply hoare_bind.
    { eapply hoare_conseq; [apply call_error_listeners_ok | | intros ? ? H; exact H].
      intros W0 [-> ->]. split; [exact Hok|]. intros E.
      destruct Hinv as [(_ & _ & Hf) _]. destruct (Hf w E) as [_ [H|[(c & H & _)|H]]].
      - now left.
      - right. now exists c.
      - destruct H as (? & ? & ? & []). }
    intros ?. cbv beta. destruct fatal; simpl.
    + apply watch_end_when_attached.
    + apply hoare_ret. intros ? [H _]. exact H.
  - destruct (lookup_key c (deadlines W)); [|discriminate]. injection Hcb as <-. apply Hfrom.
    eapply hoare_bind.
    { apply hoare_modify with (Q := pre_core). intros W0 H. now apply handler_ok_pre_core. }
    intros ?. eapply hoare_conseq; [apply deadline_elapsed_closed | auto |].
    intros ? W0. apply session_closed_handler_ok.
  - destruct (lookup_key id (intervals W)) as [[p b]|]; [|discriminate].
    injection Hcb as <-. apply Hfrom, hoare_of_preserves, handler_ok_fallback_tick.
  - destruct (lookup_key id (retries W)); [|discriminate]. injection Hcb as <-. apply Hfrom.
    eapply hoare_bind.
    { apply hoare_modify with (Q := handler_ok). frame_conv. }
    intros ?. unfold _retryStartService.
    eapply hoare_bind; [apply start_handler_ok | intros ?; apply hoare_ret; auto].
  - destruct (immediates W) as [|i rest]; [discriminate|]. injection Hcb as <-. apply Hfrom.
    eapply hoare_bind.
    { apply hoare_modify with (Q := handler_ok). frame_conv. }
    intros ?. apply hoare_of_preserves, handler_ok_run_immediate.
  - injection Hcb as <-. apply Hfrom.
    apply hoare_modify with (Q := handler_ok). frame_conv.
  - injection Hcb as <-. apply Hfrom.
    apply hoare_modify with (Q := handler_ok). frame_conv.
Qed.

Lemma turn_session_invariant : forall ev W W',
  session_invariant W -> turn JSON_parse ev W = Some (Returned tt W') ->
  session_invariant W'.
Proof.
  intros ev W W' Hinv Ht. unfold turn in Ht.
  destruct (callback JSON_parse ev W) as [m|] eqn:Hcb; [|discriminate].
  injection Ht as Ht.
  assert (H : hoare (fun W0 => W0 = W) (m ;; run_microtasks) (fun _ => session_invariant)).
  { eapply hoare_bind; [eapply callback_handler_ok; eauto|].
    intros ?. apply run_microtasks_invariant. }
  specialize (H W eq_refl). rewrite Ht in H. exact H.
Qed.

Lemma reachable_session_invariant : forall W,
  reachable JSON_parse W -> session_invariant W.
Proof.
  induction 1 as [timeoutMsec json | W ev W' _ IH Ht].
  - repeat split; cbn; try discriminate. intros c H. now destruct H.
  - eapply turn_session_invariant; eauto.
Qed.

(** C9.  Between two turns an initialized monitor holds a watch; that
    watch has not ended and [_onWatcherEnd] listens on it. *)
Theorem initialized_implies_session : forall W,
  reachable JSON_parse W ->
  _initialized (this W) = true ->
  exists w, _watchKvChange (this W) = Some w /\
            ended (watches W w) = false /\
            In OnWatcherEnd (end_l (watches W w)).
Proof.
  intros W Hr Hi. destruct (reachable_session_invariant W Hr) as [(_ & H2 & H3) _].
  destruct (H2 Hi) as (w & E & Ha). exists w. split; [exact E|].
  split; [apply (H3 w E)|].
  unfold end_attached in Ha. destruct (end_l (watches W w)) as [|[] l]; [congruence | now left].
Qed.

(** * Stopping, starting twice, the timers *)
Lemma onWatcherEnd_returns : forall W, exists W', _onWatcherEnd W = Returned tt W'.
Proof.
  intros W. open_world W. exec. destruct fb, hl; exec; eexists; reflexivity.
Qed.

Lemma call_end_listeners_returns : forall ls W,
  exists W', call_end_listeners ls W = Returned tt W'.
Proof.
  induction ls as [|[] ls IH]; intros W; simpl.
  - eexists; reflexivity.
  - unfold bind. destruct (onWatcherEnd_returns W) as [W1 ->]. apply IH.
Qed.

Lemma watch_end_returns : forall w W, exists W', watch_end w W = Returned tt W'.
Proof.
  intros w W. cbv [watch_end bind get ret upd_watch modify].
  destruct (ended (watches W w)); [eexists; reflexivity|].
  apply call_end_listeners_returns.
Qed.

Ltac frame_keeps :=
  let H := fresh in
  intros ? H; destruct H as (?&?&?&?&?&?&?&?); repeat split; cbn;
  try assumption; try (apply incl_appl; assumption).

Lemma end_keeps_refl : forall W, end_keeps W W.
Proof. intros W. repeat split. apply incl_refl. Qed.

Lemma end_keeps_onWatcherEnd : forall W0, preserves (end_keeps W0) _onWatcherEnd.
Proof.
  intros W0 W H. destruct H as (?&?&?&?&?&?&?&?). open_world W. exec.
  destruct fb, hl; exec; repeat split; cbn; try assumption; apply incl_appl; assumption.
Qed.

Lemma end_keeps_call_end_listeners : forall W0 ls,
  preserves (end_keeps W0) (call_end_listeners ls).
Proof.
  intros W0. induction ls as [|[] ls IH]; simpl.
  - apply preserves_ret.
  - apply preserves_bind; [apply end_keeps_onWatcherEnd | intros ?; exact IH].
Qed.

Lemma end_keeps_watch_end : forall W0 w, preserves (end_keeps W0) (watch_end w).
Proof.
  intros W0 w. unfold watch_end. unfold_methods.
  pres_walk frame_keeps ltac:(apply end_keeps_call_end_listeners).
Qed.

Lemma stop_spec : forall W,
  exists W',
    stop W = Returned tt W' /\
    _watchKvChange (this W') = None /\
    _retryTimer (this W') = None /\
    retries W' =
      match _retryTimer (this W) with
      | Some id => remove_key id (retries W)
      | None => retries W
      end /\
    incl (deadlines W) (deadlines W') /\
    _consulKvData (this W') = _consulKvData (this W) /\
    _consulHeaders (this W') = _consulHeaders (this W) /\
    settled W' = settled W /\
    immediates W' = immediates W /\
    microtasks W' = microtasks W /\
    match _watchKvChange (this W) with
    | Some w =>
        _initialized (this W') = false /\ _isWatchHealthy (this W') = false /\
        _fallbackToWatchHealthyInterval (this W') = None
    | None =>
        W' = set_this (set_retryTimer None (this W))
               (set_retries match _retryTimer (this W) with
                            | Some id => remove_key id (retries W)
                            | None => retries W
                            end W)
    end.
Proof.
  intros W. open_world W. cbv [stop]. exec.
  destruct wk as [w|].
  - destruct rt as [id|]; exec.
    all: match goal with |- context [watch_end ?w0 ?W1] =>
           destruct (watch_end_returns w0 W1) as [W2 E];
           pose proof (end_keeps_watch_end W1 w0 W1 (end_keeps_refl W1)) as K;
           rewrite E in K |- *
         end.
    all: destruct K as (K1 & K2 & K3 & K4 & K5 & K6 & K7 & K8);
         cbn in K1, K2, K3, K4, K5, K6, K7, K8.
    all: open_world W2; exec; destruct fb0; exec; eexists; (split; [reflexivity|]);
         cbn; subst; repeat split; try reflexivity; try assumption.
  - destruct rt as [id|]; exec; eexists; (split; [reflexivity|]); repeat split;
      apply incl_refl.
Qed.

Lemma lookup_key_in : forall A k (a : A) l, In (k, a) l -> lookup_key k l <> None.
Proof.
  induction l as [|[k' a'] l IH]; intros H; simpl in *; [contradiction|].
  destruct (Nat.eqb k' k) eqn:E; [discriminate|].
  destruct H as [H|H]; [|now apply IH].
  injection H as -> _. now rewrite Nat.eqb_refl in E.
Qed.

Lemma lookup_key_remove_key : forall A k (l : list (nat * A)),
  lookup_key k (remove_key k l) = None.
Proof.
  induction l as [|[k' a'] l IH]; simpl; [reflexivity|].
  destruct (Nat.eqb k' k) eqn:E; simpl; [exact IH|]. now rewrite E.
Qed.

(** C1.  [stop()] never throws, but it does not clear the initial-fetch
    timer: every deadline pending before [stop()] is still pending after it,
    the monitor then holds no watch, and when that timer fires its callback
    calls a method on [null] and throws a [TypeError]. *)
Theorem stop_leaves_deadline_timer : forall W c d,
  In (c, d) (deadlines W) ->
  exists W',
    stop W = Returned tt W' /\
    _watchKvChange (this W') = None /\
    In (c, d) (deadlines W') /\
    exists W'', turn JSON_parse (DeadlineElapsed c) W' = Some (Thrown TypeError W'').
Proof.
  intros W c d Hin. destruct (stop_spec W) as (W' & Hs & Hf & _ & _ & Hd & _).
  exists W'. split; [exact Hs|]. split; [exact Hf|]. split; [now apply Hd|].
  unfold turn. cbn [callback].
  destruct (lookup_key c (deadlines W')) eqn:E.
  - open_world W'. cbn in Hf. subst. cbv [deadline_elapsed]. exec. eexists. reflexivity.
  - exfalso. eapply lookup_key_in; [apply Hd, Hin | exact E].
Qed.

Lemma remove_key_snoc_same : forall A k (a : A) l,
  remove_key k (l ++ [(k, a)]) = remove_key k l.
Proof.
  intros A k a l. unfold remove_key. rewrite filter_app. simpl.
  rewrite Nat.eqb_refl. simpl. apply app_nil_r.
Qed.

(** C2.  Between two turns, while the monitor holds a watch, [start()]
    is rejected with [AlreadyInitializedError]; the fields of the monitor,
    the watch objects with their listeners, the pending promises, the timers,
    the queued callbacks and the emitted events are what they were. *)
Theorem start_twice_rejected : forall W w,
  reachable JSON_parse W ->
  _watchKvChange (this W) = Some w ->
  exists W',
    turn JSON_parse CallStart W = Some (Returned tt W') /\
    settled W' =
      settled W ++ [(next_call W,
                     RejectedWith (AlreadyInitializedError "Service is already started"))] /\
    this W' = this W /\
    watches W' = watches W /\
    next_watch W' = next_watch W /\
    calls W' = calls W /\
    deadlines W' = deadlines W /\
    intervals W' = intervals W /\
    retries W' = retries W /\
    immediates W' = immediates W /\
    emitted W' = emitted W.
Proof.
  intros W w Hr Hw. destruct (reachable_session_invariant W Hr) as [(Hc & _) Hm].
  pose proof (find_call_fresh W Hc) as Hnc.
  assert (Hcs : remove_key (next_call W) (calls W) = calls W).
  { unfold calls_fresh in Hc. clear - Hc. generalize dependent (next_call W). intros nc.
    induction (calls W) as [|[c who] l IH]; intros Hc; simpl; [reflexivity|].
    assert (c < nc) by (apply Hc; simpl; rewrite Nat.eqb_refl; discriminate).
    destruct (Nat.eqb c nc) eqn:E; [apply Nat.eqb_eq in E; lia|]. simpl.
    rewrite IH; [reflexivity|].
    intros c' H'. apply Hc. simpl. destruct (Nat.eqb c c'); [discriminate | exact H']. }
  assert (Hcs' : remove_key (next_call W) (calls W ++ [(next_call W, External)]) = calls W).
  { rewrite remove_key_snoc_same. exact Hcs. }
  open_world W. subst. unfold turn. cbn [callback]. exec.
  rewrite find_call_app, Hnc. cbn [find_call]. rewrite Nat.eqb_refl. exec.
  cbv [run_microtasks run_reactions]. exec. cbn [app]. rewrite Hcs'.
  eexists. split; [reflexivity|]. repeat split.
Qed.

(** C3.  The fallback timer.  Between two turns at most one interval is
    active, the one the monitor holds.  [_setFallbackToWatchHealthy] clears
    the interval the monitor holds before it sets the new one.  A tick of a
    healthy monitor clears the interval and changes nothing else.  A tick of
    an unhealthy monitor whose watch reports an update time other than the
    one recorded clears the interval, sets the monitor healthy and emits
    [healthy], and nothing else: no [changed]. *)
Theorem fallback_timer_spec :
  (forall W, reachable JSON_parse W ->
     List.length (intervals W) <= 1 /\ fallback_timer_tracked W) /\
  (forall W w, _watchKvChange (this W) = Some w ->
     exists W',
       _setFallbackToWatchHealthy W = Returned tt W' /\
       intervals W' =
         match _fallbackToWatchHealthyInterval (this W) with
         | Some old => remove_key old (intervals W)
         | None => intervals W
         end ++ [(next_timer W, (HEALTH_FALLBACK_INTERVAL_MSEC, updateTime (watches W w)))] /\
       _fallbackToWatchHealthyInterval (this W') = Some (next_timer W) /\
       (fallback_timer_tracked W -> List.length (intervals W') = 1)) /\
  (forall W id period baseline,
     reachable JSON_parse W ->
     lookup_key id (intervals W) = Some (period, baseline) ->
     _isWatchHealthy (this W) = true ->
     turn JSON_parse (FallbackTick id) W =
     Some (Returned tt
             (set_this (set_fallbackToWatchHealthyInterval None (this W))
                (set_intervals [] W)))) /\
  (forall W id period baseline w,
     reachable JSON_parse W ->
     lookup_key id (intervals W) = Some (period, baseline) ->
     _isWatchHealthy (this W) = false ->
     _watchKvChange (this W) = Some w ->
     updateTime (watches W w) <> baseline ->
     turn JSON_parse (FallbackTick id) W =
     Some (Returned tt
             (set_emitted (emitted W ++ [Healthy])
                (set_this (set_isWatchHealthy true
                             (set_fallbackToWatchHealthyInterval None (this W)))
                   (set_intervals [] W))))).
Proof.
  assert (Htracked : forall W id pb, reachable JSON_parse W ->
            lookup_key id (intervals W) = Some pb ->
            _fallbackToWatchHealthyInterval (this W) = Some id /\
            remove_key id (intervals W) = [] /\ microtasks W = []).
  { intros W id pb Hr Hl. pose proof (reachable_fallback_timer_tracked W Hr) as Hfb.
    destruct (reachable_session_invariant W Hr) as [_ Hm].
    unfold fallback_timer_tracked in Hfb.
    destruct (_fallbackToWatchHealthyInterval (this W)) as [id'|].
    - destruct Hfb as [b Hb]. rewrite Hb in Hl |- *. simpl in Hl.
      destruct (Nat.eqb id' id) eqn:E; [|discriminate]. apply Nat.eqb_eq in E. subst id'.
      repeat split; [|exact Hm]. simpl. now rewrite Nat.eqb_refl.
    - rewrite Hfb in Hl. discriminate. }
  split; [|split; [|split]].
  - intros W Hr. pose proof (reachable_fallback_timer_tracked W Hr) as Hfb.
    split; [|exact Hfb]. unfold fallback_timer_tracked in Hfb.
    destruct (_fallbackToWatchHealthyInterval (this W)).
    + destruct Hfb as [b ->]. simpl. lia.
    + rewrite Hfb. simpl. lia.
  - intros W w Hw. unfold fallback_timer_tracked. open_world W. subst wk. exec.
    destruct fb as [old|]; exec; eexists; (split; [reflexivity|]); repeat split.
    + intros [b ->]. cbn. now rewrite Nat.eqb_refl.
    + intros ->. reflexivity.
  - intros W id period baseline Hr Hl Hh.
    destruct (Htracked W id _ Hr Hl) as (Hf & Hrm & Hm).
    unfold turn. cbn [callback]. rewrite Hl.
    open_world W. subst. exec. cbv [run_microtasks run_reactions]. exec.
    rewrite Hrm. reflexivity.
  - intros W id period baseline w Hr Hl Hh Hw Hne.
    destruct (Htracked W id _ Hr Hl) as (Hf & Hrm & Hm).
    unfold turn. cbn [callback]. rewrite Hl.
    open_world W. subst. exec.
    assert (E : option_Z_eqb baseline (updateTime (ws w)) = false).
    { destruct baseline as [x|], (updateTime (ws w)) as [y|]; simpl; try reflexivity;
        [|congruence]. apply Z.eqb_neq. congruence. }
    rewrite E. exec. cbv [run_microtasks run_reactions]. exec.
    rewrite Hrm. reflexivity.
Qed.

(** The retry procedure.  When the [start()] awaited by
    [_retryStartService] is rejected, nothing is emitted at once: one
    callback is queued with [setImmediate], and a retry timer of 1000 ms is
    set and kept in [_retryTimer].  The queued callback emits the error on a
    monitor with a listener for ['error'] and throws it on a monitor with
    none.  When that timer fires
    and the monitor holds no watch, the whole start procedure runs again, for
    [_retryStartService].  When the awaited [start()] is fulfilled, the
    snapshot becomes the current one and [healthy], then [changed] are
    emitted.  [stop()] clears the retry timer the monitor holds: it can no
    longer fire. *)
Theorem retry_procedure_spec :
  (forall W c err,
     exists W',
       run_reaction (Rejected c RetryStartService err) W = Returned tt W' /\
       emitted W' = emitted W /\
       immediates W' = immediates W ++ [EmitStartFailure err] /\
       retries W' =
         retries W ++ [(next_timer W, DEFAULT_RETRY_START_SERVICE_TIMEOUT_MSEC)] /\
       _retryTimer (this W') = Some (next_timer W)) /\
  (forall V err,
     error_listeners V <> 0 ->
     run_immediate (EmitStartFailure err) V =
     Returned tt (set_emitted (emitted V ++ [Error err]) V)) /\
  (forall V err,
     error_listeners V = 0 ->
     run_immediate (EmitStartFailure err) V = Thrown err V) /\
  (forall W id delay,
     reachable JSON_parse W ->
     lookup_key id (retries W) = Some delay ->
     _watchKvChange (this W) = None ->
     exists W',
       turn JSON_parse (RetryElapsed id) W = Some (Returned tt W') /\
       _watchKvChange (this W') = Some (next_watch W) /\
       calls W' = calls W ++ [(next_call W, RetryStartService)] /\
       deadlines W' = deadlines W ++ [(next_call W, _timeoutMsec (this W))] /\
       retries W' = remove_key id (retries W)) /\
  (forall W c kvData w,
     _watchKvChange (this W) = Some w ->
     exists W',
       run_reaction (Fulfilled c RetryStartService kvData) W = Returned tt W' /\
       _consulKvData (this W') = kvData /\
       _initialized (this W') = true /\
       _isWatchHealthy (this W') = true /\
       emitted W' = emitted W ++ [Healthy; Changed kvData]) /\
  (forall W id,
     _retryTimer (this W) = Some id ->
     exists W',
       stop W = Returned tt W' /\
       _retryTimer (this W') = None /\
       retries W' = remove_key id (retries W) /\
       callback JSON_parse (RetryElapsed id) W' = None).
Proof.
  split; [|split; [|split; [|split; [|split]]]].
  - intros W c err. open_world W. exec. eexists. split; [reflexivity|]. repeat split.
  - intros V err HV. cbv [run_immediate emit bind get modify throw].
    destruct (error_listeners V); [congruence | reflexivity].
  - intros V err HV. cbv [run_immediate emit bind get modify throw].
    rewrite HV. reflexivity.
  - intros W id delay Hr Hl Hw.
    destruct (reachable_session_invariant W Hr) as [_ Hm].
    unfold turn. cbn [callback]. rewrite Hl.
    open_world W. subst. exec. cbv [run_microtasks run_reactions]. exec.
    eexists. split; [reflexivity|]. repeat split.
  - intros W c kvData w Hw. open_world W. subst. exec.
    eexists. split; [reflexivity|]. cbn. rewrite <- app_assoc. repeat split.
  - intros W id Hrt. destruct (stop_spec W) as (W' & Hs & _ & Ht & Hrs & _).
    rewrite Hrt in Hrs. exists W'. repeat split; try assumption.
    cbn [callback]. rewrite Hrs, lookup_key_remove_key. reflexivity.
Qed.

Lemma lookup_key_remove_other : forall A k k' (l : list (nat * A)),
  k' <> k -> lookup_key k' (remove_key k l) = lookup_key k' l.
Proof.
  intros A k k' l Hne. induction l as [|[k0 a] l IH]; simpl; [reflexivity|].
  destruct (Nat.eqb k0 k) eqn:E; simpl.
  - apply Nat.eqb_eq in E. subst k0.
    destruct (Nat.eqb k k') eqn:E'; [apply Nat.eqb_eq in E'; congruence | exact IH].
  - destruct (Nat.eqb k0 k'); [reflexivity | exact IH].
Qed.

(** C4.  [stop()] clears the one retry timer [_retryTimer] holds.  When a
    second retry timer is pending, one whose handle [_retryStartService]
    has overwritten, [stop()] returns and leaves it pending; when it fires,
    [_retryStartService] runs [start()] again and a new watch is registered:
    a retry attempt after [stop()]. *)
Theorem stop_misses_overwritten_retry_timer : forall W id id' delay,
  microtasks W = [] ->
  _watchKvChange (this W) = None ->
  _retryTimer (this W) = Some id ->
  id' <> id ->
  lookup_key id' (retries W) = Some delay ->
  exists W',
    stop W = Returned tt W' /\
    _retryTimer (this W') = None /\
    lookup_key id' (retries W') = Some delay /\
    exists W'',
      turn JSON_parse (RetryElapsed id') W' = Some (Returned tt W'') /\
      _watchKvChange (this W'') = Some (next_watch W) /\
      calls W'' = calls W ++ [(next_call W, RetryStartService)] /\
      deadlines W'' = deadlines W ++ [(next_call W, _timeoutMsec (this W))].
Proof.
  intros W id id' delay Hm Hw Hrt Hne Hl.
  pose proof (lookup_key_remove_other _ id id' (retries W) Hne) as Hl'.
  rewrite Hl in Hl'.
  open_world W. cbn in Hm, Hw, Hrt, Hl, Hl'. subst. exec.
  eexists. split; [reflexivity|]. split; [reflexivity|]. split; [exact Hl'|].
  unfold turn. cbn [callback retries set_this set_retries set_retryTimer this].
  rewrite Hl'. exec.
  cbv [run_microtasks run_reactions]. exec.
  eexists. split; [reflexivity|]. repeat split.
Qed.

(** * More about the snapshot *)
Lemma filter_idem : forall A (p : A -> bool) l, filter p (filter p l) = filter p l.
Proof.
  induction l as [|x l IH]; simpl; [reflexivity|].
  destruct (p x) eqn:E; simpl; [rewrite E, IH|]; auto.
Qed.

Lemma filter_none : forall A (p : A -> bool) l,
  filter (fun x => negb (p x)) (filter p l) = [].
Proof.
  induction l as [|x l IH]; simpl; [reflexivity|].
  destruct (p x) eqn:E; simpl; [rewrite E|]; auto.
Qed.

(** Validating the valid records again keeps them all and reports
    nothing. *)
Theorem filterValidKvRecords_idempotent : forall records,
  filterValidKvRecords (JArr (validRecords (filterValidKvRecords records))) =
  {| validRecords := validRecords (filterValidKvRecords records); errors := [] |}.
Proof.
  intros records. rewrite filterValidKvRecords_array.
  destruct (_isArray records) eqn:E.
  - destruct records; try discriminate. rewrite filterValidKvRecords_array.
    cbn [validRecords].
    assert (H : filter record_is_invalid (filter record_is_valid items) = []).
    { pose proof (filter_none _ record_is_valid items) as H.
      erewrite filter_ext; [exact H|]. intros a. unfold record_is_valid.
      now rewrite negb_involutive. }
    rewrite filter_idem, H. reflexivity.
  - unfold filterValidKvRecords. rewrite E. reflexivity.
Qed.

Lemma Map_has_set : forall m k b k2,
  Map_has k2 (Map_set k b m) = same_value_zero k k2 || Map_has k2 m.
Proof.
  intros m k b k2. unfold Map_has. rewrite Map_get_set.
  destruct (same_value_zero k k2); reflexivity.
Qed.

Lemma Map_has_fold_existsb : forall l m k,
  Map_has k (fold_left Map_set_entry l m) =
  Map_has k m || existsb (fun e => same_value_zero (fst e) k) l.
Proof.
  induction l as [|e l IH]; intros m k; simpl.
  - now rewrite orb_false_r.
  - rewrite IH. unfold Map_set_entry. rewrite Map_has_set.
    destruct (same_value_zero (fst e) k), (Map_has k m); reflexivity.
Qed.

(** [hasKey] on a built snapshot, asked with a primitive key: the key is
    there exactly when a valid record that was kept has it. *)
Theorem hasKey_buildConsulKvData : forall data json key,
  data <> JUndefined ->
  is_primitive key = true ->
  hasKey (consulKvData (buildConsulKvData JSON_parse data json)) key =
  existsb (fun record => same_value_zero (get_prop record "Key") key)
          (filter (decodes JSON_parse json) (validRecords (filterValidKvRecords data))).
Proof.
  intros data json key Hd _. rewrite (buildConsulKvData_eq data json Hd). cbv zeta.
  unfold hasKey. simpl. rewrite Map_new_fold, Map_has_fold_existsb. simpl.
  induction (filter (decodes JSON_parse json) (validRecords (filterValidKvRecords data)))
    as [|r l IH]; simpl; [reflexivity|]. now rewrite IH.
Qed.

(** A primitive key that no kept record has is not in the built snapshot:
    [hasKey] is false, [getValue] and [getMetadata] return [undefined]. *)
Theorem buildConsulKvData_missing_key : forall data json key,
  is_primitive key = true ->
  (forall record,
     In record (filter (decodes JSON_parse json) (validRecords (filterValidKvRecords data))) ->
     same_value_zero (get_prop record "Key") key = false) ->
  let snapshot := consulKvData (buildConsulKvData JSON_parse data json) in
  hasKey snapshot key = false /\
  getValue snapshot key = JUndefined /\
  getMetadata snapshot key = JUndefined.
Proof.
  intros data json key _ Hk snapshot.
  assert (Hl : forall l,
            (forall record, In record l ->
               same_value_zero (get_prop record "Key") key = false) ->
            existsb (fun e => same_value_zero (fst e) key)
                    (map (entry_of JSON_parse json) l) = false).
  { induction l as [|r l IH]; intros Hin; simpl; [reflexivity|].
    rewrite (Hin r (or_introl eq_refl)). apply IH. intros r' Hr'. apply Hin. now right. }
  assert (H : hasKey snapshot key = false).
  { subst snapshot. destruct data; try reflexivity;
      (rewrite buildConsulKvData_eq by discriminate; cbv zeta;
       unfold hasKey; simpl; rewrite Map_new_fold, Map_has_fold_existsb; simpl;
       apply Hl, Hk). }
  unfold getValue, getMetadata. unfold hasKey in H. rewrite H. auto.
Qed.

(** Every entry of a built snapshot carries as metadata a valid element
    of the payload whose [Key] is the key of the entry, and as value what
    that record decodes to. *)
Theorem buildConsulKvData_entries : forall data json k b,
  In (k, b) (_kvMap (consulKvData (buildConsulKvData JSON_parse data json))) ->
  In (metaData b) (array_items data) /\
  record_is_invalid (metaData b) = false /\
  get_prop (metaData b) "Key" = k /\
  value b = decoded_value JSON_parse json (metaData b) /\
  decodes JSON_parse json (metaData b) = true.
Proof.
  intros data json k b H.
  assert (Hd : data <> JUndefined) by (intros ->; destruct H).
  rewrite (buildConsulKvData_eq data json Hd) in H. cbv zeta in H. simpl in H.
  rewrite Map_new_fold in H. apply Map_fold_In in H. destruct H as [[]|H].
  apply in_map_iff in H. destruct H as (r & E & Hr).
  unfold entry_of in E. injection E as Ek Eb. subst b k. simpl.
  apply filter_In in Hr. destruct Hr as [Hr Hdec].
  assert (Hv : In r (array_items data) /\ record_is_invalid r = false).
  { destruct (_isArray data) eqn:Ea.
    - destruct data; try discriminate. rewrite filterValidKvRecords_array in Hr.
      simpl in Hr. apply filter_In in Hr. destruct Hr as [Hin Hval]. split; [exact Hin|].
      unfold record_is_valid in Hval. now apply negb_true_iff in Hval.
    - unfold filterValidKvRecords in Hr. rewrite Ea in Hr. destruct Hr. }
  destruct Hv. repeat split; assumption.
Qed.

(** Whatever the records, the keys of a [ConsulKvData] are pairwise
    different: no key is listed twice. *)
Theorem getKeys_distinct : forall records,
  keys_distinct (getKeys (new_ConsulKvData records)) /\
  forall key, count_key key (getKeys (new_ConsulKvData records)) <= 1.
Proof.
  intros records.
  assert (H : keys_distinct (getKeys (new_ConsulKvData records))).
  { unfold getKeys, new_ConsulKvData. simpl. rewrite Map_new_fold.
    apply Map_fold_keys_distinct. exact I. }
  split; [exact H|]. intros key. now apply count_key_distinct_le.
Qed.

Lemma Map_get_first : forall (l : list JsValue) (f : JsValue -> JsValue * Body) r,
  (forall x, fst (f x) = get_prop x "Key") ->
  keys_distinct (map (fun x => get_prop x "Key") l) ->
  In r l -> same_value_zero (get_prop r "Key") (get_prop r "Key") = true ->
  Map_get (get_prop r "Key") (map f l) = Some (snd (f r)).
Proof.
  intros l f r Hf. induction l as [|x l IH]; intros Hd Hin Hk; [destruct Hin|].
  simpl in *. destruct Hd as [Hx Hd].
  destruct (f x) as [kx bx] eqn:Efx. pose proof (Hf x) as Hfx. rewrite Efx in Hfx.
  simpl in Hfx. subst kx.
  destruct Hin as [->|Hin].
  - rewrite Hk. now rewrite Efx.
  - assert (E : same_value_zero (get_prop x "Key") (get_prop r "Key") = false).
    { rewrite Forall_forall in Hx. apply Hx.
      apply (in_map (fun y => get_prop y "Key") l r Hin). }
    rewrite E. now apply IH.
Qed.

(** When the kept records have pairwise different keys, [getKeys] lists
    their keys in the order of the payload, and for each kept record whose
    [Key] is a primitive value, asked with that key, [hasKey] holds,
    [getValue] is its decoded value and [getMetadata] the record itself. *)
Theorem buildConsulKvData_round_trip : forall data json,
  data <> JUndefined ->
  let kept := filter (decodes JSON_parse json) (validRecords (filterValidKvRecords data)) in
  let snapshot := consulKvData (buildConsulKvData JSON_parse data json) in
  keys_distinct (map (fun record => get_prop record "Key") kept) ->
  getKeys snapshot = map (fun record => get_prop record "Key") kept /\
  forall record,
    In record kept ->
    is_primitive (get_prop record "Key") = true ->
    hasKey snapshot (get_prop record "Key") = true /\
    getValue snapshot (get_prop record "Key") = decoded_value JSON_parse json record /\
    getMetadata snapshot (get_prop record "Key") = record.
Proof.
  intros data json Hd kept snapshot Hdist. subst snapshot.
  rewrite (buildConsulKvData_eq data json Hd). cbv zeta. fold kept. simpl.
  assert (Hm : Map_new (map (entry_of JSON_parse json) kept)
               = map (entry_of JSON_parse json) kept).
  { rewrite Map_new_fold, Map_fold_distinct; [reflexivity|].
    simpl. rewrite map_map. exact Hdist. }
  unfold getKeys, hasKey, getValue, getMetadata, Map_has. simpl. rewrite Hm.
  split; [now rewrite map_map|].
  intros record Hin Hk.
  assert (Hrefl : same_value_zero (get_prop record "Key") (get_prop record "Key") = true).
  { destruct (get_prop record "Key"); try discriminate; simpl; try reflexivity.
    - apply Bool.eqb_reflx.
    - apply Z.eqb_refl.
    - apply String.eqb_refl. }
  rewrite (Map_get_first kept (entry_of JSON_parse json) record) by auto.
  simpl. repeat split.
Qed.

(** [undefined] gives the empty snapshot and no diagnostic; any other
    value that is no array gives the empty snapshot and the one payload
    diagnostic, with or without decoding. *)
Theorem buildConsulKvData_no_batch : forall json,
  buildConsulKvData JSON_parse JUndefined json =
    {| consulKvData := new_ConsulKvData []; factory_errors := [] |} /\
  forall data,
    data <> JUndefined -> _isArray data = false ->
    getKeys (consulKvData (buildConsulKvData JSON_parse data json)) = [] /\
    factory_errors (buildConsulKvData JSON_parse data json) = [invalid_payload_error data].
Proof.
  intros json. split; [reflexivity|].
  intros data Hd Ha. rewrite (buildConsulKvData_eq data json Hd). cbv zeta.
  unfold filterValidKvRecords. rewrite Ha. simpl. split; reflexivity.
Qed.

(** Without decoding the result does not depend on [JSON.parse], the
    diagnostics are those of the validator, and there are at most as many
    keys as valid records. *)
Theorem buildConsulKvData_raw : forall (other_parse : JsValue -> option JsValue) data,
  buildConsulKvData JSON_parse data false = buildConsulKvData other_parse data false /\
  (data <> JUndefined ->
   factory_errors (buildConsulKvData JSON_parse data false) =
     errors (filterValidKvRecords data) /\
   List.length (getKeys (consulKvData (buildConsulKvData JSON_parse data false))) <=
     List.length (validRecords (filterValidKvRecords data))).
Proof.
  intros other_parse data. split.
  - destruct data; try reflexivity;
      unfold buildConsulKvData;
      match goal with |- context [fold_left _ ?l ?a] =>
        generalize a; induction l as [|r l IH]; intros [rs es]; [reflexivity|]; simpl; apply IH
      end.
  - intros Hd. split.
    + rewrite (buildConsulKvData_eq data false Hd). cbv zeta. cbn [factory_errors].
      assert (E : filter (fun rec => negb (decodes JSON_parse false rec))
                         (validRecords (filterValidKvRecords data)) = []).
      { induction (validRecords (filterValidKvRecords data)); simpl; auto. }
      rewrite E. apply app_nil_r.
    + rewrite (buildConsulKvData_eq data false Hd). cbv zeta. unfold getKeys. simpl.
      rewrite length_map, Map_new_fold.
      pose proof (Map_length_fold
                    (map (entry_of JSON_parse false)
                         (filter (decodes JSON_parse false)
                                 (validRecords (filterValidKvRecords data)))) []) as H.
      rewrite length_map in H. simpl in H.
      pose proof (filter_split_length (decodes JSON_parse false)
                    (validRecords (filterValidKvRecords data))). lia.
Qed.

(** * More about the monitor *)

(** [stop()] never throws, and a second [stop()] changes nothing. *)
Theorem stop_idempotent : forall W,
  exists W', stop W = Returned tt W' /\ stop W' = Returned tt W'.
Proof.
  intros W. destruct (stop_spec W) as (W' & Hs & Hf & Hrt & _).
  exists W'. split; [exact Hs|].
  destruct (stop_spec W') as (W'' & Hs' & _ & _ & _ & _ & _ & _ & _ & _ & _ & Hcase).
  rewrite Hf, Hrt in Hcase. rewrite Hs'. f_equal. rewrite Hcase.
  open_world W'. cbn in Hf, Hrt. subst. reflexivity.
Qed.

(** [stop()] keeps the last snapshot and headers and the queued
    [setImmediate] callbacks, and clears no initial-fetch timer. *)
Theorem stop_keeps_last_known : forall W,
  exists W',
    stop W = Returned tt W' /\
    _consulKvData (this W') = _consulKvData (this W) /\
    _consulHeaders (this W') = _consulHeaders (this W) /\
    immediates W' = immediates W /\
    incl (deadlines W) (deadlines W').
Proof.
  intros W. destruct (stop_spec W) as (W' & Hs & _ & _ & _ & Hd & Hk & Hh & _ & Hi & _).
  exists W'. repeat split; assumption.
Qed.

Lemma run_microtasks_empty : forall W,
  microtasks W = [] -> run_microtasks W = Returned tt W.
Proof.
  intros W H. open_world W. cbn in H. subst. reflexivity.
Qed.

Lemma turn_CallStop : forall W W1,
  stop W = Returned tt W1 -> microtasks W1 = [] ->
  turn JSON_parse CallStop W = Some (Returned tt W1).
Proof.
  intros W W1 Hs Hm. unfold turn. cbn [callback]. cbv [bind]. rewrite Hs.
  now rewrite run_microtasks_empty.
Qed.

(** Between two turns, [stop()] leaves the monitor uninitialized, without
    watch and without retry timer; the retry timer it held cannot fire; and
    when it held a watch it is unhealthy and no interval is active. *)
Theorem stop_turn_uninitialized : forall W,
  reachable JSON_parse W ->
  exists W',
    turn JSON_parse CallStop W = Some (Returned tt W') /\
    _initialized (this W') = false /\
    _watchKvChange (this W') = None /\
    _retryTimer (this W') = None /\
    (forall id, _retryTimer (this W) = Some id -> lookup_key id (retries W') = None) /\
    (_watchKvChange (this W) <> None ->
     _isWatchHealthy (this W') = false /\ intervals W' = []).
Proof.
  intros W Hr. destruct (reachable_session_invariant W Hr) as [(_ & Hi & _) Hm].
  destruct (stop_spec W) as (W' & Hs & Hf & Hrt & Hrs & _ & _ & _ & _ & _ & Hmt & Hcase).
  assert (Ht : turn JSON_parse CallStop W = Some (Returned tt W'))
    by (apply turn_CallStop; congruence).
  exists W'. split; [exact Ht|].
  assert (Hr' : reachable JSON_parse W') by (eapply reachable_turn; eauto).
  pose proof (reachable_fallback_timer_tracked W' Hr') as Hfb.
  destruct (reachable_session_invariant W' Hr') as [(_ & Hi' & _) _].
  repeat split; try assumption.
  - destruct (_initialized (this W')); [|reflexivity].
    destruct (Hi' eq_refl) as (w & E & _). congruence.
  - intros id E. rewrite E in Hrs. rewrite Hrs. apply lookup_key_remove_key.
  - destruct (_watchKvChange (this W)); [apply Hcase | congruence].
  - destruct (_watchKvChange (this W)); [|congruence].
    destruct Hcase as (_ & _ & E). unfold fallback_timer_tracked in Hfb.
    now rewrite E in Hfb.
Qed.

(** [_onWatcherEnd] never throws: the monitor becomes uninitialized and
    unhealthy, [unhealthy] is emitted exactly when it was healthy, its
    interval handle is dropped, and a new watch is registered whose first
    change, first error and deadline belong to a [start()] awaited by
    [_retryStartService]; snapshot, headers and retry timers stay. *)
Theorem onWatcherEnd_spec : forall W,
  exists W',
    _onWatcherEnd W = Returned tt W' /\
    _initialized (this W') = false /\
    _isWatchHealthy (this W') = false /\
    _fallbackToWatchHealthyInterval (this W') = None /\
    emitted W' = emitted W ++ (if _isWatchHealthy (this W) then [Unhealthy] else []) /\
    _watchKvChange (this W') = Some (next_watch W) /\
    calls W' = calls W ++ [(next_call W, RetryStartService)] /\
    deadlines W' = deadlines W ++ [(next_call W, _timeoutMsec (this W))] /\
    change_l (watches W' (next_watch W)) = [FirstChange (next_call W)] /\
    error_l (watches W' (next_watch W)) = [FirstError (next_call W)] /\
    _consulKvData (this W') = _consulKvData (this W) /\
    _consulHeaders (this W') = _consulHeaders (this W) /\
    retries W' = retries W.
Proof.
  intros W. open_world W. exec.
  destruct fb, hl; exec; eexists; (split; [reflexivity|]); cbn;
    rewrite ?Nat.eqb_refl, ?app_nil_r; cbn; repeat split.
Qed.

(** Whether it returns or throws, [_onWatcherError] leaves the snapshot,
    the headers, the initialized flag and the watch as they were, and the
    monitor unhealthy. *)
Theorem onWatcherError_keeps_last_known : forall W err,
  match _onWatcherError err W with
  | Returned _ W' | Thrown _ W' =>
      _consulKvData (this W') = _consulKvData (this W) /\
      _consulHeaders (this W') = _consulHeaders (this W) /\
      _initialized (this W') = _initialized (this W) /\
      _watchKvChange (this W') = _watchKvChange (this W) /\
      _isWatchHealthy (this W') = false
  end.
Proof.
  intros W err. open_world W. exec.
  destruct fb, hl; exec; destruct wk; exec; try destruct els; exec; repeat split.
Qed.

(** Between two turns the watch the monitor holds has not ended, and no
    promise job is pending. *)
Theorem reachable_watch_alive : forall W w,
  reachable JSON_parse W ->
  _watchKvChange (this W) = Some w ->
  ended (watches W w) = false /\ microtasks W = [].
Proof.
  intros W w Hr Hw. destruct (reachable_session_invariant W Hr) as [(_ & _ & H) Hm].
  split; [apply (H w Hw) | exact Hm].
Qed.

(** When the retry timer fires while the monitor holds a watch, the
    [start()] of the retry is rejected with [AlreadyInitializedError]: that
    error is queued for emission, the next retry timer is set, and the
    session is untouched. *)
Theorem retry_elapsed_with_session : forall W id delay w,
  reachable JSON_parse W ->
  lookup_key id (retries W) = Some delay ->
  _watchKvChange (this W) = Some w ->
  exists W',
    turn JSON_parse (RetryElapsed id) W = Some (Returned tt W') /\
    immediates W' =
      immediates W ++ [EmitStartFailure (AlreadyInitializedError "Service is already started")] /\
    retries W' =
      remove_key id (retries W) ++ [(next_timer W, DEFAULT_RETRY_START_SERVICE_TIMEOUT_MSEC)] /\
    _retryTimer (this W') = Some (next_timer W) /\
    _watchKvChange (this W') = Some w /\
    _initialized (this W') = _initialized (this W) /\
    watches W' = watches W /\
    emitted W' = emitted W.
Proof.
  intros W id delay w Hr Hl Hw.
  destruct (reachable_session_invariant W Hr) as [(Hc & _) Hm].
  pose proof (find_call_fresh W Hc) as Hnc.
  unfold turn. cbn [callback]. rewrite Hl.
  open_world W. subst. exec.
  rewrite find_call_app, Hnc. cbn [find_call]. rewrite Nat.eqb_refl. exec.
  cbv [run_microtasks run_reactions]. exec. cbn [app].
  eexists. split; [reflexivity|]. repeat split.
Qed.

(** The first change of a session started from outside: the promise is
    resolved with the built snapshot, the monitor is initialized and healthy
    and holds that snapshot, the deadline is cleared, the three handlers are
    attached in place of [firstChange] and [firstError], diagnostics are
    queued, and nothing is emitted. *)
Theorem first_change_resolves_start : forall W w c now data response,
  microtasks W = [] ->
  _watchKvChange (this W) = Some w ->
  watch_is_live W w = true ->
  change_l (watches W w) = [FirstChange c] ->
  find_call c (calls W) = Some External ->
  let r := buildConsulKvData JSON_parse data (_json (this W)) in
  exists W',
    turn JSON_parse (WatchChange w now data response) W = Some (Returned tt W') /\
    settled W' = settled W ++ [(c, Resolved (consulKvData r))] /\
    _initialized (this W') = true /\
    _isWatchHealthy (this W') = true /\
    _consulKvData (this W') = consulKvData r /\
    emitted W' = emitted W /\
    immediates W' =
      immediates W ++ (if _isEmpty (factory_errors r) then []
                       else [EmitFactoryErrors (factory_errors r)]) /\
    deadlines W' = remove_key c (deadlines W) /\
    change_l (watches W' w) = [OnWatcherChange] /\
    error_l (watches W' w) =
      remove_last ErrorListener_eqb (FirstError c) (error_l (watches W w))
      ++ [OnWatcherError] /\
    end_l (watches W' w) = end_l (watches W w) ++ [OnWatcherEnd] /\
    updateTime (watches W' w) = Some now.
Proof.
  intros W w c now data response Hm Hw Hlive Hch Hc r. subst r.
  unfold turn. cbn [callback]. rewrite Hlive.
  open_world W. subst. exec.
  rewrite Nat.eqb_refl. cbn [change_l set_updateTime]. rewrite Hch.
  cbn [call_change_listeners]. exec.
  destruct (factory_errors (buildConsulKvData JSON_parse data js)) eqn:He; exec;
    rewrite Hc; exec.
  all: cbv [run_microtasks run_reactions]; exec; cbn [app].
  all: eexists; (split; [reflexivity|]); cbn; rewrite ?Nat.eqb_refl; cbn;
       rewrite ?Hch, ?app_nil_r; repeat split.
  all: cbn; rewrite Nat.eqb_refl; reflexivity.
Qed.

(** The first error of a session started from outside: the promise is
    rejected with a [WatchError] for the cause, the watch is ended and
    dropped, the deadline is cleared, nothing is emitted and no retry is
    scheduled. *)
Theorem first_error_rejects_start : forall W w c err,
  microtasks W = [] ->
  _watchKvChange (this W) = Some w ->
  watch_is_live W w = true ->
  error_l (watches W w) = [FirstError c] ->
  end_l (watches W w) = [] ->
  find_call c (calls W) = Some External ->
  exists W',
    turn JSON_parse (WatchErrorEv w err false) W = Some (Returned tt W') /\
    settled W' = settled W ++ [(c, RejectedWith (WatchError (err_message err) err))] /\
    _watchKvChange (this W') = None /\
    _initialized (this W') = _initialized (this W) /\
    _isWatchHealthy (this W') = _isWatchHealthy (this W) /\
    _consulKvData (this W') = _consulKvData (this W) /\
    emitted W' = emitted W /\
    deadlines W' = remove_key c (deadlines W) /\
    ended (watches W' w) = true /\
    error_l (watches W' w) = [] /\
    retries W' = retries W.
Proof.
  intros W w c err Hm Hw Hlive Herr Hend Hc.
  assert (He : ended (watches W w) = false).
  { unfold watch_is_live in Hlive. apply andb_prop in Hlive. destruct Hlive as [_ H].
    now apply negb_true_iff in H. }
  unfold turn. cbn [callback]. rewrite Hlive.
  open_world W. subst. exec. rewrite Herr.
  cbn [call_error_listeners]. cbv [firstError watch_end]. exec.
  rewrite !Nat.eqb_refl. cbn [ended set_change_l set_error_l set_ended end_l].
  rewrite He, Hend. cbn [call_end_listeners]. exec. rewrite Hc. exec.
  cbv [run_microtasks run_reactions]. exec. cbn [app].
  eexists. split; [reflexivity|]. cbn. rewrite ?Nat.eqb_refl. cbn. rewrite ?Herr.
  repeat split. cbn. rewrite Nat.eqb_refl. reflexivity.
Qed.

(** The initial-fetch deadline of a session started from outside: the
    promise is rejected with [WatchTimeoutError], both first listeners are
    removed, the watch is ended and dropped, and nothing is emitted. *)
Theorem deadline_rejects_start : forall W w c delay,
  microtasks W = [] ->
  _watchKvChange (this W) = Some w ->
  ended (watches W w) = false ->
  end_l (watches W w) = [] ->
  lookup_key c (deadlines W) = Some delay ->
  find_call c (calls W) = Some External ->
  exists W',
    turn JSON_parse (DeadlineElapsed c) W = Some (Returned tt W') /\
    settled W' =
      settled W ++ [(c, RejectedWith
                          (WatchTimeoutError "Initial consul watch request was timed out"))] /\
    _watchKvChange (this W') = None /\
    _initialized (this W') = _initialized (this W) /\
    _isWatchHealthy (this W') = _isWatchHealthy (this W) /\
    emitted W' = emitted W /\
    deadlines W' = remove_key c (deadlines W) /\
    ended (watches W' w) = true /\
    change_l (watches W' w) =
      remove_last ChangeListener_eqb (FirstChange c) (change_l (watches W w)) /\
    error_l (watches W' w) =
      remove_last ErrorListener_eqb (FirstError c) (error_l (watches W w)).
Proof.
  intros W w c delay Hm Hw He Hend Hl Hc.
  unfold turn. cbn [callback]. rewrite Hl.
  open_world W. subst. cbv [deadline_elapsed watch_end]. exec.
  rewrite !Nat.eqb_refl. cbn [ended set_change_l set_error_l set_ended end_l].
  rewrite He, Hend. cbn [call_end_listeners]. exec. rewrite Hc. exec.
  cbv [run_microtasks run_reactions]. exec. cbn [app].
  eexists. split; [reflexivity|]. cbn. rewrite ?Nat.eqb_refl. cbn.
  repeat split.
Qed.

(** * The Consul headers *)
Lemma lookup_set_prop : forall name name' v props,
  lookup_prop name' (set_prop name v props) =
  if String.eqb name name' then Some v else lookup_prop name' props.
Proof.
  induction props as [|[n x] props IH]; simpl.
  - reflexivity.
  - destruct (String.eqb n name) eqn:E1; simpl.
    + apply String.eqb_eq in E1. subst n. destruct (String.eqb name name'); reflexivity.
    + rewrite IH. destruct (String.eqb n name') eqn:E2; [|reflexivity].
      apply String.eqb_eq in E2. subst n. now rewrite String.eqb_sym, E1.
Qed.

(** After [_onWatcherChange] the three Consul headers of the monitor are
    those of the response ([undefined] when the response lacks one); other
    entries of the headers object stay. *)
Theorem onWatcherChange_headers : forall W data response,
  exists W',
    _onWatcherChange JSON_parse data response W = Returned tt W' /\
    lookup_prop "x-consul-index" (_consulHeaders (this W')) =
      Some (response_header response "x-consul-index") /\
    lookup_prop "x-consul-knownleader" (_consulHeaders (this W')) =
      Some (response_header response "x-consul-knownleader") /\
    lookup_prop "x-consul-lastcontact" (_consulHeaders (this W')) =
      Some (response_header response "x-consul-lastcontact") /\
    forall name,
      ~ In name X_CONSUL_HEADERS ->
      lookup_prop name (_consulHeaders (this W')) = lookup_prop name (_consulHeaders (this W)).
Proof.
  intros W data response. open_world W. exec.
  destruct hl; destruct (factory_errors (buildConsulKvData JSON_parse data js)); exec;
    eexists; (split; [reflexivity|]); cbn [fold_left X_CONSUL_HEADERS];
    rewrite !lookup_set_prop; cbn; repeat split;
    intros name Hn; rewrite !lookup_set_prop;
    repeat match goal with
           | |- context [String.eqb ?a name] =>
               let E := fresh in
               destruct (String.eqb a name) eqn:E;
               [apply String.eqb_eq in E; subst name; exfalso; apply Hn; simpl; tauto|]
           end; reflexivity.
Qed.

(** * The constructor *)
(** The constructor.  When it returns, the timeout is the positive safe
    integer given, or 5000 when none is given, the key prefix is a non-empty
    string, and the monitor is uninitialized, unhealthy, without watch and
    with an empty snapshot.  When it throws, one of its four checks failed. *)
Theorem constructor_spec : forall options consul,
  match constructor options consul with
  | inr m =>
      (0 < _timeoutMsec m <= MAX_SAFE_INTEGER)%Z /\
      (if _has options "timeoutMsec"
       then get_prop options "timeoutMsec" = JNum (_timeoutMsec m)
       else _timeoutMsec m = DEFAULT_TIMEOUT_MSEC) /\
      (exists prefix, get_prop options "keysPrefix" = JStr prefix /\ prefix <> EmptyString) /\
      m = new_ConsulKvMonitor (_timeoutMsec m) (truthy (get_prop options "json")) /\
      _initialized m = false /\ _isWatchHealthy m = false /\
      _watchKvChange m = None /\ getKeys (_consulKvData m) = []
  | inl message =>
      _isPlainObject options = false \/
      (forall prefix, get_prop options "keysPrefix" = JStr prefix -> prefix = EmptyString) \/
      _has options "keysPrefix" = false \/
      (_has options "timeoutMsec" = true /\
       forall n, get_prop options "timeoutMsec" = JNum n ->
                 ~ (0 < n <= MAX_SAFE_INTEGER)%Z) \/
      consul_isObject consul && consul_watch_isFunction consul &&
      consul_kv_isObject consul && consul_kv_get_isFunction consul = false
  end.
Proof.
  intros options consul. unfold constructor.
  destruct (_isPlainObject options) eqn:Ep; cbn [negb]; [|now left].
  destruct (_has options "keysPrefix") eqn:Ek; cbn [negb orb]; [|right; right; now left].
  destruct (get_prop options "keysPrefix") eqn:Eg; cbn [_isString _isEmpty_string negb orb];
    try (right; left; intros prefix H; discriminate).
  destruct (String.eqb s EmptyString) eqn:Es.
  { apply String.eqb_eq in Es. right. left. intros prefix H. congruence. }
  assert (Hprefix : exists prefix, JStr s = JStr prefix /\ prefix <> EmptyString).
  { exists s. split; [reflexivity|]. intros ->. now rewrite String.eqb_refl in Es. }
  set (looks_wrong := negb (consul_isObject consul) || negb (consul_watch_isFunction consul)
              || negb (consul_kv_isObject consul) || negb (consul_kv_get_isFunction consul)).
  assert (Hw : looks_wrong = true ->
               consul_isObject consul && consul_watch_isFunction consul &&
               consul_kv_isObject consul && consul_kv_get_isFunction consul = false).
  { subst looks_wrong. destruct (consul_isObject consul), (consul_watch_isFunction consul),
      (consul_kv_isObject consul), (consul_kv_get_isFunction consul); simpl; auto;
      discriminate. }
  destruct (_has options "timeoutMsec") eqn:Et; cbn [negb].
  - destruct (get_prop options "timeoutMsec") eqn:Egt;
      cbn [_isSafeInteger number_le_0 negb orb];
      try (right; right; right; left; split; [reflexivity|]; intros n H; discriminate).
    destruct ((- MAX_SAFE_INTEGER <=? n)%Z && (n <=? MAX_SAFE_INTEGER)%Z) eqn:Eb;
      cbn [negb orb].
    + destruct (n <=? 0)%Z eqn:E0.
      * right; right; right; left. split; [reflexivity|]. intros n' H. injection H as <-.
        apply Z.leb_le in E0. lia.
      * destruct looks_wrong.
        -- right; right; right; right. now apply Hw.
        -- apply andb_prop in Eb. destruct Eb as [_ Eb].
           apply Z.leb_le in Eb. apply Z.leb_gt in E0. cbn.
           repeat split; try lia; assumption.
    + right; right; right; left. split; [reflexivity|]. intros n' H. injection H as <-.
      apply andb_false_iff in Eb. destruct Eb as [Eb|Eb]; apply Z.leb_gt in Eb;
        unfold MAX_SAFE_INTEGER in *; lia.
  - destruct looks_wrong.
    + right; right; right; right. now apply Hw.
    + cbn. repeat split; try assumption; unfold DEFAULT_TIMEOUT_MSEC, MAX_SAFE_INTEGER; lia.
Qed.

(** * The restart after the end of a session *)

(** The first change of a session that [_retryStartService] started: the
    monitor is initialized and healthy again and holds the new snapshot, the
    three handlers are attached, the deadline is cleared, and [healthy],
    then [changed] with the snapshot are emitted; diagnostics are queued. *)
Theorem first_change_after_restart : forall W w c now data response,
  microtasks W = [] ->
  _watchKvChange (this W) = Some w ->
  watch_is_live W w = true ->
  change_l (watches W w) = [FirstChange c] ->
  find_call c (calls W) = Some RetryStartService ->
  let r := buildConsulKvData JSON_parse data (_json (this W)) in
  exists W',
    turn JSON_parse (WatchChange w now data response) W = Some (Returned tt W') /\
    emitted W' = emitted W ++ [Healthy; Changed (consulKvData r)] /\
    _initialized (this W') = true /\
    _isWatchHealthy (this W') = true /\
    _consulKvData (this W') = consulKvData r /\
    settled W' = settled W /\
    retries W' = retries W /\
    immediates W' =
      immediates W ++ (if _isEmpty (factory_errors r) then []
                       else [EmitFactoryErrors (factory_errors r)]) /\
    deadlines W' = remove_key c (deadlines W) /\
    change_l (watches W' w) = [OnWatcherChange] /\
    In OnWatcherError (error_l (watches W' w)) /\
    end_l (watches W' w) = end_l (watches W w) ++ [OnWatcherEnd].
Proof.
  intros W w c now data response Hm Hw Hlive Hch Hc r. subst r.
  unfold turn. cbn [callback]. rewrite Hlive.
  open_world W. subst. exec.
  rewrite Nat.eqb_refl. cbn [change_l set_updateTime]. rewrite Hch.
  cbn [call_change_listeners]. exec.
  destruct (factory_errors (buildConsulKvData JSON_parse data js)) eqn:He; exec;
    rewrite Hc; exec.
  all: cbv [run_microtasks run_reactions]; exec; cbn [app].
  all: eexists; (split; [reflexivity|]); cbn; rewrite ?Nat.eqb_refl; cbn;
       rewrite ?Hch, ?app_nil_r, <- ?app_assoc; repeat split.
  all: try (apply in_or_app; right; left; reflexivity).
  all: cbn; rewrite ?Nat.eqb_refl; reflexivity.
Qed.

(** A fatal error of the running session (the watch object emits [error]
    and then ends itself), on a monitor with a listener for ['error']:
    [unhealthy], when the monitor was healthy, then
    [error] are emitted; the monitor is uninitialized and unhealthy, no
    fallback interval stays active, the old watch has ended, and a new
    watch is registered at once for a [start()] that [_retryStartService]
    awaits, with its initial-fetch timer. *)
Theorem fatal_error_restarts_session : forall W w err,
  reachable JSON_parse W ->
  error_listeners W <> 0 ->
  _watchKvChange (this W) = Some w ->
  watch_is_live W w = true ->
  error_l (watches W w) = [OnWatcherError] ->
  end_l (watches W w) = [OnWatcherEnd] ->
  exists W',
    turn JSON_parse (WatchErrorEv w err true) W = Some (Returned tt W') /\
    emitted W' =
      emitted W ++ (if _isWatchHealthy (this W) then [Unhealthy] else [])
                ++ [Error (WatchError (err_message err) err)] /\
    _initialized (this W') = false /\
    _isWatchHealthy (this W') = false /\
    intervals W' = [] /\
    ended (watches W' w) = true /\
    _watchKvChange (this W') = Some (next_watch W) /\
    calls W' = calls W ++ [(next_call W, RetryStartService)] /\
    deadlines W' = deadlines W ++ [(next_call W, _timeoutMsec (this W))] /\
    _consulKvData (this W') = _consulKvData (this W) /\
    retries W' = retries W.
Proof.
  intros W w err Hr Hel Hw Hlive Herr Hend.
  assert (Hi : exists W', turn JSON_parse (WatchErrorEv w err true) W = Some (Returned tt W') /\
    emitted W' =
      emitted W ++ (if _isWatchHealthy (this W) then [Unhealthy] else [])
                ++ [Error (WatchError (err_message err) err)] /\
    _initialized (this W') = false /\
    _isWatchHealthy (this W') = false /\
    _fallbackToWatchHealthyInterval (this W') = None /\
    ended (watches W' w) = true /\
    _watchKvChange (this W') = Some (next_watch W) /\
    calls W' = calls W ++ [(next_call W, RetryStartService)] /\
    deadlines W' = deadlines W ++ [(next_call W, _timeoutMsec (this W))] /\
    _consulKvData (this W') = _consulKvData (this W) /\
    retries W' = retries W).
  { destruct (reachable_session_invariant W Hr) as [_ Hm].
    assert (He : ended (watches W w) = false).
    { unfold watch_is_live in Hlive. apply andb_prop in Hlive. destruct Hlive as [_ H].
      now apply negb_true_iff in H. }
    assert (Hlt : w < next_watch W).
    { unfold watch_is_live in Hlive. apply andb_prop in Hlive. destruct Hlive as [H _].
      now apply Nat.ltb_lt in H. }
    unfold turn. cbn [callback]. rewrite Hlive.
    open_world W. subst. destruct els as [|els]; [cbn in Hel; congruence|].
    exec. rewrite Herr.
    cbn [call_error_listeners]. exec.
    assert (Hne : Nat.eqb w nw = false) by (apply Nat.eqb_neq; lia).
    destruct fb, hl; exec; cbv [watch_end]; exec;
      rewrite He, Hend; exec; cbn [call_end_listeners]; exec;
      cbv [run_microtasks run_reactions]; exec; cbn [app];
      (eexists; (split; [reflexivity|]); cbn; rewrite ?Nat.eqb_refl, ?Hne; cbn;
       rewrite <- ?app_assoc; repeat split). }
  destruct Hi as (W' & Ht & H1 & H2 & H3 & H4 & H5 & H6 & H7 & H8 & H9 & H10).
  exists W'. repeat split; try assumption.
  pose proof (reachable_fallback_timer_tracked W'
                (reachable_turn JSON_parse W _ W' Hr Ht)) as Hfb.
  unfold fallback_timer_tracked in Hfb. rewrite H4 in Hfb. exact Hfb.
Qed.

(** * Where the ongoing handlers listen *)

Lemma no_handlers_monitor_ok : forall W, no_handlers W -> flags_ok W -> monitor_ok W.
Proof.
  intros W H0 Hf. split; [|exact Hf]. intros w He Ha. destruct (H0 w He Ha).
Qed.

Lemma monitor_ok_no_watch : forall W,
  monitor_ok W -> _watchKvChange (this W) = None -> no_handlers W.
Proof.
  intros W [H1 _] Hn w He Ha. destruct (H1 w He Ha) as [E _]. congruence.
Qed.

Lemma In_remove_first_inv : forall A (eqb : A -> A -> bool) x y l,
  In y (remove_first eqb x l) -> In y l.
Proof.
  induction l as [|z l IH]; simpl; [auto|].
  destruct (eqb z x); [auto|]. simpl. intros [H|H]; auto.
Qed.

Lemma In_remove_last_inv : forall A (eqb : A -> A -> bool) x y l,
  In y (remove_last eqb x l) -> In y l.
Proof.
  intros A eqb x y l H. unfold remove_last in H. apply in_rev in H.
  apply In_remove_first_inv in H. now apply in_rev.
Qed.

Lemma remove_first_nil_inv : forall A (eqb : A -> A -> bool) x l,
  remove_first eqb x l <> [] -> l <> [].
Proof. intros A eqb x [|z l] H; [exact H | discriminate]. Qed.

Lemma remove_last_nil_inv : forall A (eqb : A -> A -> bool) x l,
  remove_last eqb x l <> [] -> l <> [].
Proof.
  intros A eqb x l H E. subst l. apply H. reflexivity.
Qed.

Lemma handlers_on_session_set_watches : forall ws' W,
  fewer_handlers ws' (watches W) ->
  handlers_on_session W -> handlers_on_session (set_watches ws' W).
Proof.
  intros ws' W Hf H w He Ha. cbn in *. destruct (Hf w) as [H1 H2].
  apply (H w); auto.
Qed.

Lemma no_handlers_set_watches : forall ws' W,
  fewer_handlers ws' (watches W) ->
  no_handlers W -> no_handlers (set_watches ws' W).
Proof.
  intros ws' W Hf H w He Ha. cbn in *. destruct (Hf w) as [H1 H2].
  apply (H w); auto.
Qed.

Ltac no_new_handlers Ha :=
  unfold handlers_attached in Ha; cbn in Ha;
  repeat match type of Ha with
         | _ \/ _ => destruct Ha as [Ha|Ha]
         | In _ (_ ++ _) => apply in_app_or in Ha
         | In _ (_ :: _) => destruct Ha as [Ha|Ha]
         | In _ [] => destruct Ha
         end;
  try discriminate; try congruence.

Lemma start_monitor_ok : forall who, hoare monitor_ok (start who) (fun _ => monitor_ok).
Proof.
  intros who W H. open_world W. exec. destruct wk as [w|]; exec.
  - destruct (find_call nc (cs ++ [(nc, who)])); exec; exact H.
  - pose proof (monitor_ok_no_watch _ H eq_refl) as H0. destruct H as [_ Hf].
    split; [|exact Hf]. intros w He Ha. exfalso. cbn in He, Ha.
    destruct (Nat.eqb w nw) eqn:E; cbn in He, Ha.
    + no_new_handlers Ha.
    + exact (H0 w He Ha).
Qed.

Lemma onWatcherEnd_no_handlers :
  hoare no_handlers _onWatcherEnd (fun _ W => no_handlers W /\ flags_ok W).
Proof.
  intros W H0. open_world W. exec.
  destruct fb, hl; exec;
    (split; [|split; cbn; intros; congruence]);
    intros w He Ha; cbn in He, Ha;
    (destruct (Nat.eqb w nw) eqn:E; cbn in He, Ha; [no_new_handlers Ha | exact (H0 w He Ha)]).
Qed.

Lemma call_end_listeners_no_handlers : forall ls,
  hoare (fun W => no_handlers W /\ flags_ok W) (call_end_listeners ls)
        (fun _ W => no_handlers W /\ flags_ok W).
Proof.
  induction ls as [|[] ls IH]; simpl.
  - apply hoare_ret. auto.
  - eapply hoare_bind; [|intros ?; exact IH].
    eapply hoare_conseq; [apply onWatcherEnd_no_handlers| |]; cbv beta; intuition.
Qed.

Lemma watch_end_session : forall w,
  hoare (fun W => monitor_ok W /\ _watchKvChange (this W) = Some w) (watch_end w)
        (fun _ W => no_handlers W /\ flags_ok W).
Proof.
  intros w W [[H1 Hf] Hw]. cbv [watch_end bind get ret upd_watch modify].
  assert (Hother : forall w', ended (watches W w') = false ->
                     handlers_attached (watches W w') -> w' = w).
  { intros w' He' Ha'. destruct (H1 w' He' Ha') as [E _]. congruence. }
  destruct (ended (watches W w)) eqn:He.
  - split; [|exact Hf]. intros w' He' Ha'.
    rewrite (Hother w' He' Ha') in He'. congruence.
  - apply call_end_listeners_no_handlers. split; [|exact Hf].
    intros w' He' Ha'. cbn in He', Ha'.
    destruct (Nat.eqb w' w) eqn:E; [discriminate|].
    apply Nat.eqb_neq in E. apply E. now apply Hother.
Qed.

Lemma watch_end_monitor_ok : forall w, hoare monitor_ok (watch_end w) (fun _ => monitor_ok).
Proof.
  intros w W H.
  destruct (ended (watches W w)) eqn:He.
  - cbv [watch_end bind get ret]. rewrite He. exact H.
  - destruct (end_l (watches W w)) as [|l ls] eqn:El.
    + cbv [watch_end bind get ret upd_watch modify]. rewrite He, El. simpl.
      destruct H as [H1 Hf]. split; [|exact Hf].
      intros w' He' Ha'. cbn in He', Ha' |- *.
      destruct (Nat.eqb w' w) eqn:E; [discriminate|]. now apply H1.
    + assert (Hw : _watchKvChange (this W) = Some w).
      { apply (proj1 H w He). right. right. rewrite El. discriminate. }
      pose proof (watch_end_session w W (conj H Hw)) as Hs.
      destruct (watch_end w W); [|exact I].
      apply no_handlers_monitor_ok; apply Hs.
Qed.

Lemma monitor_ok_set_watches : forall ws' W,
  fewer_handlers ws' (watches W) -> monitor_ok W -> monitor_ok (set_watches ws' W).
Proof.
  intros ws' W Hf [H1 H2]. split; [|exact H2].
  now apply handlers_on_session_set_watches.
Qed.

(** A listener was removed, or the update time moved. *)
Ltac fewer :=
  let i := fresh "i" in
  intros i; cbn;
  try match goal with |- context [Nat.eqb i ?w] => destruct (Nat.eqb i w) end;
  (split; [auto|]); auto;
  let Ha := fresh "Ha" in
  intros _ Ha; unfold handlers_attached in *; cbn in *;
  destruct Ha as [Ha|[Ha|Ha]];
  [ left; first [exact Ha | eapply In_remove_last_inv; exact Ha]
  | right; left; first [exact Ha | eapply In_remove_last_inv; exact Ha]
  | right; right; first [exact Ha | eapply remove_last_nil_inv; exact Ha] ].

Ltac frame_k := intros ? ?; assumption.

Lemma settle_monitor_ok : forall c job, preserves monitor_ok (settle c job).
Proof.
  intros c job W H. open_world W. exec. destruct (find_call c cs); exec; exact H.
Qed.

Lemma settle_given_up : forall c job, preserves given_up (settle c job).
Proof.
  intros c job W H. open_world W. exec. destruct (find_call c cs); exec; exact H.
Qed.

Lemma firstError_given_up : forall c err,
  hoare monitor_ok (firstError c err) (fun _ => given_up).
Proof.
  intros c err. unfold firstError.
  eapply hoare_bind; [apply hoare_this_watchKvChange|]. intros w1. cbv beta.
  eapply hoare_bind.
  { apply hoare_modify with (Q := monitor_ok). intros W [H _].
    apply monitor_ok_set_watches; [fewer | exact H]. }
  intros ?; cbv beta.
  eapply hoare_bind; [apply hoare_this_watchKvChange|]. intros w2. cbv beta.
  eapply hoare_bind; [apply watch_end_session|]. intros ?; cbv beta.
  eapply hoare_bind.
  { apply hoare_modify with (Q := given_up). intros W [H0 Hf].
    split; [apply no_handlers_monitor_ok; assumption | reflexivity]. }
  intros ?; cbv beta.
  eapply hoare_bind.
  { apply hoare_modify with (Q := given_up). frame_k. }
  intros ?; cbv beta. apply hoare_of_preserves, settle_given_up.
Qed.

Lemma deadline_elapsed_given_up : forall c,
  hoare monitor_ok (deadline_elapsed c) (fun _ => given_up).
Proof.
  intros c. unfold deadline_elapsed.
  eapply hoare_bind; [apply hoare_this_watchKvChange|]. intros w1. cbv beta.
  eapply hoare_bind.
  { apply hoare_modify with (Q := monitor_ok). intros W [H _].
    apply monitor_ok_set_watches; [fewer | exact H]. }
  intros ?; cbv beta.
  eapply hoare_bind; [apply hoare_this_watchKvChange|]. intros w2. cbv beta.
  eapply hoare_bind.
  { apply hoare_modify with (Q := monitor_ok). intros W [H _].
    apply monitor_ok_set_watches; [fewer | exact H]. }
  intros ?; cbv beta.
  eapply hoare_bind; [apply hoare_this_watchKvChange|]. intros w3. cbv beta.
  eapply hoare_bind; [apply watch_end_session|]. intros ?; cbv beta.
  eapply hoare_bind.
  { apply hoare_modify with (Q := given_up). intros W [H0 Hf].
    split; [apply no_handlers_monitor_ok; assumption | reflexivity]. }
  intros ?; cbv beta. apply hoare_of_preserves, settle_given_up.
Qed.

Lemma stop_monitor_ok : hoare monitor_ok stop (fun _ => monitor_ok).
Proof.
  intros W H. open_world W. unfold stop. exec.
  destruct rt, wk as [w|]; exec; try exact H.
  all: match type of H with monitor_ok ?W0 =>
       match goal with |- context [watch_end ?w ?W1] =>
         assert (Hk : monitor_ok W1)
           by (apply (monitor_ok_set_watches (watches W1) W0); [fewer | exact H]);
         pose proof (watch_end_session w W1 (conj Hk eq_refl)) as Hs;
         destruct (watch_end w W1) as [u W2|]; [|exact I]
       end end.
  all: destruct Hs as [H0 Hf]; open_world W2; exec; destruct fb0; exec;
       (apply no_handlers_monitor_ok; [exact H0 | split; cbn; congruence]).
Qed.

Lemma monitor_ok_frame : forall W W',
  fewer_handlers (watches W') (watches W) ->
  _watchKvChange (this W') = _watchKvChange (this W) ->
  _initialized (this W') = _initialized (this W) ->
  _fallbackToWatchHealthyInterval (this W') = _fallbackToWatchHealthyInterval (this W) ->
  _isWatchHealthy (this W') = _isWatchHealthy (this W) ->
  monitor_ok W -> monitor_ok W'.
Proof.
  intros W W' Hf E1 E2 E3 E4 [H1 [H2 H3]]. split; [|split].
  - intros w He Ha. rewrite E1, E2. destruct (Hf w) as [F1 F2]. apply H1; auto.
  - rewrite E2, E3. exact H2.
  - rewrite E2, E4. exact H3.
Qed.

Ltac frame_mon H :=
  eapply monitor_ok_frame; [| | | | | exact H]; [fewer | reflexivity ..].

Lemma firstChange_monitor_ok : forall c data response b,
  hoare (fun W => monitor_ok W /\ _initialized (this W) = b)
        (firstChange JSON_parse c data response)
        (fun _ W => monitor_ok W /\ _initialized (this W) = b).
Proof.
  intros c data response b W [H Hi]. open_world W. exec.
  destruct wk as [w|]; exec; [|exact I].
  destruct (factory_errors (buildConsulKvData JSON_parse data js)); exec;
    destruct (find_call c cs); exec; (split; [frame_mon H | exact Hi]).
Qed.

Lemma onWatcherChange_monitor_ok : forall data response,
  hoare (fun W => monitor_ok W /\ _initialized (this W) = true)
        (_onWatcherChange JSON_parse data response)
        (fun _ W => monitor_ok W /\ _initialized (this W) = true).
Proof.
  intros data response W [H Hi]. open_world W. cbn in Hi. subst ini. exec.
  destruct H as [H1 [H2 H3]].
  destruct hl; exec;
    destruct (factory_errors (buildConsulKvData JSON_parse data js)); exec;
    (split; [|reflexivity]); (split; [exact H1 | split; cbn; auto]).
Qed.

Lemma onWatcherError_monitor_ok : forall err,
  hoare (fun W => monitor_ok W /\
                  (_initialized (this W) = true \/ _watchKvChange (this W) = None))
        (_onWatcherError err)
        (fun _ W => monitor_ok W /\ _initialized (this W) = true).
Proof.
  intros err W [H Hc]. open_world W. exec.
  destruct wk as [w|].
  - destruct Hc as [Hi|Hn]; [|discriminate]. cbn in Hi. subst ini.
    destruct H as [H1 [H2 H3]].
    destruct els, fb, hl; exec; try exact I; (split; [|reflexivity]);
      (split; [exact H1 | split; cbn; auto]).
  - destruct fb, hl; exec; exact I.
Qed.

Lemma fallback_tick_monitor_ok : forall b,
  hoare (fun W => monitor_ok W /\ _initialized (this W) = true)
        (fallback_tick b) (fun _ => monitor_ok).
Proof.
  intros b W [H Hi]. open_world W. cbn in Hi. subst ini. exec.
  destruct H as [H1 [H2 H3]].
  destruct hl; exec.
  - destruct fb; exec; (split; [exact H1 | split; cbn; auto]).
  - destruct wk as [w|]; exec; [|exact I].
    destruct (option_Z_eqb b (updateTime (ws w))); exec;
      [|destruct fb; exec]; (split; [exact H1 | split; cbn; auto]).
Qed.

Lemma run_reaction_monitor_ok : forall r,
  hoare monitor_ok (run_reaction r) (fun _ => monitor_ok).
Proof.
  intros r W H. open_world W. destruct r as [c who kv|c who e]; destruct who; exec;
    try exact H.
  all: destruct wk as [w|]; exec; try exact H.
  all: destruct H as [H1 _]; (split; [|split; reflexivity]);
       intros w' He Ha; cbn in He, Ha |- *; (split; [|reflexivity]);
       destruct (Nat.eqb w' w) eqn:E; [apply Nat.eqb_eq in E; congruence|];
       apply (H1 w' He Ha).
Qed.

Lemma run_reactions_monitor_ok : forall rs,
  hoare monitor_ok (run_reactions rs) (fun _ => monitor_ok).
Proof.
  induction rs as [|r rs IH]; simpl.
  - apply hoare_ret. auto.
  - eapply hoare_bind; [apply run_reaction_monitor_ok | intros ?; exact IH].
Qed.

Lemma run_microtasks_monitor_ok : hoare monitor_ok run_microtasks (fun _ => monitor_ok).
Proof.
  intros W H. unfold run_microtasks. cbv [bind get modify].
  apply run_reactions_monitor_ok. exact H.
Qed.

Lemma call_change_listeners_monitor_ok : forall w data response ls W,
  monitor_ok W ->
  (In OnWatcherChange ls -> _initialized (this W) = true) ->
  match call_change_listeners JSON_parse w ls data response W with
  | Returned _ W' => monitor_ok W'
  | Thrown _ _ => True
  end.
Proof.
  intros w data response. induction ls as [|l ls IH]; intros W H Hi; simpl.
  - exact H.
  - unfold bind at 1. destruct l as [c|].
    + assert (Hstep : hoare (fun W' => monitor_ok W' /\
                                        _initialized (this W') = _initialized (this W))
                (watch_removeListener_change w (FirstChange c) ;;
                 firstChange JSON_parse c data response)
                (fun _ W' => monitor_ok W' /\
                             _initialized (this W') = _initialized (this W))).
      { eapply hoare_bind; [|intros ?; apply firstChange_monitor_ok].
        apply hoare_modify. intros W0 [H0 E]. split; [|exact E].
        apply monitor_ok_set_watches; [fewer | exact H0]. }
      specialize (Hstep W (conj H eq_refl)).
      destruct ((watch_removeListener_change w (FirstChange c) ;;
                 firstChange JSON_parse c data response) W) as [u W1|]; [|exact I].
      destruct Hstep as [H1 E]. apply IH; [exact H1|].
      intros Hin. rewrite E. apply Hi. now right.
    + pose proof (onWatcherChange_monitor_ok data response W
                    (conj H (Hi (or_introl eq_refl)))) as Hstep.
      destruct (_onWatcherChange JSON_parse data response W) as [u W1|]; [|exact I].
      destruct Hstep as [H1 E]. apply IH; [exact H1 | intros _; exact E].
Qed.

Lemma call_error_listeners_monitor_ok : forall w err ls W,
  monitor_ok W ->
  (In OnWatcherError ls ->
   _initialized (this W) = true \/ _watchKvChange (this W) = None) ->
  match call_error_listeners w ls err W with
  | Returned _ W' => monitor_ok W'
  | Thrown _ _ => True
  end.
Proof.
  intros w err. induction ls as [|l ls IH]; intros W H Hi; simpl.
  - exact H.
  - unfold bind at 1. destruct l as [c|].
    + assert (Hstep : hoare monitor_ok
                (watch_removeListener_error w (FirstError c) ;; firstError c err)
                (fun _ => given_up)).
      { eapply hoare_bind; [|intros ?; apply firstError_given_up].
        apply hoare_modify. intros W0 H0.
        apply monitor_ok_set_watches; [fewer | exact H0]. }
      specialize (Hstep W H).
      destruct ((watch_removeListener_error w (FirstError c) ;; firstError c err) W)
        as [u W1|]; [|exact I].
      destruct Hstep as [H1 E]. apply IH; [exact H1 | intros _; now right].
    + pose proof (onWatcherError_monitor_ok err W
                    (conj H (Hi (or_introl eq_refl)))) as Hstep.
      destruct (_onWatcherError err W) as [u W1|]; [|exact I].
      destruct Hstep as [H1 E]. apply IH; [exact H1 | intros _; now left].
Qed.

Lemma run_immediate_monitor_ok : forall i,
  hoare monitor_ok (run_immediate i) (fun _ => monitor_ok).
Proof.
  intros i. apply hoare_of_preserves. destruct i as [errs|err]; simpl.
  - apply preserves_forEach_emit_error. intros n. frame_k.
  - apply preserves_emit. frame_k.
Qed.

Lemma callback_monitor_ok : forall ev W m,
  monitor_ok W -> fallback_timer_tracked W ->
  callback JSON_parse ev W = Some m ->
  match m W with Returned _ W' => monitor_ok W' | Thrown _ _ => True end.
Proof.
  intros ev W m H Hfb Hc. destruct ev; simpl in Hc.
  - injection Hc as <-. unfold bind.
    pose proof (start_monitor_ok External W H) as Hs.
    destruct (start External W); [exact Hs | exact I].
  - injection Hc as <-. apply stop_monitor_ok, H.
  - destruct (watch_is_live W w) eqn:Hl; [|discriminate]. injection Hc as <-.
    cbv [bind upd_watch modify get].
    apply andb_prop in Hl. destruct Hl as [_ He]. apply negb_true_iff in He.
    apply call_change_listeners_monitor_ok.
    + apply monitor_ok_set_watches; [fewer | exact H].
    + cbn. rewrite Nat.eqb_refl. cbn. intros Hin.
      apply (proj1 H w He). now left.
  - destruct (watch_is_live W w); [|discriminate]. injection Hc as <-.
    cbv [upd_watch modify]. apply monitor_ok_set_watches; [fewer | exact H].
  - destruct (watch_is_live W w) eqn:Hl; [|discriminate]. injection Hc as <-.
    apply andb_prop in Hl. destruct Hl as [_ He]. apply negb_true_iff in He.
    cbv [bind get].
    pose proof (call_error_listeners_monitor_ok w err (error_l (watches W w)) W H) as Hs.
    destruct (call_error_listeners w (error_l (watches W w)) err W) as [u W1|]; [|exact I].
    assert (H1 : monitor_ok W1).
    { apply Hs. intros Hin. left. apply (proj1 H w He). right. now left. }
    destruct fatal; simpl; [apply watch_end_monitor_ok, H1 | exact H1].
  - destruct (lookup_key c (deadlines W)); [|discriminate]. injection Hc as <-.
    cbv [bind clearTimeout_deadline modify].
    match goal with |- context [deadline_elapsed c ?W1] =>
      pose proof (deadline_elapsed_given_up c W1 H) as Hs;
      destruct (deadline_elapsed c W1); [apply Hs | exact I]
    end.
  - destruct (lookup_key id (intervals W)) as [[p b]|] eqn:El; [|discriminate].
    injection Hc as <-. apply fallback_tick_monitor_ok. split; [exact H|].
    apply (proj1 (proj2 H)). unfold fallback_timer_tracked in Hfb.
    destruct (_fallbackToWatchHealthyInterval (this W)); [discriminate|].
    rewrite Hfb in El. discriminate.
  - destruct (lookup_key id (retries W)); [|discriminate]. injection Hc as <-.
    cbv [bind clearTimeout_retry modify _retryStartService].
    match goal with |- context [start RetryStartService ?W1] =>
      pose proof (start_monitor_ok RetryStartService W1 H) as Hs;
      destruct (start RetryStartService W1); [exact Hs | exact I]
    end.
  - destruct (immediates W) as [|i rest]; [discriminate|]. injection Hc as <-.
    cbv [bind modify]. apply run_immediate_monitor_ok. exact H.
  - injection Hc as <-. exact H.
  - injection Hc as <-. exact H.
Qed.

Lemma turn_monitor_ok : forall ev W W',
  monitor_ok W -> fallback_timer_tracked W ->
  turn JSON_parse ev W = Some (Returned tt W') -> monitor_ok W'.
Proof.
  intros ev W W' H Hfb Ht. unfold turn in Ht.
  destruct (callback JSON_parse ev W) as [m|] eqn:Hc; [|discriminate].
  injection Ht as Ht. unfold bind in Ht.
  pose proof (callback_monitor_ok ev W m H Hfb Hc) as H1.
  destruct (m W) as [u W1|]; [|discriminate].
  pose proof (run_microtasks_monitor_ok W1 H1) as H2.
  rewrite Ht in H2. exact H2.
Qed.

Lemma reachable_monitor_ok : forall W, reachable JSON_parse W -> monitor_ok W.
Proof.
  induction 1 as [timeoutMsec json | W ev W' Hr IH Ht].
  - split; [|split; cbn; congruence]. intros w _ Ha. exfalso. no_new_handlers Ha.
  - eapply turn_monitor_ok; eauto.
    now apply reachable_fallback_timer_tracked.
Qed.

(** Between two turns a healthy monitor is initialized, holds a watch, and
    that watch has not ended: [isWatchHealthy()] implies [isInitialized()]. *)
Theorem healthy_implies_initialized : forall W,
  reachable JSON_parse W ->
  _isWatchHealthy (this W) = true ->
  _initialized (this W) = true /\
  exists w, _watchKvChange (this W) = Some w /\ ended (watches W w) = false.
Proof.
  intros W Hr Hh. destruct (reachable_monitor_ok W Hr) as [_ [_ H3]].
  pose proof (H3 Hh) as Hi. split; [exact Hi|].
  destruct (reachable_session_invariant W Hr) as [(_ & H1 & H2) _].
  destruct (H1 Hi) as (w & Hw & _). exists w. split; [exact Hw|]. apply (H2 w Hw).
Qed.

(** Between two turns the three ongoing handlers listen on no watch that
    can still emit, except the watch the monitor holds, and only while the
    monitor is initialized: an event of a watch the monitor no longer holds
    finds none of [_onWatcherChange], [_onWatcherError] and [_onWatcherEnd]
    listening. *)
Theorem ongoing_handlers_on_session : forall W w,
  reachable JSON_parse W ->
  ended (watches W w) = false ->
  In OnWatcherChange (change_l (watches W w)) \/
  In OnWatcherError (error_l (watches W w)) \/
  In OnWatcherEnd (end_l (watches W w)) ->
  _watchKvChange (this W) = Some w /\ _initialized (this W) = true.
Proof.
  intros W w Hr He Ha. apply (proj1 (reachable_monitor_ok W Hr) w He).
  destruct Ha as [Ha|[Ha|Ha]]; [now left | now right; left | right; right].
  intros E. rewrite E in Ha. destruct Ha.
Qed.

(** Between two turns an active fallback interval belongs to an initialized
    monitor that holds a watch, so its tick never throws: it returns, and
    the interval is cleared exactly when the monitor is healthy or its
    watch reports another update time than the recorded one. *)
Theorem fallback_tick_returns : forall W id period baseline,
  reachable JSON_parse W ->
  lookup_key id (intervals W) = Some (period, baseline) ->
  exists w W',
    _initialized (this W) = true /\
    _watchKvChange (this W) = Some w /\
    turn JSON_parse (FallbackTick id) W = Some (Returned tt W') /\
    _isWatchHealthy (this W') =
      (_isWatchHealthy (this W) || negb (option_Z_eqb baseline (updateTime (watches W w)))) /\
    intervals W' = (if _isWatchHealthy (this W') then [] else intervals W) /\
    _initialized (this W') = true /\
    _watchKvChange (this W') = Some w.
Proof.
  intros W id period baseline Hr Hl.
  pose proof (reachable_fallback_timer_tracked W Hr) as Hfb.
  destruct (reachable_monitor_ok W Hr) as [_ [H2 _]].
  destruct (reachable_session_invariant W Hr) as [(_ & H1 & _) Hm].
  unfold fallback_timer_tracked in Hfb.
  destruct (_fallbackToWatchHealthyInterval (this W)) as [id'|] eqn:Ef;
    [|rewrite Hfb in Hl; discriminate].
  destruct Hfb as [b Hb]. rewrite Hb in Hl. simpl in Hl.
  destruct (Nat.eqb id' id) eqn:E; [|discriminate]. apply Nat.eqb_eq in E. subst id'.
  injection Hl as <- <-.
  assert (Hi : _initialized (this W) = true) by (apply H2; discriminate).
  destruct (H1 Hi) as (w & Hw & _). exists w.
  unfold turn. cbn [callback]. rewrite Hb. cbn [lookup_key]. rewrite Nat.eqb_refl.
  open_world W. cbn in Hi, Hw, Ef, Hb, Hm. subst. exec.
  destruct hl; exec.
  - cbv [run_microtasks run_reactions]. exec. cbn. rewrite Nat.eqb_refl. cbn.
    eexists. repeat split.
  - destruct (option_Z_eqb b (updateTime (ws w))); exec;
      cbv [run_microtasks run_reactions]; exec; cbn; try rewrite Nat.eqb_refl; cbn;
      eexists; repeat split.
Qed.

End Properties.

(** * Closed instances *)

Lemma run_reachable : forall JSON_parse evs W W',
  reachable JSON_parse W -> run JSON_parse evs W = Some W' -> reachable JSON_parse W'.
Proof.
  intros JSON_parse. induction evs as [|ev evs IH]; intros W W' Hr H; simpl in H.
  - injection H as <-. exact Hr.
  - destruct (turn JSON_parse ev W) as [[[] W1|]|] eqn:E; try discriminate.
    eapply IH; [|exact H]. eapply reachable_turn; eauto.
Qed.

Lemma world_after_reachable : forall evs, reachable sample_JSON_parse (world_after evs).
Proof.
  intros evs. unfold world_after.
  destruct (run sample_JSON_parse evs (new_World 5000 false)) eqn:E.
  - eapply run_reachable; [apply reachable_new | exact E].
  - apply reachable_new.
Qed.

Lemma stop_leaves_deadline_timer_witness :
  In (0, 5000%Z) (deadlines world_starting) /\
  exists W',
    stop world_starting = Returned tt W' /\
    _watchKvChange (this W') = None /\
    In (0, 5000%Z) (deadlines W') /\
    exists W'', turn sample_JSON_parse (DeadlineElapsed 0) W' = Some (Thrown TypeError W'').
Proof.
  split; [vm_compute; left; reflexivity|].
  apply (stop_leaves_deadline_timer sample_JSON_parse world_starting 0 5000%Z).
  vm_compute. left. reflexivity.
Defined.

Lemma start_twice_rejected_witness :
  _watchKvChange (this world_starting) = Some 0 /\
  exists W',
    turn sample_JSON_parse CallStart world_starting = Some (Returned tt W') /\
    settled W' =
      settled world_starting
      ++ [(next_call world_starting,
           RejectedWith (AlreadyInitializedError "Service is already started"))] /\
    this W' = this world_starting.
Proof.
  split; [reflexivity|].
  destruct (start_twice_rejected sample_JSON_parse world_starting 0
              (world_after_reachable _) eq_refl) as (W' & H1 & H2 & H3 & _).
  exists W'. repeat split; assumption.
Defined.

Lemma fallback_timer_spec_witness :
  lookup_key 0 (intervals world_recovering) = Some (1000%Z, Some 10%Z) /\
  _isWatchHealthy (this world_recovering) = false /\
  _watchKvChange (this world_recovering) = Some 0 /\
  updateTime (watches world_recovering 0) <> Some 10%Z /\
  turn sample_JSON_parse (FallbackTick 0) world_recovering =
  Some (Returned tt
          (set_emitted (emitted world_recovering ++ [Healthy])
             (set_this (set_isWatchHealthy true
                          (set_fallbackToWatchHealthyInterval None (this world_recovering)))
                (set_intervals [] world_recovering)))).
Proof.
  split; [reflexivity|]. split; [reflexivity|]. split; [reflexivity|].
  split; [vm_compute; discriminate|].
  apply (proj2 (proj2 (proj2 (fallback_timer_spec sample_JSON_parse)))
           world_recovering 0 1000%Z (Some 10%Z) 0).
  - apply world_after_reachable.
  - reflexivity.
  - reflexivity.
  - reflexivity.
  - vm_compute. discriminate.
Defined.

Lemma stop_misses_overwritten_retry_timer_witness :
  reachable sample_JSON_parse world_two_retries /\
  _retryTimer (this world_two_retries) = Some 3 /\
  lookup_key 1 (retries world_two_retries) = Some 1000%Z /\
  exists W',
    stop world_two_retries = Returned tt W' /\
    _retryTimer (this W') = None /\
    lookup_key 1 (retries W') = Some 1000%Z /\
    exists W'',
      turn sample_JSON_parse (RetryElapsed 1) W' = Some (Returned tt W'') /\
      _watchKvChange (this W'') = Some 4 /\
      calls W'' = [(4, RetryStartService)] /\
      deadlines W'' = [(4, 5000%Z)].
Proof.
  split; [apply world_after_reachable|]. split; [reflexivity|]. split; [reflexivity|].
  apply (stop_misses_overwritten_retry_timer sample_JSON_parse world_two_retries 3 1 1000%Z).
  - reflexivity.
  - reflexivity.
  - reflexivity.
  - discriminate.
  - reflexivity.
Defined.

Lemma retry_procedure_spec_witness :
  _retryTimer (this world_retrying) = Some 1 /\
  exists W',
    stop world_retrying = Returned tt W' /\
    _retryTimer (this W') = None /\
    retries W' = remove_key 1 (retries world_retrying) /\
    callback sample_JSON_parse (RetryElapsed 1) W' = None.
Proof.
  split; [reflexivity|].
  apply (proj2 (proj2 (proj2 (proj2 (proj2 (retry_procedure_spec sample_JSON_parse)))))
           world_retrying 1).
  reflexivity.
Defined.



(** Two errors that reach the ongoing handler and are not emitted.  On a
    running, healthy monitor with no listener for ['error']: [unhealthy] is
    emitted and the handler throws the wrapped error.  On a monitor with such
    a listener whose watch still carries the [firstError] of its own
    [start()]: that listener runs first, ends the session and drops the
    watch, and the handler then throws a [TypeError]. *)
Lemma onWatcherError_error_not_emitted :
  (_watchKvChange (this world_running_unheard) = Some 0 /\
   error_l (watches world_running_unheard 0) = [OnWatcherError] /\
   match turn sample_JSON_parse (WatchErrorEv 0 sample_error false) world_running_unheard with
   | Some (Thrown e W') =>
       e = WatchError "connect ECONNREFUSED" sample_error /\
       emitted W' = emitted world_running_unheard ++ [Unhealthy]
   | _ => False
   end) /\
  (error_listeners world_first_error_left <> 0 /\
   _watchKvChange (this world_first_error_left) = Some 3 /\
   error_l (watches world_first_error_left 3) = [FirstError 3; OnWatcherError] /\
   match turn sample_JSON_parse (WatchErrorEv 3 sample_error false) world_first_error_left with
   | Some (Thrown e W') =>
       e = TypeError /\
       emitted W' = emitted world_first_error_left ++ [Unhealthy]
   | _ => False
   end).
Proof.
  split.
  - split; [vm_compute; reflexivity|]. split; [vm_compute; reflexivity|].
    vm_compute. split; reflexivity.
  - split; [vm_compute; discriminate|]. split; [vm_compute; reflexivity|].
    split; [vm_compute; reflexivity|]. vm_compute. split; reflexivity.
Qed.

Lemma onWatcherError_spec_witness :
  _watchKvChange (this world_running) = Some 0 /\
  exists W',
    _onWatcherError sample_error world_running = Returned tt W' /\
    _isWatchHealthy (this W') = false /\
    emitted W' =
      emitted world_running
      ++ (if _isWatchHealthy (this world_running) then [Unhealthy] else [])
      ++ [Error (WatchError (err_message sample_error) sample_error)].
Proof.
  split; [reflexivity|].
  destruct (onWatcherError_spec world_running 0 sample_error eq_refl)
    as (W' & H1 & H2 & H3 & _).
  exists W'. repeat split; assumption.
Defined.




Lemma initialized_implies_session_witness :
  _initialized (this world_running) = true /\
  exists w, _watchKvChange (this world_running) = Some w /\
            ended (watches world_running w) = false /\
            In OnWatcherEnd (end_l (watches world_running w)).
Proof.
  split; [reflexivity|].
  apply (initialized_implies_session sample_JSON_parse world_running
           (world_after_reachable _)).
  reflexivity.
Defined.


Lemma hasKey_buildConsulKvData_witness :
  JArr [rec_a1; JNum 3] <> JUndefined /\
  hasKey (consulKvData (buildConsulKvData sample_JSON_parse (JArr [rec_a1; JNum 3]) false))
         (JStr "a") =
  existsb (fun record => same_value_zero (get_prop record "Key") (JStr "a"))
          (filter (decodes sample_JSON_parse false)
                  (validRecords (filterValidKvRecords (JArr [rec_a1; JNum 3])))).
Proof.
  split; [discriminate|].
  apply (hasKey_buildConsulKvData sample_JSON_parse); [discriminate | reflexivity].
Defined.

Lemma buildConsulKvData_entries_witness :
  In (JStr "a", {| metaData := rec_a1; value := JNum 1 |})
     (_kvMap (consulKvData (buildConsulKvData sample_JSON_parse (JArr [rec_a1; JNum 3]) true))) /\
  get_prop rec_a1 "Key" = JStr "a" /\
  JNum 1 = decoded_value sample_JSON_parse true rec_a1.
Proof.
  assert (H : In (JStr "a", {| metaData := rec_a1; value := JNum 1 |})
     (_kvMap (consulKvData (buildConsulKvData sample_JSON_parse (JArr [rec_a1; JNum 3]) true))))
    by (vm_compute; left; reflexivity).
  split; [exact H|].
  destruct (buildConsulKvData_entries sample_JSON_parse _ _ _ _ H) as (_ & _ & H1 & H2 & _).
  split; assumption.
Defined.

Lemma buildConsulKvData_round_trip_witness :
  let data := JArr [rec_a1; JNum 3] in
  let snapshot := consulKvData (buildConsulKvData sample_JSON_parse data true) in
  getKeys snapshot = [JStr "a"].
Proof.
  cbv zeta.
  apply (proj1 (buildConsulKvData_round_trip sample_JSON_parse (JArr [rec_a1; JNum 3]) true
                  ltac:(discriminate) ltac:(vm_compute; repeat constructor))).
Defined.

Lemma buildConsulKvData_no_batch_witness :
  JStr "not a json" <> JUndefined /\ _isArray (JStr "not a json") = false /\
  getKeys (consulKvData (buildConsulKvData sample_JSON_parse (JStr "not a json") true)) = [] /\
  factory_errors (buildConsulKvData sample_JSON_parse (JStr "not a json") true) =
    [invalid_payload_error (JStr "not a json")].
Proof.
  split; [discriminate|]. split; [reflexivity|].
  apply (proj2 (buildConsulKvData_no_batch sample_JSON_parse true) (JStr "not a json")).
  - discriminate.
  - reflexivity.
Defined.

Lemma buildConsulKvData_raw_witness :
  JArr [rec_a1; JNum 3] <> JUndefined /\
  factory_errors (buildConsulKvData sample_JSON_parse (JArr [rec_a1; JNum 3]) false) =
    errors (filterValidKvRecords (JArr [rec_a1; JNum 3])).
Proof.
  split; [discriminate|].
  apply (proj2 (buildConsulKvData_raw sample_JSON_parse (fun _ => None)
                  (JArr [rec_a1; JNum 3]))).
  discriminate.
Defined.

Lemma stop_turn_uninitialized_witness :
  exists W',
    turn sample_JSON_parse CallStop world_running = Some (Returned tt W') /\
    _initialized (this W') = false /\
    _watchKvChange (this W') = None.
Proof.
  destruct (stop_turn_uninitialized sample_JSON_parse world_running
              (world_after_reachable _)) as (W' & H1 & H2 & H3 & _).
  exists W'. repeat split; assumption.
Defined.

Lemma reachable_watch_alive_witness :
  _watchKvChange (this world_unhealthy) = Some 0 /\
  ended (watches world_unhealthy 0) = false /\ microtasks world_unhealthy = [].
Proof.
  split; [reflexivity|].
  apply (reachable_watch_alive sample_JSON_parse world_unhealthy 0
           (world_after_reachable _)).
  reflexivity.
Defined.

Lemma retry_elapsed_with_session_witness :
  lookup_key 1 (retries world_retrying_started) = Some 1000%Z /\
  _watchKvChange (this world_retrying_started) = Some 2 /\
  exists W',
    turn sample_JSON_parse (RetryElapsed 1) world_retrying_started = Some (Returned tt W') /\
    immediates W' =
      immediates world_retrying_started
      ++ [EmitStartFailure (AlreadyInitializedError "Service is already started")].
Proof.
  split; [reflexivity|]. split; [reflexivity|].
  destruct (retry_elapsed_with_session sample_JSON_parse world_retrying_started 1 1000%Z 2
              (world_after_reachable _) eq_refl eq_refl) as (W' & H1 & H2 & _).
  exists W'. split; assumption.
Defined.

Lemma first_change_resolves_start_witness :
  exists W',
    turn sample_JSON_parse (WatchChange 0 10 (JArr [rec_a1]) sample_response) world_starting
      = Some (Returned tt W') /\
    settled W' =
      [(0, Resolved (consulKvData (buildConsulKvData sample_JSON_parse (JArr [rec_a1]) false)))] /\
    _initialized (this W') = true.
Proof.
  destruct (first_change_resolves_start sample_JSON_parse world_starting 0 0 10
              (JArr [rec_a1]) sample_response eq_refl eq_refl eq_refl eq_refl eq_refl)
    as (W' & H1 & H2 & H3 & _).
  exists W'. repeat split; assumption.
Defined.

Lemma first_error_rejects_start_witness :
  exists W',
    turn sample_JSON_parse (WatchErrorEv 0 sample_error false) world_starting
      = Some (Returned tt W') /\
    settled W' =
      [(0, RejectedWith (WatchError "connect ECONNREFUSED" sample_error))] /\
    _watchKvChange (this W') = None.
Proof.
  destruct (first_error_rejects_start sample_JSON_parse world_starting 0 0 sample_error
              eq_refl eq_refl eq_refl eq_refl eq_refl eq_refl)
    as (W' & H1 & H2 & H3 & _).
  exists W'. repeat split; assumption.
Defined.

Lemma deadline_rejects_start_witness :
  exists W',
    turn sample_JSON_parse (DeadlineElapsed 0) world_starting = Some (Returned tt W') /\
    settled W' =
      [(0, RejectedWith (WatchTimeoutError "Initial consul watch request was timed out"))] /\
    _watchKvChange (this W') = None.
Proof.
  destruct (deadline_rejects_start sample_JSON_parse world_starting 0 0 5000%Z
              eq_refl eq_refl eq_refl eq_refl eq_refl eq_refl)
    as (W' & H1 & H2 & H3 & _).
  exists W'. repeat split; assumption.
Defined.

Lemma healthy_implies_initialized_witness :
  _isWatchHealthy (this world_running) = true /\
  _initialized (this world_running) = true /\
  exists w, _watchKvChange (this world_running) = Some w /\
            ended (watches world_running w) = false.
Proof.
  split; [reflexivity|].
  apply (healthy_implies_initialized sample_JSON_parse world_running
           (world_after_reachable _)).
  reflexivity.
Defined.

Lemma ongoing_handlers_on_session_witness :
  ended (watches world_running 0) = false /\
  In OnWatcherError (error_l (watches world_running 0)) /\
  _watchKvChange (this world_running) = Some 0 /\
  _initialized (this world_running) = true.
Proof.
  split; [reflexivity|]. split; [vm_compute; left; reflexivity|].
  apply (ongoing_handlers_on_session sample_JSON_parse world_running 0
           (world_after_reachable _)).
  - reflexivity.
  - right. left. vm_compute. left. reflexivity.
Defined.

Lemma fallback_tick_returns_witness :
  lookup_key 0 (intervals world_unhealthy) = Some (1000%Z, Some 10%Z) /\
  exists w W',
    _initialized (this world_unhealthy) = true /\
    _watchKvChange (this world_unhealthy) = Some w /\
    turn sample_JSON_parse (FallbackTick 0) world_unhealthy = Some (Returned tt W').
Proof.
  split; [reflexivity|].
  destruct (fallback_tick_returns sample_JSON_parse world_unhealthy 0 1000%Z (Some 10%Z)
              (world_after_reachable _) eq_refl) as (w & W' & H1 & H2 & H3 & _).
  exists w, W'. repeat split; assumption.
Defined.

Lemma buildConsulKvData_missing_key_witness :
  let snapshot :=
    consulKvData (buildConsulKvData sample_JSON_parse (JArr [rec_a1; JNum 3]) true) in
  hasKey snapshot (JStr "b") = false /\
  getValue snapshot (JStr "b") = JUndefined /\
  getMetadata snapshot (JStr "b") = JUndefined.
Proof.
  apply (buildConsulKvData_missing_key sample_JSON_parse (JArr [rec_a1; JNum 3]) true
           (JStr "b")); [reflexivity|].
  intros record [<-|[]]. reflexivity.
Defined.

Lemma first_change_after_restart_witness :
  exists W',
    turn sample_JSON_parse (WatchChange 1 20 (JArr [rec_a2]) sample_response) world_restarted
      = Some (Returned tt W') /\
    emitted W' =
      emitted world_restarted
      ++ [Healthy;
          Changed (consulKvData (buildConsulKvData sample_JSON_parse (JArr [rec_a2]) false))] /\
    _initialized (this W') = true.
Proof.
  destruct (first_change_after_restart sample_JSON_parse world_restarted 1 1 20
              (JArr [rec_a2]) sample_response eq_refl eq_refl eq_refl eq_refl eq_refl)
    as (W' & H1 & H2 & H3 & _).
  exists W'. repeat split; assumption.
Defined.

Lemma fatal_error_restarts_session_witness :
  exists W',
    turn sample_JSON_parse (WatchErrorEv 0 sample_error true) world_running
      = Some (Returned tt W') /\
    emitted W' =
      emitted world_running
      ++ [Unhealthy; Error (WatchError "connect ECONNREFUSED" sample_error)] /\
    _initialized (this W') = false.
Proof.
  destruct (fatal_error_restarts_session sample_JSON_parse world_running 0 sample_error
              (world_after_reachable _) ltac:(discriminate) eq_refl eq_refl eq_refl eq_refl)
    as (W' & H1 & H2 & H3 & _).
  exists W'. repeat split; assumption.
Defined.
